(** * A dynamic array container: [Array<T>] of [array.h]

    A shallow embedding of the class template [Array<T>] (file
    [src/array.h]) and of the driver [main] (file [src/main.cpp]).

    - [int] is a 32-bit two's complement integer: a [Z] together with
      the wrap-around [Int.wrap] applied after every arithmetic
      operation of the source.  (The C++ standard leaves signed
      overflow undefined; wrap-around is what the usual targets
      compute.)
    - An [Array] object is the triple of its fields [data], [size] and
      [capacity].  Objects live in a store indexed by their address, so
      that [this == &other] is a comparison of addresses.
    - The buffers obtained from [new T[n]] live in a second store, the
      free store.  A buffer is a list of slots; [delete[]] removes it.
    - A member function is a computation in the monad [M]: a function
      from the state to an outcome, which is a normal return, a thrown
      exception, undefined behaviour or divergence.
    - A parameter [const T& value] is a reference [cref]: a temporary,
      or a slot of a buffer.  The function reads it where it uses it, so
      that an argument that is an element of the container itself is
      read after what the function has done to the buffer. *)

From Stdlib Require Import ZArith Lia String.
From stdpp Require Import base option list gmap.

Local Open Scope Z_scope.

(** ** 32-bit [int] *)

Module Int.

Definition modulus : Z := 2 ^ 32.
Definition min_int : Z := - 2 ^ 31.
Definition max_int : Z := 2 ^ 31 - 1.

(** The representative of [z] modulo [2^32] in [min_int .. max_int]. *)
Definition wrap (z : Z) : Z := (z + 2 ^ 31) mod modulus - 2 ^ 31.

Definition add (x y : Z) : Z := wrap (x + y).
Definition sub (x y : Z) : Z := wrap (x - y).
Definition mul (x y : Z) : Z := wrap (x * y).

End Int.

(** ** Exceptions and outcomes *)

Inductive exn : Type :=
| out_of_range (what : string)
| bad_array_new_length.

(** The three messages of [array.h]. *)
Definition IndexOutOfBounds : exn := out_of_range "Index out of bounds".
Definition PopFromEmpty : exn := out_of_range "Pop from empty array".
Definition ShiftFromEmpty : exn := out_of_range "Shift from empty array".

Inductive outcome (S A : Type) : Type :=
| Ret (a : A) (s : S)        (* normal return *)
| Throw (e : exn) (s : S)    (* an exception leaves the function *)
| Undef                      (* undefined behaviour *)
| Diverge.                   (* the call never returns *)

Arguments Ret {S A} a s.
Arguments Throw {S A} e s.
Arguments Undef {S A}.
Arguments Diverge {S A}.

(** A token written to [std::cout]. *)
Inductive token : Type :=
| Str (s : string)
| Num (z : Z).

Definition tab : string := String (Ascii.ascii_of_nat 9) EmptyString.
Definition newline : string := String (Ascii.ascii_of_nat 10) EmptyString.

(** ** The growth loop of [ensureCapacity]

    [while (newCapacity < minCapacity) newCapacity *= 2;] with at most
    [fuel] iterations; [None] when the fuel runs out.  After 32
    doublings every [int] has wrapped to [0], so 33 iterations decide
    the loop ([grow_loop_fuel_exact] below): [None] at [grow_fuel] is a
    loop that never ends. *)

Fixpoint grow_loop (fuel : nat) (newCapacity minCapacity : Z) : option Z :=
  if newCapacity <? minCapacity then
    match fuel with
    | O => None
    | S fuel' => grow_loop fuel' (Int.mul newCapacity 2) minCapacity
    end
  else Some newCapacity.

Definition grow_fuel : nat := 33.

(** [int newCapacity = capacity > 0 ? capacity * 2 : 1;] *)
Definition initial_newCapacity (capacity : Z) : Z :=
  if capacity >? 0 then Int.mul capacity 2 else 1.

(** [newCapacity] after [k] executions of [newCapacity *= 2]. *)
Fixpoint doubled (k : nat) (newCapacity : Z) : Z :=
  match k with
  | O => newCapacity
  | S k' => doubled k' (Int.mul newCapacity 2)
  end.

(** The growth policy in the words of the specification, over the
    mathematical integers: [doubles_to c m v] when starting from [c]
    and doubling until the value is at least [m] ends with [v]. *)
Inductive doubles_to (m : Z) : Z -> Z -> Prop :=
| doubles_stop c : m <= c -> doubles_to m c c
| doubles_step c v : c < m -> doubles_to m (2 * c) v -> doubles_to m c v.

(** [v] is the smallest value of the form [c * 2^k] that is at least
    [n]. *)
Definition least_scaled (c n v : Z) : Prop :=
  (exists k : nat, v = c * 2 ^ Z.of_nat k) /\ n <= v /\
  forall k : nat, n <= c * 2 ^ Z.of_nat k -> v <= c * 2 ^ Z.of_nat k.

(** ** The class [Array<T>] *)

Section WithT.

(** The element type, the value of [T()] (what [new T[n]()] puts in
    every slot) and the content of a slot after [new T[n]] (for a class
    type the same [T()], for a scalar type some indeterminate value: no
    theorem below depends on which). *)
Context {T : Type}.
Variable value_init : T.
Variable default_init : T.

(** [T* data; int size; int capacity;] with [nullptr] as [None]. *)
Record Array : Type := mkArray {
  data : option positive;
  size : Z;
  capacity : Z
}.

Record state : Type := mkState {
  objs : gmap positive Array;      (* the [Array] objects, by address *)
  bufs : gmap positive (list T);   (* the free store, by address *)
  out : list token                 (* what was written to [std::cout] *)
}.

Definition M (A : Type) : Type := state -> outcome state A.

Definition ret {A} (a : A) : M A := fun s => Ret a s.

Definition bind {A B} (m : M A) (k : A -> M B) : M B :=
  fun s =>
    match m s with
    | Ret a s' => k a s'
    | Throw e s' => Throw e s'
    | Undef => Undef
    | Diverge => Diverge
    end.

Definition throw {A} (e : exn) : M A := fun s => Throw e s.
Definition undef {A} : M A := fun _ => Undef.
Definition diverge {A} : M A := fun _ => Diverge.

Notation "x <- m ;; k" := (bind m (fun x => k))
  (at level 100, m at level 99, k at level 200, right associativity).
Notation "m ;;; k" := (bind m (fun _ => k))
  (at level 100, k at level 200, right associativity).

(** *** Objects and the free store *)

(** Reading the fields of [*this]; an object that does not exist has no
    fields to read. *)
Definition get_obj (this : positive) : M Array :=
  fun s => match objs s !! this with Some a => Ret a s | None => Undef end.

(** The state in which the object at [this] is [a]. *)
Definition set_obj (s : state) (this : positive) (a : Array) : state :=
  mkState (<[this := a]> (objs s)) (bufs s) (out s).

Definition put_obj (this : positive) (a : Array) : M unit :=
  fun s => Ret tt (set_obj s this a).

Definition wr_data (this : positive) (p : option positive) : M unit :=
  a <- get_obj this ;; put_obj this (mkArray p (size a) (capacity a)).

Definition wr_size (this : positive) (n : Z) : M unit :=
  a <- get_obj this ;; put_obj this (mkArray (data a) n (capacity a)).

Definition wr_capacity (this : positive) (n : Z) : M unit :=
  a <- get_obj this ;; put_obj this (mkArray (data a) (size a) n).

(** [new T[n]] and [new T[n]()]: a negative [n] throws
    [std::bad_array_new_length]; the store is taken to be large enough
    for every other request. *)
Definition new_array (n : Z) (init : T) : M positive :=
  fun s =>
    if n <? 0 then Throw bad_array_new_length s
    else
      let l := fresh (dom (bufs s)) in
      Ret l (mkState (objs s)
                     (<[l := replicate (Z.to_nat n) init]> (bufs s)) (out s)).

(** [delete[] p]: nothing for [nullptr], undefined for a pointer that
    is not a live buffer. *)
Definition delete_array (p : option positive) : M unit :=
  fun s =>
    match p with
    | None => Ret tt s
    | Some l =>
        match bufs s !! l with
        | Some _ => Ret tt (mkState (objs s) (delete l (bufs s)) (out s))
        | None => Undef
        end
    end.

(** The slot [i] of the buffer at [p], when there is one. *)
Definition slot (s : state) (p : option positive) (i : Z) : option T :=
  match p with
  | None => None
  | Some l =>
      match bufs s !! l with
      | Some buf => if i <? 0 then None else buf !! Z.to_nat i
      | None => None
      end
  end.

(** Reading [p[i]]. *)
Definition load (p : option positive) (i : Z) : M T :=
  fun s => match slot s p i with Some x => Ret x s | None => Undef end.

(** The state in which the buffer at [l] is [buf]. *)
Definition set_buf (s : state) (l : positive) (buf : list T) : state :=
  mkState (objs s) (<[l := buf]> (bufs s)) (out s).

(** [p[i] = v]. *)
Definition store (p : option positive) (i : Z) (v : T) : M unit :=
  fun s =>
    match p with
    | Some l =>
        match bufs s !! l with
        | Some buf =>
            if (0 <=? i) && (i <? Z.of_nat (length buf))
            then Ret tt (set_buf s l (<[Z.to_nat i := v]> buf))
            else Undef
        | None => Undef
        end
    | None => Undef
    end.

(** [std::cout << ...]. *)
Definition print (ts : list token) : M unit :=
  fun s => Ret tt (mkState (objs s) (bufs s) (out s ++ ts)).

(** *** Loops *)

(** [for (int i = lo; i < hi; ++i) body(i)], for a body that leaves
    [hi] alone: [hi - lo] iterations when that is positive, and [++i]
    stays below [hi]. *)
Fixpoint for_up_from (n : nat) (i : Z) (body : Z -> M unit) : M unit :=
  match n with
  | O => ret tt
  | S n' => body i ;;; for_up_from n' (i + 1) body
  end.

Definition for_up (lo hi : Z) (body : Z -> M unit) : M unit :=
  for_up_from (Z.to_nat (hi - lo)) lo body.

(** [for (int i = hi; i > 0; --i) body(i)]. *)
Fixpoint for_down_from (n : nat) (i : Z) (body : Z -> M unit) : M unit :=
  match n with
  | O => ret tt
  | S n' => body i ;;; for_down_from n' (i - 1) body
  end.

Definition for_down (hi : Z) (body : Z -> M unit) : M unit :=
  for_down_from (Z.to_nat hi) hi body.

(** [for (int i = 0; i < hi; ++i) if (...) return ...;]: the body
    answers [Some r] to return [r] from the function. *)
Fixpoint search_from {R} (n : nat) (i : Z) (body : Z -> M (option R))
  : M (option R) :=
  match n with
  | O => ret None
  | S n' =>
      r <- body i ;;
      match r with
      | Some x => ret (Some x)
      | None => search_from n' (i + 1) body
      end
  end.

Definition search {R} (hi : Z) (body : Z -> M (option R)) : M (option R) :=
  search_from (Z.to_nat hi) 0 body.

(** *** Member functions *)

Definition ensureCapacity (this : positive) (minCapacity : Z) : M unit :=
  a <- get_obj this ;;
  if capacity a >=? minCapacity then ret tt
  else
    match
      grow_loop grow_fuel (initial_newCapacity (capacity a)) minCapacity
    with
    | None => diverge
    | Some newCapacity =>
        newData <- new_array newCapacity default_init ;;
        for_up 0 (size a)
          (fun i => x <- load (data a) i ;; store (Some newData) i x) ;;;
        delete_array (data a) ;;;
        wr_data this (Some newData) ;;;
        wr_capacity this newCapacity
    end.

Definition default_initialCapacity : Z := 4.

(** [explicit Array(int initialCapacity = 4)], constructing at [this]. *)
Definition Array_ctor (this : positive) (initialCapacity : Z) : M unit :=
  p <- new_array initialCapacity value_init ;;
  put_obj this (mkArray (Some p) 0 initialCapacity).

(** [~Array()]; the object is gone afterwards. *)
Definition Array_dtor (this : positive) : M unit :=
  a <- get_obj this ;;
  delete_array (data a) ;;;
  fun s => Ret tt (mkState (delete this (objs s)) (bufs s) (out s)).

(** [Array(const Array& other)]. *)
Definition Array_copy_ctor (this other : positive) : M unit :=
  o <- get_obj other ;;
  p <- new_array (capacity o) value_init ;;
  put_obj this (mkArray (Some p) (size o) (capacity o)) ;;;
  for_up 0 (size o) (fun i => x <- load (data o) i ;; store (Some p) i x).

(** [Array& operator=(const Array& other)], returning the address of
    [*this].  Past the guard the function runs off its end without a
    [return], which is undefined. *)
Definition copy_assign (this other : positive) : M positive :=
  if decide (this = other) then ret this
  else
    a <- get_obj this ;;
    delete_array (data a) ;;;
    o <- get_obj other ;;
    p <- new_array (capacity o) value_init ;;
    wr_data this (Some p) ;;;
    wr_size this (size o) ;;;
    wr_capacity this (capacity o) ;;;
    for_up 0 (size o) (fun i => x <- load (data o) i ;; store (Some p) i x) ;;;
    undef.

(** [Array(Array&& other) noexcept]. *)
Definition Array_move_ctor (this other : positive) : M unit :=
  o <- get_obj other ;;
  put_obj this (mkArray (data o) (size o) (capacity o)) ;;;
  wr_data other None ;;;
  wr_size other 0 ;;;
  wr_capacity other 0.

(** [Array& operator=(Array&& other) noexcept]. *)
Definition move_assign (this other : positive) : M positive :=
  (if decide (this <> other) then
     a <- get_obj this ;;
     delete_array (data a) ;;;
     o <- get_obj other ;;
     wr_data this (data o) ;;;
     wr_size this (size o) ;;;
     wr_capacity this (capacity o) ;;;
     wr_data other None ;;;
     wr_size other 0 ;;;
     wr_capacity other 0
   else ret tt) ;;;
  ret this.

(** [T& operator[](int index)]: the reference returned is the pair of
    the buffer and the index. *)
Definition subscript (this : positive) (index : Z)
  : M (option positive * Z) :=
  a <- get_obj this ;;
  if (index <? 0) || (index >=? size a) then throw IndexOutOfBounds
  else ret (data a, index).

(** [const T& operator[](int index) const]. *)
Definition subscript_const (this : positive) (index : Z)
  : M (option positive * Z) :=
  a <- get_obj this ;;
  if (index <? 0) || (index >=? size a) then throw IndexOutOfBounds
  else ret (data a, index).

(** Reading and writing through a [T&] or a [T*]. *)
Definition deref (r : option positive * Z) : M T := load (fst r) (snd r).
Definition assign (r : option positive * Z) (v : T) : M unit :=
  store (fst r) (snd r) v.

Definition getSize (this : positive) : M Z :=
  a <- get_obj this ;; ret (size a).

Definition getCapacity (this : positive) : M Z :=
  a <- get_obj this ;; ret (capacity a).

(** [bool operator==(const Array& other) const], for an element type
    whose [!=] is [T_ne]. *)
Definition equal (T_ne : T -> T -> bool) (this other : positive) : M bool :=
  a <- get_obj this ;;
  o <- get_obj other ;;
  if negb (size a =? size o) then ret false
  else
    r <- search (size a)
           (fun i => x <- load (data a) i ;; y <- load (data o) i ;;
                     ret (if T_ne x y then Some false else None)) ;;
    ret (default true r).

Definition not_equal (T_ne : T -> T -> bool) (this other : positive)
  : M bool :=
  b <- equal T_ne this other ;; ret (negb b).

(** What a parameter [const T& value] is bound to: an object outside
    the free store (a temporary, a variable), which keeps its value for
    the time of the call, or a slot of a buffer, given by the reference
    that [operator[]] or [find] returns for it.  The function reads
    the value where it uses [value], not where it is called. *)
Inductive cref : Type :=
| Temp (v : T)
| Elem (r : option positive * Z).

Definition read_cref (value : cref) : M T :=
  match value with
  | Temp v => ret v
  | Elem r => deref r
  end.

(** [void push(const T& value)]: [value] is read in
    [data[size++] = value], after [ensureCapacity]. *)
Definition push (this : positive) (value : cref) : M unit :=
  a0 <- get_obj this ;;
  ensureCapacity this (Int.add (size a0) 1) ;;;
  a <- get_obj this ;;
  wr_size this (Int.add (size a) 1) ;;;
  x <- read_cref value ;;
  store (data a) (size a) x.

Definition pop (this : positive) : M T :=
  a <- get_obj this ;;
  if size a =? 0 then throw PopFromEmpty
  else
    wr_size this (Int.sub (size a) 1) ;;;
    load (data a) (Int.sub (size a) 1).

(** [void unshift(const T& value)]: [value] is read in
    [data[0] = value], after [ensureCapacity] and after the loop. *)
Definition unshift (this : positive) (value : cref) : M unit :=
  a0 <- get_obj this ;;
  ensureCapacity this (Int.add (size a0) 1) ;;;
  a <- get_obj this ;;
  for_down (size a)
    (fun i => x <- load (data a) (Int.sub i 1) ;; store (data a) i x) ;;;
  x <- read_cref value ;;
  store (data a) 0 x ;;;
  wr_size this (Int.add (size a) 1).

Definition shift (this : positive) : M T :=
  a <- get_obj this ;;
  if size a =? 0 then throw ShiftFromEmpty
  else
    value <- load (data a) 0 ;;
    for_up 1 (size a)
      (fun i => x <- load (data a) i ;; store (data a) (Int.sub i 1) x) ;;;
    wr_size this (Int.sub (size a) 1) ;;;
    ret value.

(** [T* find(Predicate pred) const]; [None] is [nullptr]. *)
Definition find (this : positive) (pred : T -> bool)
  : M (option (option positive * Z)) :=
  a <- get_obj this ;;
  search (size a)
    (fun i => x <- load (data a) i ;;
              ret (if pred x then Some (data a, i) else None)).

Definition findIndex (this : positive) (pred : T -> bool) : M Z :=
  a <- get_obj this ;;
  r <- search (size a)
         (fun i => x <- load (data a) i ;;
                   ret (if pred x then Some i else None)) ;;
  ret (default (-1) r).

(** *** What a container holds

    [repr s this xs cap]: the object at [this] is a container of
    capacity [cap] whose elements are [xs], in this order.  Its buffer
    is live and has [cap] slots, the first [length xs] of which are
    [xs]; or it has no buffer, no elements and no capacity (the state a
    move leaves behind). *)
Definition repr (s : state) (this : positive) (xs : list T) (cap : Z)
  : Prop :=
  exists a,
    objs s !! this = Some a /\
    size a = Z.of_nat (length xs) /\
    capacity a = cap /\
    cap <= Int.max_int /\
    ((exists l buf, data a = Some l /\ bufs s !! l = Some buf /\
                    Z.of_nat (length buf) = cap /\
                    take (length xs) buf = xs)
     \/ (data a = None /\ cap = 0 /\ xs = [])).

(** [push] with each argument of a list, first to last. *)
Fixpoint push_all (this : positive) (values : list cref) : M unit :=
  match values with
  | [] => ret tt
  | c :: cs => push this c ;;; push_all this cs
  end.

(** What the interface shows of a container: [getSize()],
    [getCapacity()] and the elements read with [operator[]]. *)
Fixpoint read_from (this : positive) (n : nat) (i : Z) : M (list T) :=
  match n with
  | O => ret []
  | S n' =>
      r <- subscript_const this i ;;
      x <- deref r ;;
      xs <- read_from this n' (i + 1) ;;
      ret (x :: xs)
  end.

Definition snapshot (this : positive) : M (Z * Z * list T) :=
  n <- getSize this ;;
  c <- getCapacity this ;;
  xs <- read_from this (Z.to_nat n) 0 ;;
  ret (n, c, xs).

Definition result {A} (o : outcome state A) : option A :=
  match o with Ret a _ => Some a | _ => None end.

End WithT.

Arguments Array : clear implicits.
Arguments state : clear implicits.
Arguments M : clear implicits.
Arguments cref : clear implicits.
Arguments Temp {T} v.
Arguments Elem {T} r.

Notation "x <- m ;; k" := (bind m (fun x => k))
  (at level 100, m at level 99, k at level 200, right associativity).
Notation "m ;;; k" := (bind m (fun _ => k))
  (at level 100, k at level 200, right associativity).

(** ** The driver, [main.cpp]: an [Array<int>]

    [int()] is [0]; what [new int[n]] leaves in a slot is the parameter
    [garbage]. *)

Section Driver.

Variable garbage : Z.

(** [void printArray(const Array<int>& arr)]. *)
Definition printArray (arr : positive) : M Z unit :=
  n <- getSize arr ;;
  for_up 0 n
    (fun i => r <- subscript_const arr i ;; x <- deref r ;;
              print [Num x; Str tab]) ;;;
  print [Str newline].

(** The address of the local variable [arr] of [main]. *)
Definition arr : positive := 1%positive.

Definition main : M Z Z :=
  Array_ctor 0 arr 5 ;;;
  n <- getSize arr ;;
  print [Str "Initial size: "; Num n; Str newline] ;;;
  c <- getCapacity arr ;;
  print [Str "Initial capacity: "; Num c; Str newline] ;;;
  push garbage arr (Temp 1) ;;;
  push garbage arr (Temp 2) ;;;
  push garbage arr (Temp 3) ;;;
  n <- getSize arr ;;
  print [Str "Size after adding 3 elements: "; Num n; Str newline] ;;;
  c <- getCapacity arr ;;
  print [Str "Capacity after adding 3 elements: "; Num c; Str newline] ;;;
  push garbage arr (Temp 4) ;;;
  push garbage arr (Temp 5) ;;;
  push garbage arr (Temp 6) ;;;
  n <- getSize arr ;;
  print [Str "Size after adding 6 elements: "; Num n; Str newline] ;;;
  c <- getCapacity arr ;;
  print [Str "Capacity after expansion: "; Num c; Str newline] ;;;
  push garbage arr (Temp 1) ;;;
  push garbage arr (Temp 2) ;;;
  push garbage arr (Temp 3) ;;;
  unshift garbage arr (Temp 0) ;;;
  printArray arr ;;;
  _ <- pop arr ;;
  _ <- shift arr ;;
  printArray arr ;;;
  index <- findIndex arr (fun x => x =? 2) ;;
  print [Str "Index of 2: "; Num index; Str newline] ;;;
  found <- find arr (fun x => x >? 3) ;;
  match found with
  | Some r => x <- deref r ;; print [Str "Found: "; Num x; Str newline]
  | None => ret tt
  end ;;;
  Array_dtor arr ;;;
  ret 0.

(** The steps of [main] with, in place of the printing, what the
    interface shows after each group of calls, what [pop] and [shift]
    return, and what [find] points to. *)
Definition scenario
  : M Z ((Z * Z * list Z) * (Z * Z * list Z) * (Z * Z * list Z) *
         (Z * Z * list Z) * (Z * Z * (Z * Z * list Z)) * Z * option Z) :=
  Array_ctor 0 arr 5 ;;;
  push garbage arr (Temp 1) ;;;
  push garbage arr (Temp 2) ;;;
  push garbage arr (Temp 3) ;;;
  v1 <- snapshot arr ;;
  push garbage arr (Temp 4) ;;;
  push garbage arr (Temp 5) ;;;
  push garbage arr (Temp 6) ;;;
  v2 <- snapshot arr ;;
  push garbage arr (Temp 1) ;;;
  push garbage arr (Temp 2) ;;;
  push garbage arr (Temp 3) ;;;
  v3 <- snapshot arr ;;
  unshift garbage arr (Temp 0) ;;;
  v4 <- snapshot arr ;;
  popped <- pop arr ;;
  shifted <- shift arr ;;
  v5 <- snapshot arr ;;
  index <- findIndex arr (fun x => x =? 2) ;;
  found <- find arr (fun x => x >? 3) ;;
  target <- match found with
            | Some r => x <- deref r ;; ret (Some x)
            | None => ret None
            end ;;
  ret (v1, v2, v3, v4, (popped, shifted, v5), index, target).

End Driver.

(** The state in which [main] starts: no object, no buffer, nothing
    written. *)
Definition start : state Z := mkState ∅ ∅ [].

(** What [main] writes. *)
Definition main_output : list token :=
  [Str "Initial size: "; Num 0; Str newline;
   Str "Initial capacity: "; Num 5; Str newline;
   Str "Size after adding 3 elements: "; Num 3; Str newline;
   Str "Capacity after adding 3 elements: "; Num 5; Str newline;
   Str "Size after adding 6 elements: "; Num 6; Str newline;
   Str "Capacity after expansion: "; Num 10; Str newline;
   Num 0; Str tab; Num 1; Str tab; Num 2; Str tab; Num 3; Str tab;
   Num 4; Str tab; Num 5; Str tab; Num 6; Str tab; Num 1; Str tab;
   Num 2; Str tab; Num 3; Str tab; Str newline;
   Num 1; Str tab; Num 2; Str tab; Num 3; Str tab; Num 4; Str tab;
   Num 5; Str tab; Num 6; Str tab; Num 1; Str tab; Num 2; Str tab;
   Str newline;
   Str "Index of 2: "; Num 1; Str newline;
   Str "Found: "; Num 4; Str newline].

(** ** Some states of an [Array<int>] at [arr] *)

(** One element, 5, in one slot. *)
Definition small : state Z :=
  mkState {[arr := mkArray (Some 1%positive) 1 1]} {[1%positive := [5]]} [].

(** No element in five slots, as [Array<int> arr(5)] leaves it. *)
Definition empty5 : state Z :=
  mkState {[arr := mkArray (Some 1%positive) 0 5]}
          {[1%positive := [0; 0; 0; 0; 0]]} [].

(** [2^30] elements, all 0, in [2^30] slots: the state after
    [Array<int> arr(1 << 30)] and [2^30] calls of [arr.push(0)]. *)
Definition full : state Z :=
  mkState {[arr := mkArray (Some 1%positive) (2 ^ 30) (2 ^ 30)]}
          {[1%positive := replicate (Z.to_nat (2 ^ 30)) 0]} [].

(** Two containers: 5 in one slot at [arr], and 7, 8 in three slots
    at [arr2]. *)
Definition arr2 : positive := 2%positive.

Definition two : state Z :=
  mkState {[arr := mkArray (Some 1%positive) 1 1;
            arr2 := mkArray (Some 2%positive) 2 3]}
          {[1%positive := [5]; 2%positive := [7; 8; 0]]} [].

(** 10, 20 in five slots. *)
Definition roomy : state Z :=
  mkState {[arr := mkArray (Some 1%positive) 2 5]}
          {[1%positive := [10; 20; 0; 0; 0]]} [].

(** [x != y] on [int]. *)
Definition int_ne (x y : Z) : bool := negb (x =? y).

(** The capacity after [push] or [unshift] on a container of capacity
    [cap] with [n <= cap] elements, while [2 * cap] is an [int]: the
    same when there is room, else twice as much, or 1 from 0. *)
Definition pushed_capacity (cap n : Z) : Z :=
  if n <? cap then cap else if cap >? 0 then 2 * cap else 1.

(** What the capacity is after [n] calls of [push] on a container
    constructed with capacity [C]: [C] itself before the first call,
    then the smallest [max(C, 1) * 2^k] that is at least [n]. *)
Definition growth_inv (C n cap : Z) : Prop :=
  (n = 0 /\ cap = C) \/ (1 <= n /\ least_scaled (Z.max C 1) n cap).

(** ** Ownership of the buffer

    [owns s this xs cap F]: the object at [this] is a container of
    capacity [cap] with the elements [xs], and the free store is [F]
    together with the buffer of that container (when it has one): [F]
    is what belongs to everybody else. *)
Definition owns {T} (s : state T) (this : positive) (xs : list T) (cap : Z)
  (F : gmap positive (list T)) : Prop :=
  exists a,
    objs s !! this = Some a /\
    size a = Z.of_nat (length xs) /\
    capacity a = cap /\
    cap <= Int.max_int /\
    ((exists l buf, data a = Some l /\ F !! l = None /\
                    bufs s = <[l := buf]> F /\
                    Z.of_nat (length buf) = cap /\
                    take (length xs) buf = xs)
     \/ (data a = None /\ bufs s = F /\ cap = 0 /\ xs = [])).

(** The free store without the buffer of the object at [this]. *)
Definition others {T} (s : state T) (this : positive)
  : gmap positive (list T) :=
  match objs s !! this with
  | Some a =>
      match data a with
      | Some l => delete l (bufs s)
      | None => bufs s
      end
  | None => bufs s
  end.

(** What a reference designates in the free store [F]: the value of a
    temporary, or the content of a slot of a buffer of [F]. *)
Definition cref_in {T} (F : gmap positive (list T)) (value : cref T)
  : option T :=
  match value with
  | Temp v => Some v
  | Elem r =>
      match fst r with
      | Some l =>
          match F !! l with
          | Some buf => if snd r <? 0 then None else buf !! Z.to_nat (snd r)
          | None => None
          end
      | None => None
      end
  end.

(** What a reference designates in a state.  For an argument of a call
    on the container at [this], [cref_in (others s this)] is the same
    with the buffer of that container left out: the value of an
    argument that is not an element of the container itself. *)
Definition cref_value {T} (s : state T) (value : cref T) : option T :=
  cref_in (bufs s) value.

(** Two containers that do not share a buffer. *)
Definition separate {T} (s : state T) (this other : positive) : Prop :=
  this <> other /\
  forall a o l, objs s !! this = Some a -> objs s !! other = Some o ->
                data a = Some l -> data o <> Some l.

(** The statements of the copy assignment after its guard (lines 74
    to 79 of [array.h]), without the end of the function. *)
Definition copy_assign_statements {T} (value_init : T)
  (this other : positive) : M T unit :=
  a <- get_obj this ;;
  delete_array (data a) ;;;
  o <- get_obj other ;;
  p <- new_array (capacity o) value_init ;;
  wr_data this (Some p) ;;;
  wr_size this (size o) ;;;
  wr_capacity this (capacity o) ;;;
  for_up 0 (size o) (fun i => x <- load (data o) i ;; store (Some p) i x).

(** ** Uses of the interface *)

(** A call of one of the four functions that add or remove an
    element, with its argument. *)
Inductive op (T : Type) : Type :=
| Push (value : cref T)
| Unshift (value : cref T)
| Pop
| Shift.

Arguments Push {T} value.
Arguments Unshift {T} value.
Arguments Pop {T}.
Arguments Shift {T}.

Definition run_op {T} (default_init : T) (this : positive) (o : op T)
  : M T unit :=
  match o with
  | Push c => push default_init this c
  | Unshift c => unshift default_init this c
  | Pop => _ <- pop this ;; ret tt
  | Shift => _ <- shift this ;; ret tt
  end.

(** The calls of a list, first to last; an exception ends the run. *)
Fixpoint run_ops {T} (default_init : T) (this : positive) (os : list (op T))
  : M T unit :=
  match os with
  | [] => ret tt
  | o :: os' => run_op default_init this o ;;; run_ops default_init this os'
  end.

(** The same calls on a list of elements, the arguments designating
    what [val] says; [None] where the code throws (and where an
    argument designates nothing). *)
Definition apply_op {T} (val : cref T -> option T) (xs : list T) (o : op T)
  : option (list T) :=
  match o with
  | Push c => match val c with Some v => Some (xs ++ [v]) | None => None end
  | Unshift c => match val c with Some v => Some (v :: xs) | None => None end
  | Pop => match xs with [] => None | _ :: _ => Some (removelast xs) end
  | Shift => match xs with [] => None | _ :: xs' => Some xs' end
  end.

Fixpoint apply_ops {T} (val : cref T -> option T) (xs : list T)
  (os : list (op T)) : option (list T) :=
  match os with
  | [] => Some xs
  | o :: os' =>
      match apply_op val xs o with
      | Some ys => apply_ops val ys os'
      | None => None
      end
  end.

(** Every argument of the calls designates a value. *)
Definition args_in {T} (val : cref T -> option T) (os : list (op T)) : bool :=
  forallb (fun o => match o with
                    | Push c | Unshift c =>
                        match val c with Some _ => true | None => false end
                    | Pop | Shift => true
                    end) os.

(** No [push] or [unshift] of the calls takes the length of the list
    beyond [bound]. *)
Fixpoint fits {T} (val : cref T -> option T) (bound : Z) (xs : list T)
  (os : list (op T)) : bool :=
  match os with
  | [] => true
  | o :: os' =>
      match apply_op val xs o with
      | Some ys =>
          match o with
          | Push _ | Unshift _ => Z.of_nat (length ys) <=? bound
          | Pop | Shift => true
          end && fits val bound ys os'
      | None => true
      end
  end.

(** [arr[index] = value;] *)
Definition subscript_assign {T} (this : positive) (index : Z) (value : T)
  : M T unit :=
  r <- subscript this index ;; assign r value.

(** [n] calls of [pop], collecting what they return. *)
Fixpoint pop_n {T} (this : positive) (n : nat) : M T (list T) :=
  match n with
  | O => ret []
  | S n' => x <- pop this ;; xs <- pop_n this n' ;; ret (x :: xs)
  end.

(** [n] calls of [shift], collecting what they return. *)
Fixpoint shift_n {T} (this : positive) (n : nat) : M T (list T) :=
  match n with
  | O => ret []
  | S n' => x <- shift this ;; xs <- shift_n this n' ;; ret (x :: xs)
  end.

(** The position, counted from [i], of the first element of [xs] that
    satisfies [pred]. *)
Fixpoint first_match {T} (pred : T -> bool) (xs : list T) (i : Z)
  : option Z :=
  match xs with
  | [] => None
  | x :: xs' => if pred x then Some i else first_match pred xs' (i + 1)
  end.

(** What [printArray] writes for the elements [xs]. *)
Definition row (xs : list Z) : list token :=
  flat_map (fun x => [Num x; Str tab]) xs ++ [Str newline].

(** ** Tactics for the states above *)

(** [repr] of a state given by its object, the address of its buffer
    and the buffer. *)
Ltac repr_at a l buf :=
  exists a;
  split; [reflexivity|]; split; [reflexivity|]; split; [reflexivity|];
  split; [unfold Int.max_int; lia|];
  left; exists l, buf; repeat split.

(** [separate] of two objects of a state given in full. *)
Ltac separate_at :=
  split; [discriminate|];
  let Ha := fresh in let Ho := fresh in
  let Hd := fresh in let Hd' := fresh in
  intros ? ? ? Ha Ho Hd Hd';
  vm_compute in Ha, Ho; injection Ha as <-; injection Ho as <-;
  simpl in Hd, Hd'; congruence.

(** * Properties *)

(** ** Arithmetic of [int] *)

Lemma wrap_small z : Int.min_int <= z <= Int.max_int -> Int.wrap z = z.
Proof.
  unfold Int.wrap, Int.modulus, Int.min_int, Int.max_int. intros H.
  rewrite Z.mod_small; lia.
Qed.

Lemma wrap_mul_wrap x y : Int.wrap (Int.wrap x * y) = Int.wrap (x * y).
Proof.
  unfold Int.wrap, Int.modulus. f_equal.
  replace ((x + 2 ^ 31) mod 2 ^ 32 - 2 ^ 31) with
    ((x + 2 ^ 31) mod 2 ^ 32 + (- 2 ^ 31)) by lia.
  rewrite Z.mul_add_distr_r.
  rewrite <- Z.add_assoc.
  rewrite <- Zplus_mod_idemp_l.
  rewrite <- Zmult_mod_idemp_l.
  rewrite Z.mod_mod by lia.
  rewrite Zmult_mod_idemp_l.
  rewrite Zplus_mod_idemp_l.
  f_equal. lia.
Qed.

Lemma doubled_S k c : doubled (S k) c = Int.mul (doubled k c) 2.
Proof.
  revert c. induction k as [|k IH]; intros c; [reflexivity|].
  change (doubled (S (S k)) c) with (doubled (S k) (Int.mul c 2)).
  rewrite IH. reflexivity.
Qed.

Lemma doubled_wrap k c : doubled (S k) c = Int.wrap (c * 2 ^ Z.of_nat (S k)).
Proof.
  induction k as [|k IH].
  - simpl. unfold Int.mul. f_equal.
  - rewrite doubled_S, IH. unfold Int.mul. rewrite wrap_mul_wrap.
    f_equal. rewrite (Nat2Z.inj_succ (S k)), Z.pow_succ_r by lia. lia.
Qed.

(** After 32 doublings every value has wrapped to [0]. *)
Lemma doubled_32 c : doubled 32 c = 0.
Proof.
  rewrite doubled_wrap. unfold Int.wrap, Int.modulus.
  change (2 ^ Z.of_nat 32) with (2 ^ 32).
  rewrite Z.add_comm, Z.mod_add by lia. reflexivity.
Qed.

(** ** The growth loop *)

Lemma grow_loop_eq fuel c m :
  grow_loop fuel c m =
  if c <? m then
    match fuel with
    | O => None
    | S fuel' => grow_loop fuel' (Int.mul c 2) m
    end
  else Some c.
Proof. destruct fuel; reflexivity. Qed.

Lemma grow_loop_split k f c m :
  grow_loop (S k + f) c m =
  match grow_loop k c m with
  | Some v => Some v
  | None => grow_loop f (doubled (S k) c) m
  end.
Proof.
  revert c. induction k as [|k IH]; intros c.
  - simpl. destruct (c <? m); reflexivity.
  - change (S (S k) + f)%nat with (S (S k + f)).
    rewrite (grow_loop_eq (S (S k + f))), (grow_loop_eq (S k)).
    destruct (c <? m); [|reflexivity].
    rewrite IH. reflexivity.
Qed.

Lemma grow_loop_zero f m : grow_loop (S f) 0 m = grow_loop 1 0 m.
Proof.
  induction f as [|f IH]; [reflexivity|].
  rewrite (grow_loop_eq (S (S f))), (grow_loop_eq 1).
  destruct (0 <? m) eqn:E; [|reflexivity].
  change (Int.mul 0 2) with 0. rewrite IH.
  rewrite (grow_loop_eq 1), E. reflexivity.
Qed.

(** [grow_fuel] iterations decide the loop: more fuel changes nothing,
    so [None] stands for a loop that never ends. *)
Lemma grow_loop_fuel_exact fuel c m :
  (grow_fuel <= fuel)%nat -> grow_loop fuel c m = grow_loop grow_fuel c m.
Proof.
  unfold grow_fuel. intros H.
  replace fuel with (S 31 + S (fuel - 33))%nat by lia.
  change 33%nat with (S 31 + 1)%nat.
  rewrite !grow_loop_split, doubled_32, grow_loop_zero. reflexivity.
Qed.

Lemma grow_loop_never c m :
  grow_loop grow_fuel c m = None -> forall fuel, grow_loop fuel c m = None.
Proof.
  intros H fuel.
  destruct (Nat.le_gt_cases grow_fuel fuel) as [Hle|Hgt].
  - rewrite grow_loop_fuel_exact; assumption.
  - destruct (grow_loop fuel c m) as [v|] eqn:E; [|reflexivity].
    exfalso. revert c H E. unfold grow_fuel in *.
    assert (Hmono : forall f c v, grow_loop f c m = Some v ->
                                  grow_loop (S f) c m = Some v).
    { induction f as [|f IH]; intros c' v' Hv.
      - simpl in *. destruct (c' <? m); congruence.
      - rewrite grow_loop_eq in Hv. rewrite grow_loop_eq.
        destruct (c' <? m); [|assumption]. apply IH. assumption. }
    assert (Hmono' : forall d f c v, grow_loop f c m = Some v ->
                                     grow_loop (d + f) c m = Some v).
    { induction d as [|d IH]; intros f c' v' Hv; [assumption|].
      apply Hmono, IH. assumption. }
    intros c H E. apply (Hmono' (33 - fuel)%nat) in E.
    replace (33 - fuel + fuel)%nat with 33%nat in E by lia. congruence.
Qed.

(** ** The growth policy over the integers *)

Lemma doubles_to_ge m c v : doubles_to m c v -> m <= v.
Proof. induction 1; assumption. Qed.

Lemma doubles_to_le m c v : doubles_to m c v -> 0 < c -> c <= v.
Proof. induction 1; intros Hc; [lia|]. assert (2 * c <= v) by (apply IHdoubles_to; lia). lia. Qed.

Lemma doubles_to_fun m c v w : doubles_to m c v -> doubles_to m c w -> v = w.
Proof.
  induction 1 as [c Hc|c v Hc Hv IH]; intros Hw.
  - inversion Hw; subst; [reflexivity|lia].
  - inversion Hw; subst; [lia|]. apply IH. assumption.
Qed.

(** Doubling a positive value reaches every bound: the policy always
    has a value, below twice the bound unless no doubling was needed. *)
Lemma doubles_to_reach m c (k : nat) :
  0 < c -> m <= c * 2 ^ Z.of_nat k ->
  exists v, doubles_to m c v /\ (v = c \/ v < 2 * m).
Proof.
  revert c. induction k as [|k IH]; intros c Hc Hm.
  - exists c. split; [|left; reflexivity].
    apply doubles_stop. simpl in Hm. lia.
  - destruct (Z_lt_le_dec c m) as [Hlt|Hge].
    + destruct (IH (2 * c)) as (v & Hv & Hb); [lia| |].
      { rewrite Nat2Z.inj_succ, Z.pow_succ_r in Hm by lia. lia. }
      exists v. split; [apply doubles_step; assumption|].
      right. destruct Hb as [->|Hb]; lia.
    + exists c. split; [apply doubles_stop; assumption|left; reflexivity].
Qed.

Lemma doubles_to_total m c :
  0 < c -> exists v, doubles_to m c v /\ (v = c \/ v < 2 * m).
Proof.
  intros Hc. apply (doubles_to_reach m c (Z.to_nat m)); [assumption|].
  destruct (Z_le_gt_dec m 0) as [Hm|Hm].
  - pose proof (Z.pow_pos_nonneg 2 (Z.of_nat (Z.to_nat m))). nia.
  - rewrite Z2Nat.id by lia.
    pose proof (Z.pow_gt_lin_r 2 m). nia.
Qed.

(** While no doubling overflows, the loop of the code follows the
    policy. *)
Lemma grow_loop_doubles m c v :
  doubles_to m c v -> 0 < c -> v <= Int.max_int ->
  forall fuel, Int.max_int < c * 2 ^ Z.of_nat fuel ->
  grow_loop fuel c m = Some v.
Proof.
  induction 1 as [c Hc|c v Hc Hv IH]; intros Hpos Hmax fuel Hfuel.
  - rewrite grow_loop_eq.
    destruct (Z.ltb_spec c m); [lia|reflexivity].
  - rewrite grow_loop_eq.
    destruct (Z.ltb_spec c m); [|lia].
    pose proof (doubles_to_le _ _ _ Hv) as Hle.
    destruct fuel as [|fuel].
    + simpl in Hfuel. lia.
    + unfold Int.mul. rewrite wrap_small.
      * replace (c * 2) with (2 * c) by lia.
        apply IH; [lia|assumption|].
        rewrite Nat2Z.inj_succ, Z.pow_succ_r in Hfuel by lia. lia.
      * unfold Int.min_int, Int.max_int in *. lia.
Qed.

Lemma grow_initial_doubles cap m v fuel :
  0 <= cap -> cap < m ->
  doubles_to m (Z.max cap 1) v -> v <= Int.max_int ->
  (31 <= fuel)%nat ->
  grow_loop fuel (initial_newCapacity cap) m = Some v.
Proof.
  intros Hcap Hlt Hv Hmax Hfuel.
  assert (Hp : 2 ^ 31 <= 2 ^ Z.of_nat fuel)
    by (apply Z.pow_le_mono_r; lia).
  unfold initial_newCapacity.
  destruct (Z.gtb_spec cap 0) as [Hpos|Hzero].
  - rewrite Z.max_l in Hv by lia.
    inversion Hv; subst; [lia|].
    pose proof (doubles_to_le _ _ _ H0).
    unfold Int.mul. rewrite wrap_small.
    + replace (cap * 2) with (2 * cap) by lia.
      apply grow_loop_doubles; [assumption|lia|assumption|].
      unfold Int.max_int. nia.
    + unfold Int.min_int, Int.max_int in *. lia.
  - rewrite Z.max_r in Hv by lia.
    apply grow_loop_doubles; [assumption|lia|assumption|].
    unfold Int.max_int. lia.
Qed.

(** From capacity [2^30] the loop never reaches [2^30 + 1]: the first
    doubling wraps to [-2^31], the second to [0], which stays. *)
Lemma grow_never_from_full fuel :
  grow_loop fuel (initial_newCapacity (2 ^ 30)) (2 ^ 30 + 1) = None.
Proof. apply grow_loop_never. vm_compute. reflexivity. Qed.

(** C4, as amended: for [0 <= capacity < minCapacity], doubling from
    [max(capacity, 1)] until the value is at least [minCapacity]
    reaches some [v]; if [v] is an [int] (it is one whenever
    [minCapacity <= 2^30]) the loop of [ensureCapacity] ends, after at
    most 31 doublings none of which overflows, with [v]. *)
Theorem C4_grow_terminates capacity minCapacity :
  0 <= capacity -> capacity < minCapacity ->
  exists v,
    doubles_to minCapacity (Z.max capacity 1) v /\
    minCapacity <= v /\
    (minCapacity <= 2 ^ 30 -> v <= Int.max_int) /\
    (v <= Int.max_int ->
     forall fuel, (31 <= fuel)%nat ->
       grow_loop fuel (initial_newCapacity capacity) minCapacity = Some v).
Proof.
  intros Hcap Hlt.
  destruct (doubles_to_total minCapacity (Z.max capacity 1)) as (v & Hv & Hb);
    [lia|].
  exists v. split; [assumption|].
  split; [eapply doubles_to_ge; eassumption|]. split.
  - intros Hmax. unfold Int.max_int. destruct Hb as [->|Hb]; lia.
  - intros Hle fuel Hfuel. apply grow_initial_doubles; assumption.
Qed.

Lemma C4_grow_terminates_witness :
  exists v,
    doubles_to 6 (Z.max 5 1) v /\
    6 <= v /\
    (6 <= 2 ^ 30 -> v <= Int.max_int) /\
    (v <= Int.max_int ->
     forall fuel, (31 <= fuel)%nat ->
       grow_loop fuel (initial_newCapacity 5) 6 = Some v).
Proof. apply (C4_grow_terminates 5 6); lia. Defined.

(** The claim C4 fails where the doubled value is no [int]: with
    capacity [2^30] and minCapacity [2^30 + 1] (what [push] asks for on
    a full container of [2^30] elements) doubling reaches [2^31] over
    the integers, and no number of iterations ends the loop of the
    code. *)
Lemma C4_counterexample :
  0 <= 2 ^ 30 /\ 2 ^ 30 < 2 ^ 30 + 1 <= Int.max_int /\
  doubles_to (2 ^ 30 + 1) (Z.max (2 ^ 30) 1) (2 ^ 31) /\
  forall fuel,
    grow_loop fuel (initial_newCapacity (2 ^ 30)) (2 ^ 30 + 1) = None.
Proof.
  split; [lia|]. split; [unfold Int.max_int; lia|]. split.
  - change (Z.max (2 ^ 30) 1) with (2 ^ 30).
    apply doubles_step; [lia|]. apply doubles_stop. lia.
  - apply grow_never_from_full.
Qed.

(** ** The smallest scaled value *)

Lemma least_scaled_unique c n v w :
  least_scaled c n v -> least_scaled c n w -> v = w.
Proof.
  intros ((kv & Hkv) & Hv & Hminv) ((kw & Hkw) & Hw & Hminw).
  assert (v <= w) by (rewrite Hkw; apply Hminv; rewrite <- Hkw; assumption).
  assert (w <= v) by (rewrite Hkv; apply Hminw; rewrite <- Hkv; assumption).
  lia.
Qed.

Lemma least_exponent c n (K : nat) :
  0 < c -> n <= c * 2 ^ Z.of_nat K ->
  exists k : nat,
    n <= c * 2 ^ Z.of_nat k /\
    forall j : nat, n <= c * 2 ^ Z.of_nat j -> (k <= j)%nat.
Proof.
  intros Hc. induction K as [|K IH]; intros HK.
  - exists 0%nat. split; [assumption|]. intros j _. lia.
  - destruct (Z_le_gt_dec n (c * 2 ^ Z.of_nat K)) as [Hle|Hgt].
    + apply IH. assumption.
    + exists (S K). split; [assumption|]. intros j Hj.
      destruct (Nat.le_gt_cases (S K) j) as [|Hlt]; [assumption|].
      assert (Hp : 2 ^ Z.of_nat j <= 2 ^ Z.of_nat K)
        by (apply Z.pow_le_mono_r; lia).
      nia.
Qed.

(** Every length has its smallest scaled value, and up to [2^30] that
    value is an [int] when the scale is one. *)
Lemma least_scaled_exists c n :
  0 < c ->
  exists v, least_scaled c n v /\
            (c <= Int.max_int -> n <= 2 ^ 30 -> v <= Int.max_int).
Proof.
  intros Hc.
  destruct (least_exponent c n (Z.to_nat n) Hc) as (k & Hk & Hmin).
  { destruct (Z_le_gt_dec n 0) as [Hn|Hn].
    - pose proof (Z.pow_pos_nonneg 2 (Z.of_nat (Z.to_nat n))). nia.
    - rewrite Z2Nat.id by lia. pose proof (Z.pow_gt_lin_r 2 n). nia. }
  exists (c * 2 ^ Z.of_nat k). split.
  - split; [exists k; reflexivity|]. split; [assumption|].
    intros j Hj. specialize (Hmin j Hj).
    assert (Hp : 2 ^ Z.of_nat k <= 2 ^ Z.of_nat j)
      by (apply Z.pow_le_mono_r; lia).
    nia.
  - intros Hmax Hn. destruct k as [|k].
    + simpl. lia.
    + destruct (Z_le_gt_dec n (c * 2 ^ Z.of_nat k)) as [Hle|Hgt].
      * specialize (Hmin k Hle). lia.
      * rewrite Nat2Z.inj_succ, Z.pow_succ_r by lia.
        unfold Int.max_int in *. lia.
Qed.

(** ** Running the primitives *)

Section Runs.

Context {T : Type}.
Variable value_init : T.
Variable default_init : T.

Implicit Types (s : state T) (a : Array) (this l : positive)
  (xs buf : list T) (cap : Z).

Lemma bind_run {A B} (m : M T A) (k : A -> M T B) s x s' :
  m s = Ret x s' -> bind m k s = k x s'.
Proof. unfold bind. intros ->. reflexivity. Qed.

Lemma get_obj_run s this a :
  objs s !! this = Some a -> get_obj this s = Ret a s.
Proof. unfold get_obj. intros ->. reflexivity. Qed.

Lemma set_buf_id s l buf : bufs s !! l = Some buf -> set_buf s l buf = s.
Proof.
  intros H. destruct s as [o b w]. unfold set_buf. simpl in *.
  rewrite insert_id by assumption. reflexivity.
Qed.

Lemma set_buf_twice s l buf buf' :
  set_buf (set_buf s l buf) l buf' = set_buf s l buf'.
Proof. unfold set_buf. simpl. rewrite insert_insert_eq. reflexivity. Qed.

Lemma bufs_set_buf s l buf : bufs (set_buf s l buf) !! l = Some buf.
Proof. unfold set_buf. simpl. apply lookup_insert_eq. Qed.

Lemma bufs_set_buf_ne s l l' buf :
  l <> l' -> bufs (set_buf s l buf) !! l' = bufs s !! l'.
Proof. intros H. unfold set_buf. simpl. apply lookup_insert_ne. assumption. Qed.

Lemma load_run s l buf (i : nat) x :
  bufs s !! l = Some buf -> buf !! i = Some x ->
  load (Some l) (Z.of_nat i) s = Ret x s.
Proof.
  intros Hl Hx. unfold load, slot. rewrite Hl.
  destruct (Z.ltb_spec (Z.of_nat i) 0); [lia|].
  rewrite Nat2Z.id, Hx. reflexivity.
Qed.

Lemma store_run s l buf (i : nat) v :
  bufs s !! l = Some buf -> (i < length buf)%nat ->
  store (Some l) (Z.of_nat i) v s = Ret tt (set_buf s l (<[i := v]> buf)).
Proof.
  intros Hl Hi. unfold store. rewrite Hl.
  destruct (Z.leb_spec 0 (Z.of_nat i)); [|lia].
  destruct (Z.ltb_spec (Z.of_nat i) (Z.of_nat (length buf))); [|lia].
  simpl. rewrite Nat2Z.id. reflexivity.
Qed.

Lemma wr_size_run s this a n :
  objs s !! this = Some a ->
  wr_size this n s = Ret tt (set_obj s this (mkArray (data a) n (capacity a))).
Proof.
  intros H. unfold wr_size. rewrite (bind_run _ _ _ _ _ (get_obj_run _ _ _ H)).
  reflexivity.
Qed.

Lemma wr_data_run s this a p :
  objs s !! this = Some a ->
  wr_data this p s = Ret tt (set_obj s this (mkArray p (size a) (capacity a))).
Proof.
  intros H. unfold wr_data. rewrite (bind_run _ _ _ _ _ (get_obj_run _ _ _ H)).
  reflexivity.
Qed.

Lemma wr_capacity_run s this a n :
  objs s !! this = Some a ->
  wr_capacity this n s = Ret tt (set_obj s this (mkArray (data a) (size a) n)).
Proof.
  intros H. unfold wr_capacity.
  rewrite (bind_run _ _ _ _ _ (get_obj_run _ _ _ H)). reflexivity.
Qed.

(** *** The loops over a buffer *)

(** A prefix of a buffer is a given list when the slots agree. *)
Lemma take_eq_lookup xs buf :
  (length xs <= length buf)%nat ->
  (forall j, (j < length xs)%nat -> buf !! j = xs !! j) ->
  take (length xs) buf = xs.
Proof.
  intros Hlen H. apply list_eq. intros j.
  destruct (Nat.lt_ge_cases j (length xs)) as [Hj|Hj].
  - rewrite lookup_take_lt by assumption. apply H. assumption.
  - rewrite lookup_take_ge by assumption.
    symmetry. apply lookup_ge_None. assumption.
Qed.

Lemma lookup_of_take xs buf j :
  take (length xs) buf = xs -> (j < length xs)%nat -> buf !! j = xs !! j.
Proof.
  intros H Hj. rewrite <- (lookup_take_lt buf (length xs) j Hj), H.
  reflexivity.
Qed.

Lemma length_of_take xs buf :
  take (length xs) buf = xs -> (length xs <= length buf)%nat.
Proof.
  intros H. pose proof (f_equal length H) as E.
  rewrite length_take in E. lia.
Qed.

(** [for (i = ...; i < ...; ++i) dst[i] = src[i];] between two
    buffers. *)
Lemma copy_loop_run k : forall (i : nat) s src dst b d,
  src <> dst ->
  bufs s !! src = Some b -> bufs s !! dst = Some d ->
  (i + k <= length b)%nat -> (i + k <= length d)%nat ->
  exists d',
    for_up_from k (Z.of_nat i)
      (fun j => x <- load (Some src) j ;; store (Some dst) j x) s
    = Ret tt (set_buf s dst d') /\
    length d' = length d /\
    forall j, d' !! j =
              if decide (i <= j < i + k)%nat then b !! j else d !! j.
Proof.
  induction k as [|k IH]; intros i s src dst b d Hne Hb Hd Hkb Hkd.
  - exists d. simpl. unfold ret. rewrite set_buf_id by assumption.
    split; [reflexivity|]. split; [reflexivity|].
    intros j. destruct (decide _); [lia|reflexivity].
  - destruct (lookup_lt_is_Some_2 b i) as [x Hx]; [lia|].
    simpl for_up_from.
    rewrite (bind_run _ _ s tt (set_buf s dst (<[i := x]> d))).
    2:{ rewrite (bind_run _ _ _ _ _ (load_run _ _ _ _ _ Hb Hx)).
        apply store_run; [assumption|lia]. }
    replace (Z.of_nat i + 1) with (Z.of_nat (S i)) by lia.
    destruct (IH (S i) (set_buf s dst (<[i := x]> d)) src dst b (<[i := x]> d))
      as (d' & Hrun & Hlen & Hd');
      [assumption| | | | |].
    + rewrite bufs_set_buf_ne by congruence. assumption.
    + apply bufs_set_buf.
    + lia.
    + rewrite length_insert. lia.
    + exists d'. rewrite Hrun, set_buf_twice.
      split; [reflexivity|]. split; [rewrite Hlen; apply length_insert|].
      intros j. rewrite Hd'.
      destruct (decide (S i <= j < S i + k)%nat);
        destruct (decide (i <= j < i + S k)%nat); try lia; try reflexivity.
      * destruct (decide (i = j)) as [->|Hij].
        -- rewrite list_lookup_insert_eq by lia. symmetry. assumption.
        -- lia.
      * apply list_lookup_insert_ne. lia.
Qed.

Lemma sub_1_nat (i : nat) :
  (1 <= i)%nat -> Z.of_nat i <= Int.max_int ->
  Int.sub (Z.of_nat i) 1 = Z.of_nat (i - 1).
Proof.
  intros H1 H2. unfold Int.sub. rewrite wrap_small.
  - lia.
  - unfold Int.min_int, Int.max_int in *. lia.
Qed.

Lemma add_1_nat (i : nat) :
  Z.of_nat i < Int.max_int -> Int.add (Z.of_nat i) 1 = Z.of_nat (S i).
Proof.
  intros H. unfold Int.add. rewrite wrap_small.
  - lia.
  - unfold Int.min_int, Int.max_int in *. lia.
Qed.

(** [for (i = size; i > 0; --i) data[i] = data[i - 1];] moves the
    first [k] slots one place to the right. *)
Lemma shift_right_run k : forall s l b,
  bufs s !! l = Some b -> (k < length b)%nat -> Z.of_nat k <= Int.max_int ->
  exists b',
    for_down_from k (Z.of_nat k)
      (fun j => x <- load (Some l) (Int.sub j 1) ;; store (Some l) j x) s
    = Ret tt (set_buf s l b') /\
    length b' = length b /\
    forall j, b' !! j =
              if decide (1 <= j <= k)%nat then b !! (j - 1)%nat else b !! j.
Proof.
  induction k as [|k IH]; intros s l b Hb Hk Hmax.
  - exists b. simpl. unfold ret. rewrite set_buf_id by assumption.
    split; [reflexivity|]. split; [reflexivity|].
    intros j. destruct (decide _); [lia|reflexivity].
  - destruct (lookup_lt_is_Some_2 b k) as [x Hx]; [lia|].
    simpl for_down_from.
    rewrite (bind_run _ _ s tt (set_buf s l (<[S k := x]> b))).
    2:{ rewrite sub_1_nat by lia.
        replace (S k - 1)%nat with k by lia.
        rewrite (bind_run _ _ _ _ _ (load_run _ _ _ _ _ Hb Hx)).
        apply store_run; assumption. }
    replace (Z.of_nat (S k) - 1) with (Z.of_nat k) by lia.
    destruct (IH (set_buf s l (<[S k := x]> b)) l (<[S k := x]> b))
      as (b' & Hrun & Hlen & Hb'); [apply bufs_set_buf| | |].
    + rewrite length_insert. lia.
    + lia.
    + exists b'. rewrite Hrun, set_buf_twice.
      split; [reflexivity|]. split; [rewrite Hlen; apply length_insert|].
      intros j. rewrite Hb'.
      destruct (decide (1 <= j <= k)%nat);
        destruct (decide (1 <= j <= S k)%nat); try lia.
      * apply list_lookup_insert_ne. lia.
      * assert (j = S k) as -> by lia.
        rewrite list_lookup_insert_eq by lia.
        replace (S k - 1)%nat with k by lia. symmetry. assumption.
      * apply list_lookup_insert_ne. lia.
Qed.

(** [for (i = 1; i < size; ++i) data[i - 1] = data[i];] moves the
    slots from [i] on one place to the left. *)
Lemma shift_left_run k : forall (i : nat) s l b,
  bufs s !! l = Some b -> (1 <= i)%nat -> (i + k <= length b)%nat ->
  Z.of_nat (i + k) <= Int.max_int ->
  exists b',
    for_up_from k (Z.of_nat i)
      (fun j => x <- load (Some l) j ;; store (Some l) (Int.sub j 1) x) s
    = Ret tt (set_buf s l b') /\
    length b' = length b /\
    forall j, b' !! j =
              if decide (i - 1 <= j < i - 1 + k)%nat then b !! (S j)
              else b !! j.
Proof.
  induction k as [|k IH]; intros i s l b Hb Hi Hk Hmax.
  - exists b. simpl. unfold ret. rewrite set_buf_id by assumption.
    split; [reflexivity|]. split; [reflexivity|].
    intros j. destruct (decide _); [lia|reflexivity].
  - destruct (lookup_lt_is_Some_2 b i) as [x Hx]; [lia|].
    simpl for_up_from.
    rewrite (bind_run _ _ s tt (set_buf s l (<[(i - 1)%nat := x]> b))).
    2:{ rewrite (bind_run _ _ _ _ _ (load_run _ _ _ _ _ Hb Hx)).
        rewrite sub_1_nat by lia.
        apply store_run; [assumption|lia]. }
    replace (Z.of_nat i + 1) with (Z.of_nat (S i)) by lia.
    destruct (IH (S i) (set_buf s l (<[(i - 1)%nat := x]> b)) l
                 (<[(i - 1)%nat := x]> b))
      as (b' & Hrun & Hlen & Hb'); [apply bufs_set_buf| | | |].
    + lia.
    + rewrite length_insert. lia.
    + lia.
    + exists b'. rewrite Hrun, set_buf_twice.
      split; [reflexivity|]. split; [rewrite Hlen; apply length_insert|].
      intros j. rewrite Hb'.
      destruct (decide (S i - 1 <= j < S i - 1 + k)%nat);
        destruct (decide (i - 1 <= j < i - 1 + S k)%nat); try lia.
      * apply list_lookup_insert_ne. lia.
      * assert (j = (i - 1)%nat) as -> by lia.
        rewrite list_lookup_insert_eq by lia.
        replace (S (i - 1)) with i by lia. symmetry. assumption.
      * apply list_lookup_insert_ne. lia.
Qed.

(** *** Allocation *)

Lemma new_array_run s n init :
  0 <= n ->
  exists l,
    bufs s !! l = None /\
    new_array n init s = Ret l (set_buf s l (replicate (Z.to_nat n) init)).
Proof.
  intros Hn. exists (fresh (dom (bufs s))). split.
  - apply not_elem_of_dom. apply is_fresh.
  - unfold new_array. destruct (Z.ltb_spec n 0); [lia|]. reflexivity.
Qed.

Lemma delete_array_run s l buf :
  bufs s !! l = Some buf ->
  delete_array (Some l) s =
  Ret tt (mkState (objs s) (delete l (bufs s)) (out s)).
Proof. intros H. unfold delete_array. rewrite H. reflexivity. Qed.

(** ** [ensureCapacity] *)

Lemma repr_bounds s this xs cap :
  repr s this xs cap -> Z.of_nat (length xs) <= cap <= Int.max_int.
Proof.
  intros (a & _ & _ & _ & Hmax & [(l & buf & _ & _ & Hlen & Htake)|(_ & -> & ->)]).
  - pose proof (length_of_take _ _ Htake). lia.
  - simpl. unfold Int.max_int in *. lia.
Qed.

Lemma ensureCapacity_noop s this a minCapacity :
  objs s !! this = Some a -> minCapacity <= capacity a ->
  ensureCapacity default_init this minCapacity s = Ret tt s.
Proof.
  intros Ha Hle. unfold ensureCapacity.
  rewrite (bind_run _ _ _ _ _ (get_obj_run _ _ _ Ha)).
  destruct (Z.geb_spec (capacity a) minCapacity); [reflexivity|lia].
Qed.

Lemma ensureCapacity_diverges s this a minCapacity :
  objs s !! this = Some a -> capacity a < minCapacity ->
  grow_loop grow_fuel (initial_newCapacity (capacity a)) minCapacity = None ->
  ensureCapacity default_init this minCapacity s = Diverge.
Proof.
  intros Ha Hlt Hgrow. unfold ensureCapacity.
  rewrite (bind_run _ _ _ _ _ (get_obj_run _ _ _ Ha)).
  destruct (Z.geb_spec (capacity a) minCapacity); [lia|].
  rewrite Hgrow. reflexivity.
Qed.

Lemma ensureCapacity_grow s this xs cap minCapacity v :
  repr s this xs cap -> cap < minCapacity ->
  grow_loop grow_fuel (initial_newCapacity cap) minCapacity = Some v ->
  minCapacity <= v <= Int.max_int ->
  exists s',
    ensureCapacity default_init this minCapacity s = Ret tt s' /\
    repr s' this xs v /\ out s' = out s.
Proof.
  intros Hrepr Hlt Hgrow Hv.
  pose proof (repr_bounds _ _ _ _ Hrepr) as Hb.
  destruct Hrepr as (a & Ha & Hsize & Hcap & Hmax & Hbuf).
  unfold ensureCapacity.
  rewrite (bind_run _ _ _ _ _ (get_obj_run _ _ _ Ha)).
  destruct (Z.geb_spec (capacity a) minCapacity); [lia|].
  rewrite Hcap, Hgrow.
  destruct (new_array_run s v default_init) as (l' & Hfresh & Hnew); [lia|].
  rewrite (bind_run _ _ _ _ _ Hnew).
  set (s1 := set_buf s l' (replicate (Z.to_nat v) default_init)).
  unfold for_up. rewrite Hsize, Z.sub_0_r, Nat2Z.id.
  destruct Hbuf as [(l & buf & Hd & Hl & Hlen & Htake)|(Hd & Hc0 & Hxs)].
  - assert (Hne : l <> l') by congruence.
    destruct (copy_loop_run (length xs) 0%nat s1 l l' buf
                (replicate (Z.to_nat v) default_init))
      as (d' & Hrun & Hlen' & Hd'); [assumption| | | | |].
    { unfold s1. rewrite bufs_set_buf_ne by congruence. assumption. }
    { apply bufs_set_buf. }
    { pose proof (length_of_take _ _ Htake). lia. }
    { rewrite length_replicate. lia. }
    change (Z.of_nat 0) with 0 in Hrun. rewrite Hd.
    rewrite (bind_run _ _ _ _ _ Hrun).
    unfold s1. rewrite set_buf_twice.
    rewrite (bind_run _ _ _ tt
               (mkState (objs s) (delete l (<[l' := d']> (bufs s))) (out s))).
    2:{ erewrite delete_array_run; [reflexivity|].
        rewrite bufs_set_buf_ne by congruence. eassumption. }
    erewrite bind_run by (apply wr_data_run; simpl; eassumption).
    erewrite wr_capacity_run by (simpl; apply lookup_insert_eq).
    eexists. split; [reflexivity|]. split; [|reflexivity].
    exists (mkArray (Some l') (size a) v). simpl.
    split; [apply lookup_insert_eq|].
    split; [assumption|]. split; [reflexivity|]. split; [lia|].
    left. exists l', d'. split; [reflexivity|].
    split; [rewrite lookup_delete_ne by congruence; apply lookup_insert_eq|].
    split; [rewrite Hlen', length_replicate; lia|].
    apply take_eq_lookup.
    + rewrite Hlen', length_replicate. lia.
    + intros j Hj. rewrite Hd'.
      destruct (decide (0 <= j < 0 + length xs)%nat); [|lia].
      apply lookup_of_take; assumption.
  - subst xs. simpl for_up_from. rewrite Hd.
    rewrite (bind_run _ _ s1 tt s1) by reflexivity.
    rewrite (bind_run _ _ s1 tt s1) by reflexivity.
    erewrite bind_run by (apply wr_data_run; simpl; eassumption).
    erewrite wr_capacity_run by (simpl; apply lookup_insert_eq).
    eexists. split; [reflexivity|]. split; [|reflexivity].
    exists (mkArray (Some l') (size a) v). simpl.
    split; [apply lookup_insert_eq|].
    split; [assumption|]. split; [reflexivity|]. split; [lia|].
    left. exists l', (replicate (Z.to_nat v) default_init).
    split; [reflexivity|].
    split; [apply lookup_insert_eq|].
    split; [rewrite length_replicate; lia|reflexivity].
Qed.

(** [ensureCapacity(size + 1)] when there is room or the capacity can
    be doubled. *)
Lemma ensure_room s this xs cap :
  repr s this xs cap -> Z.of_nat (length xs) < cap \/ cap < 2 ^ 30 ->
  exists s',
    ensureCapacity default_init this (Z.of_nat (S (length xs))) s = Ret tt s' /\
    repr s' this xs (pushed_capacity cap (Z.of_nat (length xs))) /\
    Z.of_nat (length xs) < pushed_capacity cap (Z.of_nat (length xs)) /\
    out s' = out s.
Proof.
  intros Hrepr Hn.
  pose proof (repr_bounds _ _ _ _ Hrepr) as Hb.
  unfold pushed_capacity.
  destruct (Z.ltb_spec (Z.of_nat (length xs)) cap) as [Hroom|Hfull].
  - exists s. destruct Hrepr as (a & Ha & Hsize & Hcap & Hrest).
    split; [apply (ensureCapacity_noop _ _ _ _ Ha); lia|].
    split; [exists a; auto|]. split; [assumption|reflexivity].
  - assert (Hcap : cap = Z.of_nat (length xs)) by lia.
    set (v := if cap >? 0 then 2 * cap else 1).
    assert (Hv : doubles_to (Z.of_nat (S (length xs))) (Z.max cap 1) v).
    { unfold v. destruct (Z.gtb_spec cap 0).
      - rewrite Z.max_l by lia. apply doubles_step; [lia|].
        apply doubles_stop. lia.
      - rewrite Z.max_r by lia. apply doubles_stop. lia. }
    assert (Hv' : Z.of_nat (S (length xs)) <= v <= Int.max_int).
    { unfold v, Int.max_int. destruct (Z.gtb_spec cap 0); lia. }
    destruct (ensureCapacity_grow s this xs cap (Z.of_nat (S (length xs))) v)
      as (s' & Hrun & Hrepr' & Hout); [assumption|lia| |assumption|].
    + apply grow_initial_doubles;
        [lia|lia|assumption|lia|unfold grow_fuel; lia].
    + exists s'. split; [assumption|]. split; [assumption|].
      split; [lia|assumption].
Qed.

(** ** [push], [pop], [unshift], [shift] on a container *)

Lemma pop_spec s this xs cap v :
  repr s this (xs ++ [v]) cap ->
  exists s', pop this s = Ret v s' /\ repr s' this xs cap /\ out s' = out s.
Proof.
  intros Hrepr.
  pose proof (repr_bounds _ _ _ _ Hrepr) as Hb.
  destruct Hrepr as (a & Ha & Hsize & Hcap & Hmax & Hbuf).
  rewrite length_app in *. simpl in *.
  destruct Hbuf as [(l & buf & Hd & Hl & Hlen & Htake)|(_ & _ & Hnil)].
  2:{ destruct xs; discriminate. }
  unfold pop.
  rewrite (bind_run _ _ _ _ _ (get_obj_run _ _ _ Ha)).
  destruct (Z.eqb_spec (size a) 0); [lia|].
  rewrite Hsize, sub_1_nat by lia.
  replace (length xs + 1 - 1)%nat with (length xs) by lia.
  rewrite (bind_run _ _ _ _ _ (wr_size_run _ _ _ _ Ha)).
  rewrite Hd.
  assert (Hv : buf !! length xs = Some v).
  { rewrite <- (lookup_take_lt buf (length xs + 1)) by lia.
    rewrite Htake. rewrite lookup_app_r by lia.
    rewrite Nat.sub_diag. reflexivity. }
  erewrite load_run; [|simpl; eassumption|eassumption].
  eexists. split; [reflexivity|]. split; [|reflexivity].
  exists (mkArray (Some l) (Z.of_nat (length xs)) (capacity a)). simpl.
  split; [apply lookup_insert_eq|].
  split; [reflexivity|]. split; [assumption|]. split; [assumption|].
  left. exists l, buf.
  split; [reflexivity|]. split; [assumption|]. split; [assumption|].
  pose proof (f_equal (take (length xs)) Htake) as E.
  rewrite take_take, Nat.min_l in E by lia.
  rewrite E. apply take_app_length.
Qed.

Lemma shift_spec s this xs cap v :
  repr s this (v :: xs) cap ->
  exists s', shift this s = Ret v s' /\ repr s' this xs cap /\ out s' = out s.
Proof.
  intros Hrepr.
  pose proof (repr_bounds _ _ _ _ Hrepr) as Hb.
  destruct Hrepr as (a & Ha & Hsize & Hcap & Hmax & Hbuf).
  simpl length in *.
  destruct Hbuf as [(l & buf & Hd & Hl & Hlen & Htake)|(_ & _ & Hnil)];
    [|discriminate].
  pose proof (length_of_take (v :: xs) buf Htake) as Hle. simpl in Hle.
  unfold shift.
  rewrite (bind_run _ _ _ _ _ (get_obj_run _ _ _ Ha)).
  destruct (Z.eqb_spec (size a) 0); [lia|].
  rewrite Hd, Hsize.
  assert (Hv : buf !! 0%nat = Some v).
  { rewrite (lookup_of_take (v :: xs) buf 0 Htake); [reflexivity|simpl; lia]. }
  change 0 with (Z.of_nat 0) at 1.
  rewrite (bind_run _ _ _ _ _ (load_run _ _ _ _ _ Hl Hv)).
  unfold for_up.
  replace (Z.to_nat (Z.of_nat (S (length xs)) - 1)) with (length xs) by lia.
  destruct (shift_left_run (length xs) 1 s l buf)
    as (b' & Hloop & Hlen' & Hb'); [assumption|lia|lia|lia|].
  change (Z.of_nat 1) with 1 in Hloop.
  rewrite (bind_run _ _ _ _ _ Hloop).
  rewrite sub_1_nat by lia.
  replace (S (length xs) - 1)%nat with (length xs) by lia.
  erewrite bind_run by (apply wr_size_run; simpl; eassumption).
  rewrite Hd.
  eexists. split; [reflexivity|]. split; [|reflexivity].
  exists (mkArray (Some l) (Z.of_nat (length xs)) (capacity a)). simpl.
  split; [apply lookup_insert_eq|].
  split; [reflexivity|]. split; [assumption|]. split; [assumption|].
  left. exists l, b'.
  split; [reflexivity|]. split; [apply lookup_insert_eq|].
  split; [lia|].
  apply take_eq_lookup; [lia|].
  intros j Hj. rewrite Hb'.
  destruct (decide (1 - 1 <= j < 1 - 1 + length xs)%nat); [|lia].
  rewrite (lookup_of_take (v :: xs) buf (S j) Htake); [reflexivity|simpl; lia].
Qed.

Lemma bind_diverge {A B} (m : M T A) (k : A -> M T B) s :
  m s = Diverge -> bind m k s = Diverge.
Proof. unfold bind. intros ->. reflexivity. Qed.

Lemma pushed_capacity_ge cap n : cap <= pushed_capacity cap n.
Proof.
  unfold pushed_capacity.
  destruct (Z.ltb_spec n cap); [lia|]. destruct (Z.gtb_spec cap 0); lia.
Qed.

(** A container of [2^30] elements in [2^30] slots cannot grow. *)
Lemma push_full_diverges s this xs (c : cref T) :
  repr s this xs (2 ^ 30) -> Z.of_nat (length xs) = 2 ^ 30 ->
  push default_init this c s = Diverge.
Proof.
  intros (a & Ha & Hsize & Hcap & _) Hn. unfold push.
  rewrite (bind_run _ _ _ _ _ (get_obj_run _ _ _ Ha)).
  apply bind_diverge. rewrite Hsize, Hn.
  apply (ensureCapacity_diverges _ _ _ _ Ha).
  - rewrite Hcap. vm_compute. reflexivity.
  - rewrite Hcap. apply grow_never_from_full.
Qed.

Lemma unshift_full_diverges s this xs (c : cref T) :
  repr s this xs (2 ^ 30) -> Z.of_nat (length xs) = 2 ^ 30 ->
  unshift default_init this c s = Diverge.
Proof.
  intros (a & Ha & Hsize & Hcap & _) Hn. unfold unshift.
  rewrite (bind_run _ _ _ _ _ (get_obj_run _ _ _ Ha)).
  apply bind_diverge. rewrite Hsize, Hn.
  apply (ensureCapacity_diverges _ _ _ _ Ha).
  - rewrite Hcap. vm_compute. reflexivity.
  - rewrite Hcap. apply grow_never_from_full.
Qed.

(** ** The claims on one container *)

(** C1, as amended: when [capacity >= minCapacity],
    [ensureCapacity(minCapacity)] changes nothing.  Otherwise doubling
    from [max(capacity, 1)] until the value is at least [minCapacity]
    reaches some [v], and if [v] is an [int] (at most [2^31 - 1]) the
    call returns with capacity [v] and the same elements in the same
    order. *)
Theorem C1_ensureCapacity s this xs cap minCapacity :
  repr s this xs cap ->
  (minCapacity <= cap ->
   ensureCapacity default_init this minCapacity s = Ret tt s) /\
  (cap < minCapacity ->
   exists v,
     doubles_to minCapacity (Z.max cap 1) v /\
     (v <= Int.max_int ->
      exists s',
        ensureCapacity default_init this minCapacity s = Ret tt s' /\
        repr s' this xs v)).
Proof.
  intros Hrepr. pose proof (repr_bounds _ _ _ _ Hrepr) as Hb. split.
  - intros Hle. destruct Hrepr as (a & Ha & _ & Hcap & _).
    apply (ensureCapacity_noop _ _ _ _ Ha). lia.
  - intros Hlt.
    destruct (doubles_to_total minCapacity (Z.max cap 1)) as (v & Hv & _);
      [lia|].
    exists v. split; [assumption|]. intros Hmax.
    destruct (ensureCapacity_grow s this xs cap minCapacity v)
      as (s' & Hrun & Hrepr' & _); [assumption|assumption| | |].
    + apply grow_initial_doubles;
        [lia|assumption|assumption|assumption|unfold grow_fuel; lia].
    + split; [eapply doubles_to_ge; eassumption|assumption].
    + exists s'. split; assumption.
Qed.

(** Between two different containers the copy assignment never
    returns normally: its last statement is reached without a
    [return]. *)
Lemma copy_assign_other_no_return s this other r s' :
  this <> other -> copy_assign value_init this other s <> Ret r s'.
Proof.
  intros Hne. unfold copy_assign.
  destruct (decide (this = other)); [congruence|].
  unfold bind, undef.
  repeat match goal with
         | |- context [match ?m with _ => _ end] =>
             destruct m; try discriminate
         end.
Qed.

(** C3: copy-assigning a container to itself returns a reference to it
    and changes nothing: the guard [this == &other] returns before any
    release or copy, so the length, the capacity and every element are
    what they were. *)
Theorem C3_copy_assign_self s this :
  copy_assign value_init this this s = Ret this s /\
  forall xs cap, repr s this xs cap ->
    exists s', copy_assign value_init this this s = Ret this s' /\
               repr s' this xs cap /\ bufs s' = bufs s.
Proof.
  assert (H : copy_assign value_init this this s = Ret this s).
  { unfold copy_assign. destruct (decide (this = this)); [reflexivity|].
    congruence. }
  split; [assumption|]. intros xs cap Hrepr. exists s. auto.
Qed.

(** C10: move-assigning a container to itself returns a reference to it
    and changes nothing: under the guard [this != &other] nothing is
    released and no field is written. *)
Theorem C10_move_assign_self s this :
  move_assign this this s = Ret this s /\
  forall xs cap, repr s this xs cap ->
    exists s', move_assign this this s = Ret this s' /\
               repr s' this xs cap /\ bufs s' = bufs s.
Proof.
  assert (H : move_assign this this s = Ret this s).
  { unfold move_assign. destruct (decide (this <> this)); [congruence|].
    reflexivity. }
  split; [assumption|]. intros xs cap Hrepr. exists s. auto.
Qed.

(** C6: [operator[]] (both versions) throws [std::out_of_range] exactly
    when [index < 0] or [index >= size], leaving the state as it was;
    otherwise it returns, without any access to the buffer, the
    reference to the slot [index], which is below [size]; on a
    container reading through that reference gives the element at
    [index]. *)
Theorem C6_subscript_bounds s this a index :
  objs s !! this = Some a ->
  (index < 0 \/ size a <= index ->
   subscript this index s = Throw IndexOutOfBounds s /\
   subscript_const this index s = Throw IndexOutOfBounds s) /\
  (0 <= index < size a ->
   subscript this index s = Ret (data a, index) s /\
   subscript_const this index s = Ret (data a, index) s /\
   forall xs cap, repr s this xs cap ->
     exists x, xs !! Z.to_nat index = Some x /\
               deref (data a, index) s = Ret x s).
Proof.
  intros Ha. split.
  - intros Hout. unfold subscript, subscript_const.
    rewrite !(bind_run _ _ _ _ _ (get_obj_run _ _ _ Ha)).
    destruct (Z.ltb_spec index 0); [split; reflexivity|].
    destruct (Z.geb_spec index (size a)); [split; reflexivity|lia].
  - intros Hin. unfold subscript, subscript_const.
    rewrite !(bind_run _ _ _ _ _ (get_obj_run _ _ _ Ha)).
    destruct (Z.ltb_spec index 0); [lia|].
    destruct (Z.geb_spec index (size a)); [lia|].
    split; [reflexivity|]. split; [reflexivity|].
    intros xs cap (a' & Ha' & Hsize & _ & _ & Hbuf).
    assert (a' = a) as -> by congruence.
    destruct Hbuf as [(l & buf & Hd & Hl & _ & Htake)|(_ & _ & ->)].
    + destruct (lookup_lt_is_Some_2 xs (Z.to_nat index)) as [x Hx]; [lia|].
      exists x. split; [assumption|].
      unfold deref. simpl. rewrite Hd.
      rewrite <- (Z2Nat.id index) at 1 by lia.
      apply (load_run _ _ buf); [assumption|].
      rewrite (lookup_of_take xs buf); [assumption|assumption|lia].
    + simpl in Hsize. lia.
Qed.

(** C7: on a container without elements [pop] and [shift] throw
    [std::out_of_range] (with their own messages) and leave the state
    as it was. *)
Theorem C7_empty_removal s this a :
  objs s !! this = Some a -> size a = 0 ->
  pop this s = Throw PopFromEmpty s /\
  shift this s = Throw ShiftFromEmpty s.
Proof.
  intros Ha Hsize. unfold pop, shift.
  rewrite !(bind_run _ _ _ _ _ (get_obj_run _ _ _ Ha)).
  rewrite Hsize. split; reflexivity.
Qed.

(** ** Construction, and the capacity that [push] leaves *)

Lemma Array_ctor_spec s this C :
  0 <= C <= Int.max_int ->
  exists s',
    Array_ctor value_init this C s = Ret tt s' /\
    repr s' this [] C /\ out s' = out s.
Proof.
  intros HC. unfold Array_ctor.
  destruct (new_array_run s C value_init) as (l & _ & Hnew); [lia|].
  rewrite (bind_run _ _ _ _ _ Hnew).
  eexists. split; [reflexivity|]. split; [|reflexivity].
  exists (mkArray (Some l) 0 C). simpl.
  split; [apply lookup_insert_eq|].
  split; [reflexivity|]. split; [reflexivity|]. split; [lia|].
  left. exists l, (replicate (Z.to_nat C) value_init).
  split; [reflexivity|]. split; [apply lookup_insert_eq|].
  split; [rewrite length_replicate; lia|reflexivity].
Qed.

Lemma growth_inv_push C n cap :
  0 <= C -> 0 <= n <= cap -> growth_inv C n cap ->
  growth_inv C (n + 1) (pushed_capacity cap n).
Proof.
  intros HC Hn Hinv. right. split; [lia|].
  unfold pushed_capacity.
  destruct Hinv as [(-> & ->)|(Hn1 & (k0 & Hk0) & Hge & Hmin)].
  - replace (if 0 <? C then C else if C >? 0 then 2 * C else 1)
      with (Z.max C 1).
    2:{ destruct (Z.ltb_spec 0 C); [lia|].
        destruct (Z.gtb_spec C 0); lia. }
    split; [exists 0%nat; simpl; lia|]. split; [lia|].
    intros k _. pose proof (Z.pow_pos_nonneg 2 (Z.of_nat k)). nia.
  - destruct (Z.ltb_spec n cap) as [Hroom|Hfull].
    + split; [exists k0; assumption|]. split; [lia|].
      intros k Hk. apply Hmin. lia.
    + assert (cap = n) by lia. subst n.
      destruct (Z.gtb_spec cap 0); [|lia].
      split.
      { exists (S k0). rewrite Nat2Z.inj_succ, Z.pow_succ_r by lia. lia. }
      split; [lia|].
      intros k Hk.
      destruct (Nat.le_gt_cases k k0) as [Hle|Hgt].
      * assert (Hp : 2 ^ Z.of_nat k <= 2 ^ Z.of_nat k0)
          by (apply Z.pow_le_mono_r; lia).
        nia.
      * assert (Hp : 2 ^ Z.of_nat (S k0) <= 2 ^ Z.of_nat k)
          by (apply Z.pow_le_mono_r; lia).
        rewrite Nat2Z.inj_succ, Z.pow_succ_r in Hp by lia. nia.
Qed.

(** While some [max(C, 1) * 2^k] that is an [int] exceeds the length,
    there is room or the capacity can be doubled. *)
Lemma growth_room C n cap (kf : nat) :
  0 <= C -> growth_inv C n cap ->
  n + 1 <= Z.max C 1 * 2 ^ Z.of_nat kf <= Int.max_int ->
  n < cap \/ cap < 2 ^ 30.
Proof.
  intros HC Hinv Hkf.
  destruct (Z.ltb_spec n cap) as [Hroom|Hfull]; [left; assumption|right].
  destruct Hinv as [(-> & ->)|(Hn1 & (k0 & Hk0) & Hge & Hmin)]; [lia|].
  destruct (Nat.le_gt_cases kf k0) as [Hle|Hgt].
  - assert (Hp : 2 ^ Z.of_nat kf <= 2 ^ Z.of_nat k0)
      by (apply Z.pow_le_mono_r; lia).
    nia.
  - assert (Hp : 2 ^ Z.of_nat (S k0) <= 2 ^ Z.of_nat kf)
      by (apply Z.pow_le_mono_r; lia).
    rewrite Nat2Z.inj_succ, Z.pow_succ_r in Hp by lia.
    unfold Int.max_int in *. nia.
Qed.

(** What the interface shows of a container is what it holds. *)
Lemma read_from_run s this xs cap :
  repr s this xs cap ->
  forall (k i : nat), (i + k <= length xs)%nat ->
    read_from this k (Z.of_nat i) s = Ret (take k (drop i xs)) s.
Proof.
  intros Hrepr k. induction k as [|k IH]; intros i Hk; [reflexivity|].
  destruct Hrepr as (a & Ha & Hsize & Hcap & Hmax & Hbuf).
  destruct (lookup_lt_is_Some_2 xs i) as [x Hx]; [lia|].
  simpl read_from. unfold subscript_const.
  rewrite (bind_run _ _ s (data a, Z.of_nat i) s).
  2:{ rewrite (bind_run _ _ _ _ _ (get_obj_run _ _ _ Ha)).
      destruct (Z.ltb_spec (Z.of_nat i) 0); [lia|].
      destruct (Z.geb_spec (Z.of_nat i) (size a)); [lia|reflexivity]. }
  rewrite (bind_run _ _ s x s).
  2:{ unfold deref. simpl.
      destruct Hbuf as [(l & buf & Hd & Hl & _ & Htake)|(_ & _ & ->)];
        [|discriminate].
      rewrite Hd. apply (load_run _ _ buf); [assumption|].
      rewrite (lookup_of_take xs buf); [assumption|assumption|lia]. }
  replace (Z.of_nat i + 1) with (Z.of_nat (S i)) by lia.
  rewrite (bind_run _ _ _ _ _ (IH (S i) ltac:(lia))).
  unfold ret. rewrite (drop_S _ _ _ Hx). reflexivity.
Qed.

Lemma snapshot_repr s this xs cap :
  repr s this xs cap ->
  snapshot this s = Ret (Z.of_nat (length xs), cap, xs) s.
Proof.
  intros Hrepr.
  pose proof (read_from_run s this xs cap Hrepr (length xs) 0%nat) as Hread.
  destruct Hrepr as (a & Ha & Hsize & Hcap & _).
  unfold snapshot, getSize, getCapacity.
  rewrite (bind_run _ _ s (size a) s)
    by (rewrite (bind_run _ _ _ _ _ (get_obj_run _ _ _ Ha)); reflexivity).
  rewrite (bind_run _ _ s (capacity a) s)
    by (rewrite (bind_run _ _ _ _ _ (get_obj_run _ _ _ Ha)); reflexivity).
  rewrite Hsize, Nat2Z.id.
  change (Z.of_nat 0) with 0 in Hread.
  rewrite (bind_run _ _ _ _ _ (Hread ltac:(lia))).
  rewrite drop_0, firstn_all, Hcap. reflexivity.
Qed.

End Runs.

(** * Buffers of their own: the calls that add and remove elements *)

(** ** Ownership *)

Section Ownership.

Context {T : Type}.
Variable value_init : T.
Variable default_init : T.

Implicit Types (s : state T) (a : Array) (this other l : positive)
  (xs ys buf : list T) (cap : Z) (F : gmap positive (list T)).

Lemma owns_repr s this xs cap F : owns s this xs cap F -> repr s this xs cap.
Proof.
  intros (a & Ha & Hsize & Hcap & Hmax & Hbuf).
  exists a. repeat (split; [assumption|]).
  destruct Hbuf as [(l & buf & Hd & HF & Hs & Hlen & Htake)|(Hd & _ & H0 & Hxs)].
  - left. exists l, buf. split; [assumption|].
    split; [rewrite Hs; apply lookup_insert_eq|]. split; assumption.
  - right. repeat split; assumption.
Qed.

Lemma repr_owns s this xs cap :
  repr s this xs cap -> owns s this xs cap (others s this).
Proof.
  intros (a & Ha & Hsize & Hcap & Hmax & Hbuf).
  exists a. repeat (split; [assumption|]).
  unfold others. rewrite Ha.
  destruct Hbuf as [(l & buf & Hd & Hl & Hlen & Htake)|(Hd & H0 & Hxs)].
  - left. exists l, buf. rewrite Hd. split; [reflexivity|].
    split; [apply lookup_delete_eq|].
    split; [symmetry; apply insert_delete_id; assumption|].
    split; assumption.
  - right. rewrite Hd. repeat split; assumption.
Qed.

(** What belongs to somebody else is in the free store. *)
Lemma owns_others s this xs cap F l buf :
  owns s this xs cap F -> F !! l = Some buf -> bufs s !! l = Some buf.
Proof.
  intros (a & _ & _ & _ & _ & Hbuf) Hl.
  destruct Hbuf as [(l' & buf' & _ & HF & Hs & _)|(_ & Hs & _)]; rewrite Hs.
  - rewrite lookup_insert_ne by congruence. assumption.
  - assumption.
Qed.

(** A container stays what it is while its object and its buffer
    stay. *)
Lemma repr_frame s s' this xs cap :
  repr s this xs cap ->
  objs s' !! this = objs s !! this ->
  (forall a l, objs s !! this = Some a -> data a = Some l ->
               bufs s' !! l = bufs s !! l) ->
  repr s' this xs cap.
Proof.
  intros (a & Ha & Hsize & Hcap & Hmax & Hbuf) Hobj Hbufs.
  exists a. split; [congruence|]. repeat (split; [assumption|]).
  destruct Hbuf as [(l & buf & Hd & Hl & Hlen & Htake)|Hnone];
    [|right; assumption].
  left. exists l, buf. split; [assumption|].
  split; [rewrite (Hbufs a l Ha Hd); assumption|]. split; assumption.
Qed.

(** The buffer of another container is not the one of this
    container when the two objects do not share it. *)
Lemma others_lookup s this a other o l buf :
  objs s !! this = Some a -> objs s !! other = Some o ->
  data o = Some l -> data a <> Some l -> bufs s !! l = Some buf ->
  others s this !! l = Some buf.
Proof.
  intros Ha Ho Hd Hne Hl. unfold others. rewrite Ha.
  destruct (data a) as [l'|]; [|assumption].
  rewrite lookup_delete_ne by congruence. assumption.
Qed.

Lemma owns_bounds s this xs cap F :
  owns s this xs cap F -> Z.of_nat (length xs) <= cap <= Int.max_int.
Proof. intros H. eapply repr_bounds, owns_repr, H. Qed.

(** *** The member functions keep to their own buffer *)

Lemma ensureCapacity_owns s this xs cap F minCapacity v :
  owns s this xs cap F -> cap < minCapacity ->
  grow_loop grow_fuel (initial_newCapacity cap) minCapacity = Some v ->
  minCapacity <= v <= Int.max_int ->
  exists s',
    ensureCapacity default_init this minCapacity s = Ret tt s' /\
    owns s' this xs v F /\
    (forall o, o <> this -> objs s' !! o = objs s !! o) /\
    out s' = out s.
Proof.
  intros Howns Hlt Hgrow Hv.
  pose proof (owns_bounds _ _ _ _ _ Howns) as Hb.
  destruct Howns as (a & Ha & Hsize & Hcap & Hmax & Hbuf).
  unfold ensureCapacity.
  rewrite (bind_run _ _ _ _ _ (get_obj_run _ _ _ Ha)).
  destruct (Z.geb_spec (capacity a) minCapacity); [lia|].
  rewrite Hcap, Hgrow.
  destruct (new_array_run s v default_init) as (l' & Hfresh & Hnew); [lia|].
  rewrite (bind_run _ _ _ _ _ Hnew).
  set (s1 := set_buf s l' (replicate (Z.to_nat v) default_init)).
  unfold for_up. rewrite Hsize, Z.sub_0_r, Nat2Z.id.
  destruct Hbuf as [(l & buf & Hd & HF & Hs & Hlen & Htake)|(Hd & Hs & Hc0 & Hxs)].
  - assert (Hl : bufs s !! l = Some buf)
      by (rewrite Hs; apply lookup_insert_eq).
    assert (Hne : l <> l') by congruence.
    assert (HF' : F !! l' = None).
    { rewrite Hs in Hfresh. apply lookup_insert_None in Hfresh. tauto. }
    destruct (copy_loop_run (length xs) 0%nat s1 l l' buf
                (replicate (Z.to_nat v) default_init))
      as (d' & Hrun & Hlen' & Hd'); [assumption| | | | |].
    { unfold s1. rewrite bufs_set_buf_ne by congruence. assumption. }
    { apply bufs_set_buf. }
    { pose proof (length_of_take _ _ Htake). lia. }
    { rewrite length_replicate. lia. }
    change (Z.of_nat 0) with 0 in Hrun. rewrite Hd.
    rewrite (bind_run _ _ _ _ _ Hrun).
    unfold s1. rewrite set_buf_twice.
    rewrite (bind_run _ _ _ tt
               (mkState (objs s) (delete l (<[l' := d']> (bufs s))) (out s))).
    2:{ erewrite delete_array_run; [reflexivity|].
        rewrite bufs_set_buf_ne by congruence. eassumption. }
    erewrite bind_run by (apply wr_data_run; simpl; eassumption).
    erewrite wr_capacity_run by (simpl; apply lookup_insert_eq).
    eexists. split; [reflexivity|]. simpl. split; [|split; [|reflexivity]].
    + exists (mkArray (Some l') (size a) v). simpl.
      split; [apply lookup_insert_eq|].
      split; [assumption|]. split; [reflexivity|]. split; [lia|].
      left. exists l', d'. split; [reflexivity|]. split; [assumption|].
      split.
      { rewrite Hs, delete_insert_ne by congruence.
        rewrite delete_insert_id by assumption. reflexivity. }
      split; [rewrite Hlen', length_replicate; lia|].
      apply take_eq_lookup.
      * rewrite Hlen', length_replicate. lia.
      * intros j Hj. rewrite Hd'.
        destruct (decide (0 <= j < 0 + length xs)%nat); [|lia].
        apply lookup_of_take; assumption.
    + intros o Ho. rewrite !lookup_insert_ne by congruence. reflexivity.
  - subst xs. simpl for_up_from. rewrite Hd.
    rewrite (bind_run _ _ s1 tt s1) by reflexivity.
    rewrite (bind_run _ _ s1 tt s1) by reflexivity.
    erewrite bind_run by (apply wr_data_run; simpl; eassumption).
    erewrite wr_capacity_run by (simpl; apply lookup_insert_eq).
    eexists. split; [reflexivity|]. simpl. split; [|split; [|reflexivity]].
    + exists (mkArray (Some l') (size a) v). simpl.
      split; [apply lookup_insert_eq|].
      split; [assumption|]. split; [reflexivity|]. split; [lia|].
      left. exists l', (replicate (Z.to_nat v) default_init).
      split; [reflexivity|]. split; [congruence|].
      split; [rewrite Hs; reflexivity|].
      split; [rewrite length_replicate; lia|reflexivity].
    + intros o Ho. rewrite !lookup_insert_ne by congruence. reflexivity.
Qed.

Lemma ensure_room_owns s this xs cap F :
  owns s this xs cap F -> Z.of_nat (length xs) < cap \/ cap < 2 ^ 30 ->
  exists s',
    ensureCapacity default_init this (Z.of_nat (S (length xs))) s = Ret tt s' /\
    owns s' this xs (pushed_capacity cap (Z.of_nat (length xs))) F /\
    Z.of_nat (length xs) < pushed_capacity cap (Z.of_nat (length xs)) /\
    (forall o, o <> this -> objs s' !! o = objs s !! o) /\
    out s' = out s.
Proof.
  intros Howns Hn.
  pose proof (owns_bounds _ _ _ _ _ Howns) as Hb.
  unfold pushed_capacity.
  destruct (Z.ltb_spec (Z.of_nat (length xs)) cap) as [Hroom|Hfull].
  - exists s. split.
    + destruct Howns as (a & Ha & Hsize & Hcap & Hrest).
      apply (ensureCapacity_noop _ _ _ _ _ Ha); lia.
    + split; [assumption|]. split; [assumption|]. split; reflexivity.
  - assert (Hcap : cap = Z.of_nat (length xs)) by lia.
    set (v := if cap >? 0 then 2 * cap else 1).
    assert (Hv : doubles_to (Z.of_nat (S (length xs))) (Z.max cap 1) v).
    { unfold v. destruct (Z.gtb_spec cap 0).
      - rewrite Z.max_l by lia. apply doubles_step; [lia|].
        apply doubles_stop. lia.
      - rewrite Z.max_r by lia. apply doubles_stop. lia. }
    assert (Hv' : Z.of_nat (S (length xs)) <= v <= Int.max_int).
    { unfold v, Int.max_int. destruct (Z.gtb_spec cap 0); lia. }
    destruct (ensureCapacity_owns s this xs cap F (Z.of_nat (S (length xs))) v)
      as (s' & Hrun & Howns' & Hobjs & Hout); [assumption|lia| |assumption|].
    + apply grow_initial_doubles;
        [lia|lia|assumption|lia|unfold grow_fuel; lia].
    + exists s'. split; [assumption|]. split; [assumption|].
      split; [lia|]. split; assumption.
Qed.

(** *** Reading the argument *)

Lemma cref_in_mono F G (c : cref T) v :
  (forall l buf, F !! l = Some buf -> G !! l = Some buf) ->
  cref_in F c = Some v -> cref_in G c = Some v.
Proof.
  intros Hsub. destruct c as [x|[[l|] i]]; simpl; try (intros H; exact H).
  destruct (F !! l) as [buf|] eqn:E; [|discriminate].
  rewrite (Hsub l buf E). intros H. exact H.
Qed.

Lemma read_cref_run s (c : cref T) v :
  cref_value s c = Some v -> read_cref c s = Ret v s.
Proof.
  destruct c as [x|[p i]]; unfold cref_value; simpl.
  - intros [= ->]. reflexivity.
  - intros H. unfold deref, load, slot. simpl.
    destruct p as [l|]; [|discriminate]. rewrite H. reflexivity.
Qed.

(** An argument that is not an element of the container designates
    the same value whatever happens to the buffer of the container. *)
Lemma owns_cref s this xs cap F (c : cref T) v :
  owns s this xs cap F -> cref_in F c = Some v -> cref_value s c = Some v.
Proof.
  intros Howns. apply cref_in_mono. intros l buf.
  apply (owns_others s this xs cap F l buf Howns).
Qed.

(** [push] once [ensureCapacity] has made room. *)
Lemma push_core s s1 this xs cap1 F a (c : cref T) v :
  objs s !! this = Some a -> size a = Z.of_nat (length xs) ->
  ensureCapacity default_init this (Z.of_nat (S (length xs))) s = Ret tt s1 ->
  owns s1 this xs cap1 F -> Z.of_nat (length xs) < cap1 ->
  cref_value s1 c = Some v ->
  exists s',
    push default_init this c s = Ret tt s' /\
    owns s' this (xs ++ [v]) cap1 F /\
    (forall o, o <> this -> objs s' !! o = objs s1 !! o) /\
    out s' = out s1.
Proof.
  intros Ha Hsize Hrun Howns1 Hroom Hc.
  pose proof (owns_bounds _ _ _ _ _ Howns1) as Hb.
  destruct Howns1 as (a1 & Ha1 & Hsize1 & Hcap1 & Hmax1 & Hbuf).
  destruct Hbuf as [(l & buf & Hd & HF & Hs & Hlen & Htake)|(_ & _ & Hc0 & _)];
    [|lia].
  assert (Hl : bufs s1 !! l = Some buf) by (rewrite Hs; apply lookup_insert_eq).
  unfold push.
  rewrite (bind_run _ _ _ _ _ (get_obj_run _ _ _ Ha)).
  rewrite Hsize, add_1_nat by (unfold Int.max_int in *; lia).
  rewrite (bind_run _ _ _ _ _ Hrun).
  rewrite (bind_run _ _ _ _ _ (get_obj_run _ _ _ Ha1)).
  rewrite Hsize1, add_1_nat by (unfold Int.max_int in *; lia).
  rewrite (bind_run _ _ _ _ _ (wr_size_run _ _ _ _ Ha1)).
  rewrite (bind_run _ _ _ _ _ (read_cref_run (set_obj s1 this _) c v Hc)).
  rewrite Hd.
  erewrite store_run; [|simpl; eassumption|lia].
  eexists. split; [reflexivity|]. simpl.
  split; [|split; [|reflexivity]].
  - exists (mkArray (Some l) (Z.of_nat (S (length xs))) (capacity a1)). simpl.
    split; [apply lookup_insert_eq|].
    split; [rewrite length_app; simpl; lia|].
    split; [assumption|]. split; [assumption|].
    left. exists l, (<[length xs := v]> buf).
    split; [reflexivity|]. split; [assumption|].
    split; [rewrite Hs, insert_insert_eq; reflexivity|].
    split; [rewrite length_insert; assumption|].
    apply take_eq_lookup.
    + rewrite length_insert, length_app. simpl. lia.
    + intros j Hj. rewrite length_app in Hj. simpl in Hj.
      destruct (decide (j = length xs)) as [->|Hne].
      * rewrite list_lookup_insert_eq by lia.
        rewrite lookup_app_r by lia. rewrite Nat.sub_diag. reflexivity.
      * rewrite list_lookup_insert_ne by lia.
        rewrite lookup_app_l by lia. apply lookup_of_take; [assumption|lia].
  - intros o Ho. apply lookup_insert_ne. congruence.
Qed.

(** [push] with an argument that is not an element of the
    container. *)
Lemma push_owns s this xs cap F (c : cref T) v :
  owns s this xs cap F -> Z.of_nat (length xs) < cap \/ cap < 2 ^ 30 ->
  cref_in F c = Some v ->
  exists s',
    push default_init this c s = Ret tt s' /\
    owns s' this (xs ++ [v]) (pushed_capacity cap (Z.of_nat (length xs))) F /\
    (forall o, o <> this -> objs s' !! o = objs s !! o) /\
    out s' = out s.
Proof.
  intros Howns Hn Hc.
  destruct (ensure_room_owns s this xs cap F Howns Hn)
    as (s1 & Hrun & Howns1 & Hroom & Hobjs & Hout).
  pose proof Howns as (a & Ha & Hsize & _).
  destruct (push_core s s1 this xs _ F a c v Ha Hsize Hrun Howns1 Hroom)
    as (s' & Hpush & Howns' & Hobjs' & Hout').
  { eapply owns_cref; eassumption. }
  exists s'. split; [assumption|]. split; [assumption|].
  split; [intros o Ho; rewrite Hobjs', Hobjs by assumption; reflexivity|].
  congruence.
Qed.

(** [push] where there is room, with any argument: also an element of
    the container itself. *)
Lemma push_room_owns s this xs cap F (c : cref T) v :
  owns s this xs cap F -> Z.of_nat (length xs) < cap ->
  cref_value s c = Some v ->
  exists s',
    push default_init this c s = Ret tt s' /\
    owns s' this (xs ++ [v]) cap F /\
    (forall o, o <> this -> objs s' !! o = objs s !! o) /\
    out s' = out s.
Proof.
  intros Howns Hroom Hc.
  pose proof Howns as (a & Ha & Hsize & Hcap & _).
  apply (push_core s s this xs cap F a c v Ha Hsize); try assumption.
  apply (ensureCapacity_noop _ _ _ _ _ Ha). lia.
Qed.

Lemma pop_owns s this xs cap F v :
  owns s this (xs ++ [v]) cap F ->
  exists s',
    pop this s = Ret v s' /\ owns s' this xs cap F /\
    (forall o, o <> this -> objs s' !! o = objs s !! o) /\
    bufs s' = bufs s /\ out s' = out s.
Proof.
  intros Howns.
  pose proof (owns_bounds _ _ _ _ _ Howns) as Hb.
  destruct Howns as (a & Ha & Hsize & Hcap & Hmax & Hbuf).
  rewrite length_app in *. simpl in *.
  destruct Hbuf as [(l & buf & Hd & HF & Hs & Hlen & Htake)|(_ & _ & _ & Hnil)].
  2:{ destruct xs; discriminate. }
  assert (Hl : bufs s !! l = Some buf) by (rewrite Hs; apply lookup_insert_eq).
  unfold pop.
  rewrite (bind_run _ _ _ _ _ (get_obj_run _ _ _ Ha)).
  destruct (Z.eqb_spec (size a) 0); [lia|].
  rewrite Hsize, sub_1_nat by lia.
  replace (length xs + 1 - 1)%nat with (length xs) by lia.
  rewrite (bind_run _ _ _ _ _ (wr_size_run _ _ _ _ Ha)).
  rewrite Hd.
  assert (Hv : buf !! length xs = Some v).
  { rewrite <- (lookup_take_lt buf (length xs + 1)) by lia.
    rewrite Htake. rewrite lookup_app_r by lia.
    rewrite Nat.sub_diag. reflexivity. }
  erewrite load_run; [|simpl; eassumption|eassumption].
  eexists. split; [reflexivity|]. simpl.
  split; [|split; [|split; reflexivity]].
  - exists (mkArray (Some l) (Z.of_nat (length xs)) (capacity a)). simpl.
    split; [apply lookup_insert_eq|].
    split; [reflexivity|]. split; [assumption|]. split; [assumption|].
    left. exists l, buf.
    split; [reflexivity|]. split; [assumption|]. split; [assumption|].
    split; [assumption|].
    pose proof (f_equal (take (length xs)) Htake) as E.
    rewrite take_take, Nat.min_l in E by lia.
    rewrite E. apply take_app_length.
  - intros o Ho. apply lookup_insert_ne. congruence.
Qed.

Lemma unshift_owns s this xs cap F (c : cref T) v :
  owns s this xs cap F -> Z.of_nat (length xs) < cap \/ cap < 2 ^ 30 ->
  cref_in F c = Some v ->
  exists s',
    unshift default_init this c s = Ret tt s' /\
    owns s' this (v :: xs) (pushed_capacity cap (Z.of_nat (length xs))) F /\
    (forall o, o <> this -> objs s' !! o = objs s !! o) /\
    out s' = out s.
Proof.
  intros Howns Hn Hc.
  destruct (ensure_room_owns s this xs cap F Howns Hn)
    as (s1 & Hrun & Howns1 & Hroom & Hobjs & Hout).
  set (cap1 := pushed_capacity cap (Z.of_nat (length xs))) in *.
  pose proof (owns_bounds _ _ _ _ _ Howns1) as Hb.
  pose proof (owns_bounds _ _ _ _ _ Howns) as Hb0.
  destruct Howns as (a & Ha & Hsize & _).
  destruct Howns1 as (a1 & Ha1 & Hsize1 & Hcap1 & Hmax1 & Hbuf).
  destruct Hbuf as [(l & buf & Hd & HF & Hs & Hlen & Htake)|(_ & _ & Hc0 & _)];
    [|lia].
  assert (Hl : bufs s1 !! l = Some buf) by (rewrite Hs; apply lookup_insert_eq).
  unfold unshift.
  rewrite (bind_run _ _ _ _ _ (get_obj_run _ _ _ Ha)).
  rewrite Hsize, add_1_nat by (unfold Int.max_int in *; lia).
  rewrite (bind_run _ _ _ _ _ Hrun).
  rewrite (bind_run _ _ _ _ _ (get_obj_run _ _ _ Ha1)).
  rewrite Hsize1, add_1_nat by (unfold Int.max_int in *; lia).
  unfold for_down. rewrite Nat2Z.id, Hd.
  destruct (shift_right_run (length xs) s1 l buf)
    as (b' & Hloop & Hlen' & Hb'); [assumption|lia|lia|].
  rewrite (bind_run _ _ _ _ _ Hloop).
  assert (Hread : cref_value (set_buf s1 l b') c = Some v).
  { revert Hc. apply cref_in_mono. intros l0 buf0 H0.
    unfold set_buf. simpl. rewrite lookup_insert_ne by congruence.
    rewrite Hs, lookup_insert_ne by congruence. assumption. }
  rewrite (bind_run _ _ _ _ _ (read_cref_run _ c v Hread)).
  rewrite (bind_run _ _ _ tt (set_buf s1 l (<[0%nat := v]> b'))).
  2:{ change 0 with (Z.of_nat 0). erewrite store_run;
        [rewrite set_buf_twice; reflexivity|apply bufs_set_buf|lia]. }
  erewrite wr_size_run by (simpl; eassumption).
  rewrite Hd.
  eexists. split; [reflexivity|]. simpl.
  split; [|split; [|assumption]].
  - exists (mkArray (Some l) (Z.of_nat (S (length xs))) (capacity a1)). simpl.
    split; [apply lookup_insert_eq|].
    split; [reflexivity|]. split; [assumption|]. split; [assumption|].
    left. exists l, (<[0%nat := v]> b').
    split; [reflexivity|]. split; [assumption|].
    split; [rewrite Hs, insert_insert_eq; reflexivity|].
    split; [rewrite length_insert; lia|].
    apply (take_eq_lookup (v :: xs)).
    + rewrite length_insert. simpl. lia.
    + intros j Hj. simpl in Hj.
      destruct j as [|j].
      * rewrite list_lookup_insert_eq by lia. reflexivity.
      * rewrite list_lookup_insert_ne by lia. rewrite Hb'.
        destruct (decide (1 <= S j <= length xs)%nat); [|lia].
        simpl. rewrite Nat.sub_0_r. apply lookup_of_take; [assumption|lia].
  - intros o Ho. rewrite lookup_insert_ne by congruence. apply Hobjs, Ho.
Qed.

Lemma shift_owns s this xs cap F v :
  owns s this (v :: xs) cap F ->
  exists s',
    shift this s = Ret v s' /\ owns s' this xs cap F /\
    (forall o, o <> this -> objs s' !! o = objs s !! o) /\
    out s' = out s.
Proof.
  intros Howns.
  pose proof (owns_bounds _ _ _ _ _ Howns) as Hb.
  destruct Howns as (a & Ha & Hsize & Hcap & Hmax & Hbuf).
  simpl length in *.
  destruct Hbuf as [(l & buf & Hd & HF & Hs & Hlen & Htake)|(_ & _ & _ & Hnil)];
    [|discriminate].
  assert (Hl : bufs s !! l = Some buf) by (rewrite Hs; apply lookup_insert_eq).
  pose proof (length_of_take (v :: xs) buf Htake) as Hle. simpl in Hle.
  unfold shift.
  rewrite (bind_run _ _ _ _ _ (get_obj_run _ _ _ Ha)).
  destruct (Z.eqb_spec (size a) 0); [lia|].
  rewrite Hd, Hsize.
  assert (Hv : buf !! 0%nat = Some v).
  { rewrite (lookup_of_take (v :: xs) buf 0 Htake); [reflexivity|simpl; lia]. }
  change 0 with (Z.of_nat 0) at 1.
  rewrite (bind_run _ _ _ _ _ (load_run _ _ _ _ _ Hl Hv)).
  unfold for_up.
  replace (Z.to_nat (Z.of_nat (S (length xs)) - 1)) with (length xs) by lia.
  destruct (shift_left_run (length xs) 1 s l buf)
    as (b' & Hloop & Hlen' & Hb'); [assumption|lia|lia|lia|].
  change (Z.of_nat 1) with 1 in Hloop.
  rewrite (bind_run _ _ _ _ _ Hloop).
  rewrite sub_1_nat by lia.
  replace (S (length xs) - 1)%nat with (length xs) by lia.
  erewrite bind_run by (apply wr_size_run; simpl; eassumption).
  rewrite Hd.
  eexists. split; [reflexivity|]. simpl.
  split; [|split; [|reflexivity]].
  - exists (mkArray (Some l) (Z.of_nat (length xs)) (capacity a)). simpl.
    split; [apply lookup_insert_eq|].
    split; [reflexivity|]. split; [assumption|]. split; [assumption|].
    left. exists l, b'.
    split; [reflexivity|]. split; [assumption|].
    split; [rewrite Hs, insert_insert_eq; reflexivity|].
    split; [lia|].
    apply take_eq_lookup; [lia|].
    intros j Hj. rewrite Hb'.
    destruct (decide (1 - 1 <= j < 1 - 1 + length xs)%nat); [|lia].
    rewrite (lookup_of_take (v :: xs) buf (S j) Htake); [reflexivity|simpl; lia].
  - intros o Ho. apply lookup_insert_ne. congruence.
Qed.

Lemma bind_throw {A B} (m : M T A) (k : A -> M T B) s e s' :
  m s = Throw e s' -> bind m k s = Throw e s'.
Proof. unfold bind. intros ->. reflexivity. Qed.

Lemma pop_empty s this cap F :
  owns s this [] cap F -> pop this s = Throw PopFromEmpty s.
Proof.
  intros (a & Ha & Hsize & _). unfold pop.
  rewrite (bind_run _ _ _ _ _ (get_obj_run _ _ _ Ha)), Hsize. reflexivity.
Qed.

Lemma shift_empty s this cap F :
  owns s this [] cap F -> shift this s = Throw ShiftFromEmpty s.
Proof.
  intros (a & Ha & Hsize & _). unfold shift.
  rewrite (bind_run _ _ _ _ _ (get_obj_run _ _ _ Ha)), Hsize. reflexivity.
Qed.

Lemma Array_ctor_owns s this C :
  0 <= C <= Int.max_int ->
  exists s',
    Array_ctor value_init this C s = Ret tt s' /\
    owns s' this [] C (bufs s) /\
    (forall o, o <> this -> objs s' !! o = objs s !! o) /\
    out s' = out s.
Proof.
  intros HC. unfold Array_ctor.
  destruct (new_array_run s C value_init) as (l & Hfresh & Hnew); [lia|].
  rewrite (bind_run _ _ _ _ _ Hnew).
  eexists. split; [reflexivity|]. simpl. split; [|split; [|reflexivity]].
  - exists (mkArray (Some l) 0 C). simpl.
    split; [apply lookup_insert_eq|].
    split; [reflexivity|]. split; [reflexivity|]. split; [lia|].
    left. exists l, (replicate (Z.to_nat C) value_init).
    split; [reflexivity|]. split; [assumption|]. split; [reflexivity|].
    split; [rewrite length_replicate; lia|reflexivity].
  - intros o Ho. apply lookup_insert_ne. congruence.
Qed.

Lemma Array_dtor_owns s this xs cap F :
  owns s this xs cap F ->
  Array_dtor this s = Ret tt (mkState (delete this (objs s)) F (out s)).
Proof.
  intros (a & Ha & _ & _ & _ & Hbuf). unfold Array_dtor.
  rewrite (bind_run _ _ _ _ _ (get_obj_run _ _ _ Ha)).
  destruct Hbuf as [(l & buf & Hd & HF & Hs & _)|(Hd & Hs & _)]; rewrite Hd.
  - erewrite bind_run.
    2:{ apply (delete_array_run _ _ buf). rewrite Hs. apply lookup_insert_eq. }
    simpl. rewrite Hs, delete_insert_id by assumption. reflexivity.
  - rewrite (bind_run _ _ s tt s) by reflexivity. rewrite Hs. reflexivity.
Qed.

(** *** A call and the one that undoes it *)

(** C8, as amended: on a container that is not full, with an argument
    that designates a value (also an element of the container itself),
    or on a container whose capacity is below [2^30], with an argument
    that is not an element of the container itself, [push(V)] returns,
    the following [pop()] returns [V], the elements are again the ones
    before the two calls, and the capacity that [push] left, not below
    the one before, is still there after [pop]. *)
Theorem C8_push_pop s this xs cap (c : cref T) v :
  repr s this xs cap ->
  (Z.of_nat (length xs) < cap /\ cref_value s c = Some v) \/
  (cap < 2 ^ 30 /\ cref_in (others s this) c = Some v) ->
  exists s1 s2 cap',
    push default_init this c s = Ret tt s1 /\
    repr s1 this (xs ++ [v]) cap' /\
    pop this s1 = Ret v s2 /\
    repr s2 this xs cap' /\
    cap <= cap'.
Proof.
  intros Hrepr Hn.
  pose proof (repr_owns _ _ _ _ Hrepr) as Howns.
  assert (Hpush : exists s1 cap',
            push default_init this c s = Ret tt s1 /\
            owns s1 this (xs ++ [v]) cap' (others s this) /\ cap <= cap').
  { destruct Hn as [(Hroom & Hc)|(Hcap & Hc)].
    - destruct (push_room_owns s this xs cap _ c v Howns Hroom Hc)
        as (s1 & Hpush & Howns1 & _).
      exists s1, cap. split; [assumption|]. split; [assumption|lia].
    - destruct (push_owns s this xs cap _ c v Howns (or_intror Hcap) Hc)
        as (s1 & Hpush & Howns1 & _).
      exists s1, (pushed_capacity cap (Z.of_nat (length xs))).
      split; [assumption|]. split; [assumption|apply pushed_capacity_ge]. }
  destruct Hpush as (s1 & cap' & Hpush & Howns1 & Hcap').
  destruct (pop_owns s1 this xs cap' _ v Howns1) as (s2 & Hpop & Howns2 & _).
  exists s1, s2, cap'. split; [assumption|].
  split; [eapply owns_repr; eassumption|]. split; [assumption|].
  split; [eapply owns_repr; eassumption|assumption].
Qed.

(** C9, as amended: on a container that is not full, or whose capacity
    is below [2^30], with an argument that is not an element of the
    container itself, [unshift(V)] returns, the following [shift()]
    returns [V], and the elements are again the ones before the two
    calls, in the same order. *)
Theorem C9_unshift_shift s this xs cap (c : cref T) v :
  repr s this xs cap -> Z.of_nat (length xs) < cap \/ cap < 2 ^ 30 ->
  cref_in (others s this) c = Some v ->
  exists s1 s2 cap',
    unshift default_init this c s = Ret tt s1 /\
    repr s1 this (v :: xs) cap' /\
    shift this s1 = Ret v s2 /\
    repr s2 this xs cap'.
Proof.
  intros Hrepr Hn Hc.
  destruct (unshift_owns s this xs cap _ c v (repr_owns _ _ _ _ Hrepr) Hn Hc)
    as (s1 & Hunshift & Howns1 & _).
  destruct (shift_owns s1 this xs _ _ v Howns1) as (s2 & Hshift & Howns2 & _).
  exists s1, s2, (pushed_capacity cap (Z.of_nat (length xs))).
  split; [assumption|]. split; [eapply owns_repr; eassumption|].
  split; [assumption|eapply owns_repr; eassumption].
Qed.

(** *** Sequences of calls *)

Lemma run_ops_owns os : forall s this xs cap F,
  owns s this xs cap F ->
  args_in (cref_in F) os = true ->
  fits (cref_in F) (2 ^ 30) xs os = true ->
  exists s' ys cap',
    owns s' this ys cap' F /\ cap <= cap' /\
    (forall o, o <> this -> objs s' !! o = objs s !! o) /\
    out s' = out s /\
    ((run_ops default_init this os s = Ret tt s' /\
      apply_ops (cref_in F) xs os = Some ys)
     \/ (exists e os1 o os2,
           run_ops default_init this os s = Throw e s' /\
           os = os1 ++ o :: os2 /\
           apply_ops (cref_in F) xs os1 = Some ys /\ ys = [] /\
           ((o = Pop /\ e = PopFromEmpty) \/
            (o = Shift /\ e = ShiftFromEmpty)))).
Proof.
  induction os as [|o os IH]; intros s this xs cap F Howns Hargs Hfits.
  - exists s, xs, cap. split; [assumption|]. split; [lia|].
    split; [reflexivity|]. split; [reflexivity|]. left. split; reflexivity.
  - pose proof (owns_bounds _ _ _ _ _ Howns) as Hb.
    unfold args_in in Hargs. cbn [forallb] in Hargs.
    apply andb_true_iff in Hargs. destruct Hargs as [Harg Hargs].
    cbn [fits] in Hfits.
    assert (Hstep : forall s1 ys cap1,
      run_op default_init this o s = Ret tt s1 ->
      apply_op (cref_in F) xs o = Some ys ->
      owns s1 this ys cap1 F -> cap <= cap1 ->
      (forall o', o' <> this -> objs s1 !! o' = objs s !! o') ->
      out s1 = out s ->
      exists s' ys' cap',
        owns s' this ys' cap' F /\ cap <= cap' /\
        (forall o', o' <> this -> objs s' !! o' = objs s !! o') /\
        out s' = out s /\
        ((run_ops default_init this (o :: os) s = Ret tt s' /\
          apply_ops (cref_in F) xs (o :: os) = Some ys')
         \/ (exists e os1 o1 os2,
               run_ops default_init this (o :: os) s = Throw e s' /\
               o :: os = os1 ++ o1 :: os2 /\
               apply_ops (cref_in F) xs os1 = Some ys' /\ ys' = [] /\
               ((o1 = Pop /\ e = PopFromEmpty) \/
                (o1 = Shift /\ e = ShiftFromEmpty))))).
    { intros s1 ys cap1 Hrun Happ Howns1 Hcap1 Hobjs Hout.
      rewrite Happ in Hfits. apply andb_true_iff in Hfits.
      destruct Hfits as [_ Hfits].
      destruct (IH s1 this ys cap1 F Howns1 Hargs Hfits)
        as (s' & ys' & cap' & Howns' & Hcap' & Hobjs' & Hout' & Hres).
      exists s', ys', cap'. split; [assumption|]. split; [lia|].
      split; [intros o' Ho'; rewrite Hobjs', Hobjs by assumption; reflexivity|].
      split; [congruence|].
      simpl run_ops. rewrite (bind_run _ _ _ _ _ Hrun).
      destruct Hres as [(Hr & Ha)|(e & os1 & o1 & os2 & Hr & Hos & Ha & Hys & He)].
      - left. split; [assumption|]. cbn [apply_ops]. rewrite Happ. assumption.
      - right. exists e, (o :: os1), o1, os2.
        split; [assumption|]. split; [rewrite Hos; reflexivity|].
        split; [cbn [apply_ops]; rewrite Happ; assumption|].
        split; assumption. }
    destruct o as [c|c| |].
    + destruct (cref_in F c) as [v|] eqn:Hc; [|discriminate].
      cbn [apply_op] in Hfits. rewrite Hc in Hfits.
      pose proof Hfits as Hlen. apply andb_true_iff in Hlen.
      destruct Hlen as [Hlen _]. cbv iota in Hlen. apply Z.leb_le in Hlen.
      rewrite length_app in Hlen. simpl length in Hlen.
      destruct (push_owns s this xs cap F c v Howns)
        as (s1 & Hrun & Howns1 & Hobjs & Hout); [lia|assumption|].
      apply (Hstep s1 (xs ++ [v]) (pushed_capacity cap (Z.of_nat (length xs))) Hrun);
        [cbn [apply_op]; rewrite Hc; reflexivity|assumption
        |apply pushed_capacity_ge|assumption|assumption].
    + destruct (cref_in F c) as [v|] eqn:Hc; [|discriminate].
      cbn [apply_op] in Hfits. rewrite Hc in Hfits.
      pose proof Hfits as Hlen. apply andb_true_iff in Hlen.
      destruct Hlen as [Hlen _]. cbv iota in Hlen. apply Z.leb_le in Hlen.
      simpl length in Hlen.
      destruct (unshift_owns s this xs cap F c v Howns)
        as (s1 & Hrun & Howns1 & Hobjs & Hout); [lia|assumption|].
      apply (Hstep s1 (v :: xs) (pushed_capacity cap (Z.of_nat (length xs))) Hrun);
        [cbn [apply_op]; rewrite Hc; reflexivity|assumption
        |apply pushed_capacity_ge|assumption|assumption].
    + destruct xs as [|x xs'] using rev_ind.
      * exists s, [], cap. split; [assumption|]. split; [lia|].
        split; [reflexivity|]. split; [reflexivity|].
        right. exists PopFromEmpty, [], Pop, os. simpl run_ops.
        rewrite (bind_throw _ _ s PopFromEmpty s).
        2:{ apply bind_throw. eapply pop_empty. eassumption. }
        split; [reflexivity|]. split; [reflexivity|].
        split; [reflexivity|]. split; [reflexivity|]. left. split; reflexivity.
      * clear IHxs'.
        destruct (pop_owns s this xs' cap F x Howns)
          as (s1 & Hrun & Howns1 & Hobjs & _ & Hout).
        apply (Hstep s1 xs' cap).
        -- simpl. rewrite (bind_run _ _ _ _ _ Hrun). reflexivity.
        -- simpl. rewrite removelast_last.
           destruct (xs' ++ [x]) eqn:E; [|reflexivity].
           destruct xs'; discriminate.
        -- assumption.
        -- lia.
        -- assumption.
        -- assumption.
    + destruct xs as [|x xs'].
      * exists s, [], cap. split; [assumption|]. split; [lia|].
        split; [reflexivity|]. split; [reflexivity|].
        right. exists ShiftFromEmpty, [], Shift, os. simpl run_ops.
        rewrite (bind_throw _ _ s ShiftFromEmpty s).
        2:{ apply bind_throw. eapply shift_empty. eassumption. }
        split; [reflexivity|]. split; [reflexivity|].
        split; [reflexivity|]. split; [reflexivity|]. right. split; reflexivity.
      * destruct (shift_owns s this xs' cap F x Howns)
          as (s1 & Hrun & Howns1 & Hobjs & Hout).
        apply (Hstep s1 xs' cap).
        -- simpl. rewrite (bind_run _ _ _ _ _ Hrun). reflexivity.
        -- reflexivity.
        -- assumption.
        -- lia.
        -- assumption.
        -- assumption.
Qed.

(** What happens to one container leaves a separate one as it is,
    and separate. *)
Lemma owns_isolated s s' this xs' cap' other ys c2 :
  owns s' this xs' cap' (others s this) ->
  (forall o, o <> this -> objs s' !! o = objs s !! o) ->
  is_Some (objs s !! this) ->
  repr s other ys c2 -> separate s this other ->
  repr s' other ys c2 /\ separate s' this other.
Proof.
  intros Howns Hobjs [a Ha] Hother [Hne Hsep].
  assert (Hlive : forall o l, objs s !! other = Some o -> data o = Some l ->
                   exists buf, others s this !! l = Some buf /\
                               bufs s !! l = Some buf).
  { intros o l Ho Hd.
    destruct Hother as (o' & Ho' & _ & _ & _ & Hbuf).
    assert (o' = o) as -> by congruence.
    destruct Hbuf as [(l' & buf & Hd' & Hl & _)|(Hd' & _)]; [|congruence].
    assert (l' = l) as -> by congruence.
    exists buf. split; [|assumption].
    apply (others_lookup s this a other o); try assumption.
    intros Hda. exact (Hsep a o l Ha Ho Hda Hd). }
  split.
  - apply (repr_frame s); [assumption|apply Hobjs; congruence|].
    intros o l Ho Hd. destruct (Hlive o l Ho Hd) as (buf & HF & Hl).
    rewrite Hl. eapply owns_others; eassumption.
  - split; [assumption|]. intros a' o l Ha' Ho Hda Hdo.
    rewrite Hobjs in Ho by congruence.
    destruct (Hlive o l Ho Hdo) as (buf & HF & _).
    destruct Howns as (a'' & Ha'' & _ & _ & _ & Hbuf).
    assert (a'' = a') as -> by congruence.
    destruct Hbuf as [(l' & buf' & Hd' & HF' & _)|(Hd' & _)]; congruence.
Qed.

Lemma push_all_owns cs vs : forall s this xs cap F,
  owns s this xs cap F ->
  Forall2 (fun c v => cref_in F c = Some v) cs vs ->
  Z.of_nat (length xs + length vs) <= 2 ^ 30 ->
  exists s' cap',
    push_all default_init this cs s = Ret tt s' /\
    owns s' this (xs ++ vs) cap' F /\ cap <= cap' /\
    (forall o, o <> this -> objs s' !! o = objs s !! o) /\
    out s' = out s.
Proof.
  intros s this xs cap F Howns Hcs. revert s xs cap Howns.
  induction Hcs as [|c v cs vs Hc Hcs IH]; intros s xs cap Howns Hn.
  - exists s, cap. rewrite app_nil_r. split; [reflexivity|].
    split; [assumption|]. split; [lia|]. split; reflexivity.
  - simpl length in Hn.
    pose proof (owns_bounds _ _ _ _ _ Howns) as Hb.
    destruct (push_owns s this xs cap F c v Howns)
      as (s1 & Hrun & Howns1 & Hobjs & Hout); [lia|assumption|].
    destruct (IH s1 (xs ++ [v]) _ Howns1)
      as (s' & cap' & Hrun' & Howns' & Hcap' & Hobjs' & Hout').
    { rewrite length_app. simpl. lia. }
    exists s', cap'. simpl push_all. rewrite (bind_run _ _ _ _ _ Hrun).
    rewrite <- app_assoc in Howns'. simpl in Howns'.
    split; [assumption|]. split; [assumption|].
    split; [pose proof (pushed_capacity_ge cap (Z.of_nat (length xs))); lia|].
    split; [intros o Ho; rewrite Hobjs', Hobjs by assumption; reflexivity|].
    congruence.
Qed.

(** The pushes after a construction with capacity [C]: the capacity
    follows the growth policy. *)
Lemma push_all_spec C cs vs : forall s this xs cap F,
  0 <= C -> owns s this xs cap F ->
  Forall2 (fun c v => cref_in F c = Some v) cs vs ->
  growth_inv C (Z.of_nat (length xs)) cap ->
  (exists kf : nat,
     Z.of_nat (length xs + length vs) <= Z.max C 1 * 2 ^ Z.of_nat kf
     <= Int.max_int) ->
  exists s' cap',
    push_all default_init this cs s = Ret tt s' /\
    owns s' this (xs ++ vs) cap' F /\
    growth_inv C (Z.of_nat (length (xs ++ vs))) cap' /\
    out s' = out s.
Proof.
  intros s this xs cap F HC Howns Hcs. revert s xs cap Howns.
  induction Hcs as [|c v cs vs Hc Hcs IH]; intros s xs cap Howns Hinv (kf & Hn).
  - exists s, cap. rewrite app_nil_r. auto.
  - simpl in Hn.
    destruct (push_owns s this xs cap F c v Howns)
      as (s1 & Hpush & Howns1 & _ & Hout1); [|assumption|].
    { apply (growth_room C _ _ kf); [assumption|assumption|lia]. }
    pose proof (owns_bounds _ _ _ _ _ Howns) as Hb.
    destruct (IH s1 (xs ++ [v]) _ Howns1)
      as (s' & cap' & Hrun & Howns' & Hinv' & Hout').
    + rewrite length_app. simpl.
      replace (Z.of_nat (length xs + 1)) with (Z.of_nat (length xs) + 1) by lia.
      apply growth_inv_push; [assumption|lia|assumption].
    + exists kf. rewrite length_app. simpl. lia.
    + exists s', cap'. simpl push_all.
      rewrite (bind_run _ _ _ _ _ Hpush).
      rewrite <- app_assoc in Howns', Hinv'. simpl in Howns', Hinv'.
      split; [assumption|]. split; [assumption|].
      split; [assumption|congruence].
Qed.

Lemma push_all_app this (cs ds : list (cref T)) : forall s,
  push_all default_init this (cs ++ ds) s =
  (push_all default_init this cs ;;; push_all default_init this ds) s.
Proof.
  induction cs as [|c cs IH]; intros s; [reflexivity|].
  simpl push_all. unfold bind.
  destruct (push default_init this c s); try reflexivity.
  rewrite IH. reflexivity.
Qed.

(** The capacity, the length and the elements after construction with
    capacity [C] and pushes up to a length that some
    [max(C, 1) * 2^k] within [int] covers; the arguments designate
    values that exist before the construction. *)
Lemma push_growth s this C cs vs :
  0 <= C <= Int.max_int ->
  Forall2 (fun c v => cref_value s c = Some v) cs vs ->
  (exists kf : nat,
     Z.of_nat (length vs) <= Z.max C 1 * 2 ^ Z.of_nat kf <= Int.max_int) ->
  exists s' cap,
    (Array_ctor value_init this C ;;; push_all default_init this cs) s
    = Ret tt s' /\
    repr s' this vs cap /\
    growth_inv C (Z.of_nat (length vs)) cap.
Proof.
  intros HC Hcs Hn.
  destruct (Array_ctor_owns s this C HC) as (s0 & Hctor & Howns0 & _).
  destruct (push_all_spec C cs vs s0 this [] C (bufs s))
    as (s' & cap & Hrun & Howns & Hinv & _);
    [lia|assumption|exact Hcs|left; split; reflexivity|exact Hn|].
  exists s', cap. rewrite (bind_run _ _ _ _ _ Hctor).
  split; [assumption|]. split; [eapply owns_repr; eassumption|assumption].
Qed.

Lemma temps_designate s x (n : nat) :
  Forall2 (fun c v => cref_value s c = Some v)
    (replicate n (Temp x)) (replicate n x).
Proof.
  induction n as [|n IH]; simpl; constructor; [reflexivity|assumption].
Qed.

(** One push too many: constructed with capacity [2^30] and filled, the
    container cannot take another element. *)
Lemma push_all_overflow (n : nat) s this x :
  Z.of_nat n = 2 ^ 30 ->
  (Array_ctor value_init this (2 ^ 30) ;;;
   push_all default_init this (replicate (S n) (Temp x))) s = Diverge.
Proof.
  intros Hn.
  destruct (push_growth s this (2 ^ 30) (replicate n (Temp x)) (replicate n x))
    as (s' & cap & Hrun & Hrepr & Hinv);
    [unfold Int.max_int; lia|apply temps_designate| |].
  { exists 0%nat. rewrite length_replicate. unfold Int.max_int. simpl. lia. }
  rewrite length_replicate in Hinv.
  pose proof (repr_bounds _ _ _ _ Hrepr) as Hb.
  rewrite length_replicate in Hb.
  assert (cap = 2 ^ 30) as ->.
  { destruct Hinv as [(H0 & _)|(_ & _ & _ & Hmin)]; [lia|].
    specialize (Hmin 0%nat). simpl in Hmin. lia. }
  unfold bind in Hrun |- *.
  destruct (Array_ctor value_init this (2 ^ 30) s) as [[] s0| | |];
    try discriminate.
  rewrite replicate_S_end, push_all_app. unfold bind. rewrite Hrun.
  simpl push_all. apply bind_diverge.
  apply (push_full_diverges _ _ _ _ _ Hrepr).
  rewrite length_replicate. assumption.
Qed.

Lemma pop_n_owns vs : forall s this xs cap F,
  owns s this (xs ++ vs) cap F ->
  exists s',
    pop_n this (length vs) s = Ret (reverse vs) s' /\
    owns s' this xs cap F /\
    (forall o, o <> this -> objs s' !! o = objs s !! o) /\
    out s' = out s.
Proof.
  induction vs as [|v vs IH] using rev_ind; intros s this xs cap F Howns.
  - exists s. rewrite app_nil_r in Howns. split; [reflexivity|].
    split; [assumption|]. split; reflexivity.
  - rewrite app_assoc in Howns.
    destruct (pop_owns s this (xs ++ vs) cap F v Howns)
      as (s1 & Hrun & Howns1 & Hobjs & _ & Hout).
    destruct (IH s1 this xs cap F Howns1)
      as (s' & Hrun' & Howns' & Hobjs' & Hout').
    exists s'. rewrite length_app, Nat.add_comm. simpl.
    rewrite (bind_run _ _ _ _ _ Hrun), (bind_run _ _ _ _ _ Hrun').
    rewrite reverse_snoc.
    split; [reflexivity|]. split; [assumption|].
    split; [intros o Ho; rewrite Hobjs', Hobjs by assumption; reflexivity|].
    congruence.
Qed.

Lemma shift_n_owns vs : forall s this cap F,
  owns s this vs cap F ->
  exists s',
    shift_n this (length vs) s = Ret vs s' /\
    owns s' this [] cap F /\
    (forall o, o <> this -> objs s' !! o = objs s !! o) /\
    out s' = out s.
Proof.
  induction vs as [|v vs IH]; intros s this cap F Howns.
  - exists s. split; [reflexivity|]. split; [assumption|]. split; reflexivity.
  - destruct (shift_owns s this vs cap F v Howns)
      as (s1 & Hrun & Howns1 & Hobjs & Hout).
    destruct (IH s1 this cap F Howns1) as (s' & Hrun' & Howns' & Hobjs' & Hout').
    exists s'. simpl.
    rewrite (bind_run _ _ _ _ _ Hrun), (bind_run _ _ _ _ _ Hrun').
    split; [reflexivity|]. split; [assumption|].
    split; [intros o Ho; rewrite Hobjs', Hobjs by assumption; reflexivity|].
    congruence.
Qed.

(** ** Construction, destruction and the calls in between *)

(** X1: with [0 <= initialCapacity] the constructor makes an empty
    container of exactly that capacity in a buffer of its own, and
    leaves the buffers and the other objects that exist as they are;
    with a negative [initialCapacity] it throws
    [std::bad_array_new_length] and changes nothing. *)
Theorem X1_constructor s this C :
  (0 <= C <= Int.max_int ->
   exists s',
     Array_ctor value_init this C s = Ret tt s' /\
     repr s' this [] C /\
     owns s' this [] C (bufs s) /\
     (forall o, o <> this -> objs s' !! o = objs s !! o) /\
     out s' = out s) /\
  (C < 0 -> Array_ctor value_init this C s = Throw bad_array_new_length s).
Proof.
  split.
  - intros HC.
    destruct (Array_ctor_owns s this C HC) as (s' & Hrun & Howns & Hobjs & Hout).
    exists s'. split; [assumption|].
    split; [eapply owns_repr; eassumption|]. auto.
  - intros HC. unfold Array_ctor, bind, new_array.
    destruct (Z.ltb_spec C 0); [reflexivity|lia].
Qed.

(** X2: on a container that has elements, [pop] returns the last one
    and leaves the others, the capacity and the buffers as they are
    (nothing is released). *)
Theorem X2_pop_last s this xs cap :
  repr s this xs cap -> xs <> [] ->
  exists v s',
    last xs = Some v /\
    pop this s = Ret v s' /\
    repr s' this (removelast xs) cap /\
    bufs s' = bufs s /\
    (forall o, o <> this -> objs s' !! o = objs s !! o).
Proof.
  intros Hrepr Hne.
  destruct (exists_last Hne) as (xs' & v & ->).
  destruct (pop_owns s this xs' cap _ v (repr_owns _ _ _ _ Hrepr))
    as (s' & Hrun & Howns & Hobjs & Hbufs & _).
  exists v, s'. split; [apply last_snoc|]. split; [assumption|].
  split; [rewrite removelast_last; eapply owns_repr; eassumption|].
  split; assumption.
Qed.

(** X3: on a container that has elements, [shift] returns the first
    one and leaves the others, in their order, and the capacity. *)
Theorem X3_shift_first s this xs cap :
  repr s this xs cap -> xs <> [] ->
  exists v s',
    head xs = Some v /\
    shift this s = Ret v s' /\
    repr s' this (tail xs) cap /\
    (forall o, o <> this -> objs s' !! o = objs s !! o).
Proof.
  intros Hrepr Hne. destruct xs as [|v xs]; [congruence|].
  destruct (shift_owns s this xs cap _ v (repr_owns _ _ _ _ Hrepr))
    as (s' & Hrun & Howns & Hobjs & _).
  exists v, s'. split; [reflexivity|]. split; [assumption|].
  split; [eapply owns_repr; eassumption|assumption].
Qed.

(** X4: any sequence of [push], [unshift], [pop] and [shift] whose
    arguments are not elements of the container itself and in which no
    [push] or [unshift] takes the length beyond [2^30] either returns
    or stops at a [pop] or [shift] of the empty container with the
    exception of that call; it has no undefined behaviour and does not
    diverge.  Where it returns, the elements are those of the same
    calls on a list; where it stops, the calls before the one that
    throws leave the list empty, and so is the container.  Either way
    the object is a container afterwards and its capacity is not below
    the one before. *)
Theorem X4_calls_keep_container s this xs cap os :
  repr s this xs cap ->
  args_in (cref_in (others s this)) os = true ->
  fits (cref_in (others s this)) (2 ^ 30) xs os = true ->
  exists s' ys cap',
    repr s' this ys cap' /\ cap <= cap' /\ out s' = out s /\
    ((run_ops default_init this os s = Ret tt s' /\
      apply_ops (cref_in (others s this)) xs os = Some ys)
     \/ (exists e os1 o os2,
           run_ops default_init this os s = Throw e s' /\
           os = os1 ++ o :: os2 /\
           apply_ops (cref_in (others s this)) xs os1 = Some ys /\
           ys = [] /\
           ((o = Pop /\ e = PopFromEmpty) \/
            (o = Shift /\ e = ShiftFromEmpty)))).
Proof.
  intros Hrepr Hargs Hfits.
  destruct (run_ops_owns os s this xs cap _ (repr_owns _ _ _ _ Hrepr)
              Hargs Hfits)
    as (s' & ys & cap' & Howns & Hcap & _ & Hout & Hres).
  exists s', ys, cap'. split; [eapply owns_repr; eassumption|]. auto.
Qed.

(** X5: the calls on one container, with arguments that are not
    elements of that container and with no [push] or [unshift] that
    takes its length beyond [2^30], leave every container that does
    not share its buffer as it is: the same elements, the same
    capacity, and still no shared buffer. *)
Theorem X5_calls_leave_others s this other xs cap ys c2 os :
  repr s this xs cap -> repr s other ys c2 -> separate s this other ->
  args_in (cref_in (others s this)) os = true ->
  fits (cref_in (others s this)) (2 ^ 30) xs os = true ->
  exists s',
    (run_ops default_init this os s = Ret tt s' \/
     exists e, run_ops default_init this os s = Throw e s') /\
    repr s' other ys c2 /\ separate s' this other.
Proof.
  intros Hrepr Hother Hsep Hargs Hfits.
  destruct (run_ops_owns os s this xs cap _ (repr_owns _ _ _ _ Hrepr)
              Hargs Hfits)
    as (s' & zs & cap' & Howns & _ & Hobjs & _ & Hres).
  exists s'. split.
  - destruct Hres as [(Hrun & _)|(e & os1 & o & os2 & Hrun & _)];
      [left|right; exists e]; assumption.
  - apply (owns_isolated s s' this zs cap'); try assumption.
    destruct Hrepr as (a & Ha & _). exists a. assumption.
Qed.

(** X6: no leak.  Construct a container, make any calls whose
    arguments designate values that exist before the construction and
    in which no [push] or [unshift] takes the length beyond [2^30]
    (they may end with the exception of [pop] or [shift]), destroy it:
    the free store and the other objects are what they were before the
    construction, and the object is gone. *)
Theorem X6_lifetime_no_leak s this C os :
  0 <= C <= Int.max_int ->
  args_in (cref_in (bufs s)) os = true ->
  fits (cref_in (bufs s)) (2 ^ 30) [] os = true ->
  exists s1 s2 s3,
    Array_ctor value_init this C s = Ret tt s1 /\
    (run_ops default_init this os s1 = Ret tt s2 \/
     exists e, run_ops default_init this os s1 = Throw e s2) /\
    Array_dtor this s2 = Ret tt s3 /\
    bufs s3 = bufs s /\
    objs s3 !! this = None /\
    (forall o, o <> this -> objs s3 !! o = objs s !! o) /\
    out s3 = out s.
Proof.
  intros HC Hargs Hfits.
  destruct (Array_ctor_owns s this C HC) as (s1 & Hctor & Howns1 & Hobjs1 & Hout1).
  destruct (run_ops_owns os s1 this [] C (bufs s) Howns1 Hargs Hfits)
    as (s2 & ys & cap' & Howns2 & _ & Hobjs2 & Hout2 & Hres).
  exists s1, s2, (mkState (delete this (objs s2)) (bufs s) (out s2)).
  split; [assumption|]. split.
  { destruct Hres as [(Hrun & _)|(e & os1 & o & os2 & Hrun & _)];
      [left|right; exists e]; assumption. }
  split; [eapply Array_dtor_owns; eassumption|]. simpl.
  split; [reflexivity|]. split; [apply lookup_delete_eq|].
  split; [|congruence].
  intros o Ho. rewrite lookup_delete_ne by congruence.
  rewrite Hobjs2, Hobjs1 by assumption. reflexivity.
Qed.

(** X7: last in, first out.  After any pushes that keep the length
    within [2^30], with arguments that are not elements of the
    container itself, as many calls of [pop] return the values pushed
    in reverse order and leave the elements that were there before. *)
Theorem X7_push_pop_lifo s this xs cap cs vs :
  repr s this xs cap ->
  Forall2 (fun c v => cref_in (others s this) c = Some v) cs vs ->
  Z.of_nat (length xs + length vs) <= 2 ^ 30 ->
  exists s1 s2 cap',
    push_all default_init this cs s = Ret tt s1 /\
    pop_n this (length vs) s1 = Ret (reverse vs) s2 /\
    repr s2 this xs cap' /\ cap <= cap'.
Proof.
  intros Hrepr Hcs Hn.
  destruct (push_all_owns cs vs s this xs cap _ (repr_owns _ _ _ _ Hrepr) Hcs Hn)
    as (s1 & cap' & Hpush & Howns1 & Hcap & _).
  destruct (pop_n_owns vs s1 this xs cap' _ Howns1) as (s2 & Hpop & Howns2 & _).
  exists s1, s2, cap'. split; [assumption|]. split; [assumption|].
  split; [eapply owns_repr; eassumption|assumption].
Qed.

(** X8: first in, first out.  After any pushes that keep the length
    within [2^30], with arguments that are not elements of the
    container itself, calls of [shift] return the elements that were
    there and then the values pushed, each in its order, and leave the
    container empty. *)
Theorem X8_push_shift_fifo s this xs cap cs vs :
  repr s this xs cap ->
  Forall2 (fun c v => cref_in (others s this) c = Some v) cs vs ->
  Z.of_nat (length xs + length vs) <= 2 ^ 30 ->
  exists s1 s2 cap',
    push_all default_init this cs s = Ret tt s1 /\
    shift_n this (length (xs ++ vs)) s1 = Ret (xs ++ vs) s2 /\
    repr s2 this [] cap' /\ cap <= cap'.
Proof.
  intros Hrepr Hcs Hn.
  destruct (push_all_owns cs vs s this xs cap _ (repr_owns _ _ _ _ Hrepr) Hcs Hn)
    as (s1 & cap' & Hpush & Howns1 & Hcap & _).
  destruct (shift_n_owns (xs ++ vs) s1 this cap' _ Howns1)
    as (s2 & Hshift & Howns2 & _).
  exists s1, s2, cap'. split; [assumption|]. split; [assumption|].
  split; [eapply owns_repr; eassumption|assumption].
Qed.

End Ownership.

(** ** The claims at an [Array<int>] *)

Section Concrete.

Lemma repr_full :
  repr full arr (replicate (Z.to_nat (2 ^ 30)) 0) (2 ^ 30).
Proof.
  exists (mkArray (Some 1%positive) (2 ^ 30) (2 ^ 30)).
  split; [apply lookup_singleton_eq|].
  split; [cbn [size]; rewrite length_replicate, Z2Nat.id; lia|].
  split; [reflexivity|]. split; [unfold Int.max_int; lia|].
  left. exists 1%positive, (replicate (Z.to_nat (2 ^ 30)) 0).
  split; [reflexivity|]. split; [apply lookup_singleton_eq|].
  split; [rewrite length_replicate, Z2Nat.id; lia|].
  apply firstn_all.
Qed.

(** *** C1 *)

Lemma C1_ensureCapacity_witness :
  (3 <= 1 -> ensureCapacity 0 arr 3 small = Ret tt small) /\
  (1 < 3 ->
   exists v,
     doubles_to 3 (Z.max 1 1) v /\
     (v <= Int.max_int ->
      exists s', ensureCapacity 0 arr 3 small = Ret tt s' /\
                 repr s' arr [5] v)).
Proof.
  apply (C1_ensureCapacity 0 small arr [5] 1 3).
  exists (mkArray (Some 1%positive) 1 1).
  split; [reflexivity|]. split; [reflexivity|]. split; [reflexivity|].
  split; [unfold Int.max_int; lia|].
  left. exists 1%positive, [5]. repeat split.
Defined.

(** The claim C1 fails where the doubled value is no [int]: on the
    full container of [2^30] elements and for
    [minCapacity = 2^30 + 1] (what [push] asks for), doubling from
    [max(2^30, 1)] reaches [2^31], and the call never returns. *)
Lemma C1_counterexample :
  repr full arr (replicate (Z.to_nat (2 ^ 30)) 0) (2 ^ 30) /\
  2 ^ 30 < 2 ^ 30 + 1 <= Int.max_int /\
  doubles_to (2 ^ 30 + 1) (Z.max (2 ^ 30) 1) (2 ^ 31) /\
  ensureCapacity 0 arr (2 ^ 30 + 1) full = Diverge.
Proof.
  split; [apply repr_full|]. split; [unfold Int.max_int; lia|]. split.
  - change (Z.max (2 ^ 30) 1) with (2 ^ 30).
    apply doubles_step; [lia|]. apply doubles_stop. lia.
  - apply (ensureCapacity_diverges 0 full arr
             (mkArray (Some 1%positive) (2 ^ 30) (2 ^ 30))).
    + apply lookup_singleton_eq.
    + cbn [capacity]. lia.
    + apply grow_never_from_full.
Qed.

(** *** C2 *)

(** C2, as amended: on a container constructed with capacity [C],
    [0 <= C], after each call of [push] for which the smallest
    [max(C, 1) * 2^k] that is at least the length is an [int] (it is
    one up to the length [2^30]), the capacity is that value, and the
    elements, also as the interface shows them, are the values pushed,
    in the order of the calls; the arguments of the calls are
    temporaries or objects that exist before the construction, not
    elements of the container itself.  From capacity 5, three calls
    leave length 3 and capacity 5, three more length 6 and
    capacity 10. *)
Theorem C2_push_growth :
  (forall (T : Type) (value_init default_init : T) (s : state T)
          (this : positive) (C : Z) (cs : list (cref T)) (vs : list T)
          (k : nat),
     0 <= C <= Int.max_int ->
     Forall2 (fun c v => cref_value s c = Some v) cs vs ->
     (1 <= k <= length vs)%nat ->
     exists cap,
       least_scaled (Z.max C 1) (Z.of_nat k) cap /\
       (Z.of_nat k <= 2 ^ 30 -> cap <= Int.max_int) /\
       (cap <= Int.max_int ->
        exists s',
          (Array_ctor value_init this C ;;;
           push_all default_init this (take k cs)) s = Ret tt s' /\
          repr s' this (take k vs) cap /\
          snapshot this s' = Ret (Z.of_nat k, cap, take k vs) s')) /\
  (forall garbage x1 x2 x3 x4 x5 x6 : Z,
     result ((Array_ctor 0 arr 5 ;;;
              push_all garbage arr [Temp x1; Temp x2; Temp x3] ;;;
              snapshot arr) start)
     = Some (3, 5, [x1; x2; x3]) /\
     result ((Array_ctor 0 arr 5 ;;;
              push_all garbage arr [Temp x1; Temp x2; Temp x3] ;;;
              push_all garbage arr [Temp x4; Temp x5; Temp x6] ;;;
              snapshot arr) start)
     = Some (6, 10, [x1; x2; x3; x4; x5; x6])).
Proof.
  split.
  - intros T value_init default_init s this C cs vs k HC Hcs Hk.
    assert (Hlen : length (take k vs) = k) by (rewrite length_take; lia).
    destruct (least_scaled_exists (Z.max C 1) (Z.of_nat k))
      as (cap & Hleast & Hbound); [lia|].
    exists cap. split; [assumption|].
    split; [intros Hle; apply Hbound; [unfold Int.max_int in *; lia|assumption]|].
    intros Hmax.
    destruct (push_growth value_init default_init s this C
                (take k cs) (take k vs))
      as (s' & cap' & Hrun & Hrepr & Hinv);
      [assumption|apply Forall2_take; assumption| |].
    { destruct Hleast as ((k0 & Hk0) & Hge & _).
      exists k0. rewrite Hlen, <- Hk0. lia. }
    rewrite Hlen in Hinv.
    assert (cap' = cap) as ->.
    { destruct Hinv as [(H0 & _)|(_ & Hleast')]; [lia|].
      eapply least_scaled_unique; eassumption. }
    exists s'. split; [assumption|]. split; [assumption|].
    rewrite (snapshot_repr _ _ _ _ Hrepr), Hlen. reflexivity.
  - intros garbage x1 x2 x3 x4 x5 x6. split; vm_compute; reflexivity.
Qed.

Lemma C2_push_growth_witness :
  exists cap,
    least_scaled (Z.max 5 1) (Z.of_nat 6) cap /\
    (Z.of_nat 6 <= 2 ^ 30 -> cap <= Int.max_int) /\
    (cap <= Int.max_int ->
     exists s',
       (Array_ctor 0 arr2 5 ;;;
        push_all 0 arr2
          (take 6 [Temp 1; Temp 2; Elem (Some 1%positive, 0);
                   Temp 4; Temp 5; Temp 6])) small = Ret tt s' /\
       repr s' arr2 (take 6 [1; 2; 5; 4; 5; 6]) cap /\
       snapshot arr2 s' = Ret (Z.of_nat 6, cap, take 6 [1; 2; 5; 4; 5; 6]) s').
Proof.
  apply (proj1 C2_push_growth Z 0 0 small arr2 5
           [Temp 1; Temp 2; Elem (Some 1%positive, 0); Temp 4; Temp 5; Temp 6]
           [1; 2; 5; 4; 5; 6] 6%nat).
  - unfold Int.max_int. lia.
  - repeat constructor.
  - simpl. lia.
Defined.

(** The claim C2 fails beyond [2^30] elements: constructed with
    capacity [2^30], the container takes [2^30] values, and the call of
    [push] after these never returns.  It also fails where the
    argument is an element of the container itself and the call has to
    grow the buffer: constructed with capacity 1, after [push(5)] the
    call [push(arr[0])] reads its argument in the buffer that
    [ensureCapacity] has released. *)
Lemma C2_counterexample :
  (0 <= 2 ^ 30 <= Int.max_int /\
   (Array_ctor 0 arr (2 ^ 30) ;;;
    push_all 0 arr (replicate (S (Z.to_nat (2 ^ 30))) (Temp 7))) start
   = Diverge) /\
  (Array_ctor 0 arr 1 ;;; push 0 arr (Temp 5) ;;;
   r <- subscript arr 0 ;; push 0 arr (Elem r)) start = Undef.
Proof.
  split; [|vm_compute; reflexivity].
  split; [unfold Int.max_int; lia|].
  apply push_all_overflow. apply Z2Nat.id. lia.
Qed.

(** *** C5 *)

(** C5: the run of the driver.  From capacity 5: after pushing 1, 2, 3
    length 3 and capacity 5; after 4, 5, 6 length 6 and capacity 10;
    after 1, 2, 3 length 9; after [unshift(0)] the elements
    0,1,2,3,4,5,6,1,2,3 and length 10; [pop] takes the last 3 and
    [shift] the first 0, leaving 1,2,3,4,5,6,1,2; [findIndex(x == 2)]
    is 1 and [find(x > 3)] points to 4.  [main] itself writes
    [main_output] and returns 0 with every buffer released. *)
Theorem C5_driver garbage :
  result (scenario garbage start)
  = Some ((3, 5, [1; 2; 3]),
          (6, 10, [1; 2; 3; 4; 5; 6]),
          (9, 10, [1; 2; 3; 4; 5; 6; 1; 2; 3]),
          (10, 10, [0; 1; 2; 3; 4; 5; 6; 1; 2; 3]),
          (3, 0, (8, 10, [1; 2; 3; 4; 5; 6; 1; 2])),
          1, Some 4) /\
  main garbage start = Ret 0 (mkState ∅ ∅ main_output).
Proof. split; vm_compute; reflexivity. Qed.

(** *** C3 and C10 *)

Lemma C3_copy_assign_self_witness :
  copy_assign 0 arr arr small = Ret arr small /\
  exists s', copy_assign 0 arr arr small = Ret arr s' /\
             repr s' arr [5] 1 /\ bufs s' = bufs small.
Proof.
  split.
  - apply (proj1 (C3_copy_assign_self 0 small arr)).
  - apply (proj2 (C3_copy_assign_self 0 small arr) [5] 1).
    exists (mkArray (Some 1%positive) 1 1).
    split; [reflexivity|]. split; [reflexivity|]. split; [reflexivity|].
    split; [unfold Int.max_int; lia|].
    left. exists 1%positive, [5]. repeat split.
Defined.

Lemma C10_move_assign_self_witness :
  move_assign arr arr small = Ret arr small /\
  exists s', move_assign arr arr small = Ret arr s' /\
             repr s' arr [5] 1 /\ bufs s' = bufs small.
Proof.
  split.
  - apply (proj1 (C10_move_assign_self small arr)).
  - apply (proj2 (C10_move_assign_self small arr) [5] 1).
    exists (mkArray (Some 1%positive) 1 1).
    split; [reflexivity|]. split; [reflexivity|]. split; [reflexivity|].
    split; [unfold Int.max_int; lia|].
    left. exists 1%positive, [5]. repeat split.
Defined.

(** *** C6 and C7 *)

Lemma C6_subscript_bounds_witness :
  (subscript arr 1 small = Throw IndexOutOfBounds small /\
   subscript_const arr 1 small = Throw IndexOutOfBounds small) /\
  (subscript arr (-1) small = Throw IndexOutOfBounds small /\
   subscript_const arr (-1) small = Throw IndexOutOfBounds small) /\
  subscript arr 0 small = Ret (Some 1%positive, 0) small /\
  deref (Some 1%positive, 0) small = Ret 5 small.
Proof.
  assert (Ha : objs small !! arr = Some (mkArray (Some 1%positive) 1 1))
    by reflexivity.
  split; [|split].
  - apply (proj1 (C6_subscript_bounds small arr _ 1 Ha)). simpl. lia.
  - apply (proj1 (C6_subscript_bounds small arr _ (-1) Ha)). simpl. lia.
  - destruct (proj2 (C6_subscript_bounds small arr _ 0 Ha)) as (H1 & _ & H3);
      [simpl; lia|].
    split; [exact H1|].
    destruct (H3 [5] 1) as (x & Hx & Hderef).
    + exists (mkArray (Some 1%positive) 1 1).
      split; [reflexivity|]. split; [reflexivity|]. split; [reflexivity|].
      split; [unfold Int.max_int; lia|].
      left. exists 1%positive, [5]. repeat split.
    + simpl in Hx. injection Hx as <-. exact Hderef.
Defined.

Lemma C7_empty_removal_witness :
  pop arr empty5 = Throw PopFromEmpty empty5 /\
  shift arr empty5 = Throw ShiftFromEmpty empty5.
Proof.
  apply (C7_empty_removal empty5 arr (mkArray (Some 1%positive) 0 5)).
  - reflexivity.
  - reflexivity.
Defined.

(** *** C8 and C9 *)

Lemma C8_push_pop_witness :
  exists s1 s2 cap',
    push 0 arr (Elem (Some 2%positive, 0)) two = Ret tt s1 /\
    repr s1 arr ([5] ++ [7]) cap' /\
    pop arr s1 = Ret 7 s2 /\
    repr s2 arr [5] cap' /\
    1 <= cap'.
Proof.
  apply (C8_push_pop 0 two arr [5] 1 (Elem (Some 2%positive, 0)) 7).
  - repr_at (mkArray (Some 1%positive) 1 1) 1%positive [5].
  - right. split; [lia|vm_compute; reflexivity].
Defined.

(** The claim C8 fails on a full container of [2^30] elements: [push]
    never returns.  It also fails on a full container with an element
    of the container itself for argument: in [arr.push(arr[0])] on the
    container of one element in one slot, [ensureCapacity] releases the
    buffer of the element and [push] then reads it. *)
Lemma C8_counterexample :
  (repr full arr (replicate (Z.to_nat (2 ^ 30)) 0) (2 ^ 30) /\
   push 0 arr (Temp 7) full = Diverge) /\
  (repr small arr [5] 1 /\
   subscript arr 0 small = Ret (Some 1%positive, 0) small /\
   cref_value small (Elem (Some 1%positive, 0)) = Some 5 /\
   push 0 arr (Elem (Some 1%positive, 0)) small = Undef).
Proof.
  split; [split; [apply repr_full|]|].
  - apply (push_full_diverges 0 full arr _ (Temp 7) repr_full).
    rewrite length_replicate. apply Z2Nat.id. lia.
  - split; [repr_at (mkArray (Some 1%positive) 1 1) 1%positive [5]|].
    split; [|split]; vm_compute; reflexivity.
Qed.

Lemma C9_unshift_shift_witness :
  exists s1 s2 cap',
    unshift 0 arr (Elem (Some 2%positive, 1)) two = Ret tt s1 /\
    repr s1 arr (8 :: [5]) cap' /\
    shift arr s1 = Ret 8 s2 /\
    repr s2 arr [5] cap'.
Proof.
  apply (C9_unshift_shift 0 two arr [5] 1 (Elem (Some 2%positive, 1)) 8).
  - repr_at (mkArray (Some 1%positive) 1 1) 1%positive [5].
  - right. lia.
  - vm_compute. reflexivity.
Defined.

(** The claim C9 fails on a full container of [2^30] elements:
    [unshift] never returns.  It also fails with an element of the
    container itself for argument, also where there is room: on 10, 20
    in five slots, [arr.unshift(arr[1])] moves the elements one slot up
    before it reads its argument, which is 10 by then; the container
    holds 10, 10, 20 and the following [shift()] returns 10, not the
    20 that the argument was at the call. *)
Lemma C9_counterexample :
  (repr full arr (replicate (Z.to_nat (2 ^ 30)) 0) (2 ^ 30) /\
   unshift 0 arr (Temp 7) full = Diverge) /\
  (repr roomy arr [10; 20] 5 /\
   subscript arr 1 roomy = Ret (Some 1%positive, 1) roomy /\
   cref_value roomy (Elem (Some 1%positive, 1)) = Some 20 /\
   result ((unshift 0 arr (Elem (Some 1%positive, 1)) ;;;
            snapshot arr) roomy) = Some (3, 5, [10; 10; 20]) /\
   result ((unshift 0 arr (Elem (Some 1%positive, 1)) ;;;
            shift arr) roomy) = Some 10).
Proof.
  split; [split; [apply repr_full|]|].
  - apply (unshift_full_diverges 0 full arr _ (Temp 7) repr_full).
    rewrite length_replicate. apply Z2Nat.id. lia.
  - split; [repr_at (mkArray (Some 1%positive) 2 5) 1%positive [10; 20; 0; 0; 0]|].
    split; [|split; [|split]]; vm_compute; reflexivity.
Qed.

End Concrete.



(** ** Searching, comparing and writing through a reference *)

Section Elements.

Context {T : Type}.
Variable value_init : T.
Variable default_init : T.

Implicit Types (s : state T) (a : Array) (this other l : positive)
  (xs ys buf : list T) (cap : Z) (pred : T -> bool).

Lemma first_match_Some pred xs : forall i j,
  first_match pred xs i = Some j ->
  exists (n : nat) x,
    j = i + Z.of_nat n /\ xs !! n = Some x /\ pred x = true /\
    forall (m : nat) y, (m < n)%nat -> xs !! m = Some y -> pred y = false.
Proof.
  induction xs as [|x xs IH]; intros i j H; [discriminate|].
  simpl in H. destruct (pred x) eqn:Hx.
  - injection H as <-. exists 0%nat, x.
    split; [lia|]. split; [reflexivity|]. split; [assumption|].
    intros m y Hm. lia.
  - destruct (IH _ _ H) as (n & y & -> & Hy & Hp & Hmin).
    exists (S n), y. split; [lia|]. split; [assumption|].
    split; [assumption|].
    intros [|m] z Hm Hz.
    + simpl in Hz. congruence.
    + apply (Hmin m); [lia|assumption].
Qed.

Lemma first_match_None pred xs i :
  first_match pred xs i = None -> forall x, x ∈ xs -> pred x = false.
Proof.
  revert i. induction xs as [|y xs IH]; intros i H x Hx.
  - inversion Hx.
  - simpl in H. destruct (pred y) eqn:Hy; [discriminate|].
    apply elem_of_cons in Hx as [->|Hx]; [assumption|].
    eapply IH; eassumption.
Qed.

(** The scan of [find] and [findIndex] over a buffer. *)
Lemma search_first_match {R} (f : Z -> R) pred s l buf :
  bufs s !! l = Some buf ->
  forall (k i : nat), (i + k <= length buf)%nat ->
    search_from k (Z.of_nat i)
      (fun j => x <- load (Some l) j ;;
                ret (if pred x then Some (f j) else None)) s
    = Ret (f <$> first_match pred (take k (drop i buf)) (Z.of_nat i)) s.
Proof.
  intros Hl k. induction k as [|k IH]; intros i Hk; [reflexivity|].
  destruct (lookup_lt_is_Some_2 buf i) as [x Hx]; [lia|].
  simpl search_from.
  rewrite (bind_run _ _ s (if pred x then Some (f (Z.of_nat i)) else None) s).
  2:{ rewrite (bind_run _ _ _ _ _ (load_run _ _ _ _ _ Hl Hx)). reflexivity. }
  rewrite (drop_S _ _ _ Hx). simpl.
  destruct (pred x); [reflexivity|].
  replace (Z.of_nat i + 1) with (Z.of_nat (S i)) by lia.
  apply IH. lia.
Qed.

Lemma search_repr {R} (f : option positive -> Z -> R) pred s this xs cap a :
  repr s this xs cap -> objs s !! this = Some a ->
  search (size a)
    (fun j => x <- load (data a) j ;;
              ret (if pred x then Some (f (data a) j) else None)) s
  = Ret (f (data a) <$> first_match pred xs 0) s.
Proof.
  intros (a' & Ha' & Hsize & _ & _ & Hbuf) Ha.
  assert (a' = a) as -> by congruence.
  unfold search. rewrite Hsize, Nat2Z.id.
  destruct Hbuf as [(l & buf & Hd & Hl & _ & Htake)|(_ & _ & ->)];
    [|reflexivity].
  rewrite Hd. change 0 with (Z.of_nat 0).
  rewrite (search_first_match (f (Some l)) pred s l buf Hl).
  - rewrite drop_0, Htake. reflexivity.
  - pose proof (length_of_take _ _ Htake). lia.
Qed.

Lemma findIndex_run pred s this xs cap :
  repr s this xs cap ->
  findIndex this pred s = Ret (default (-1) (first_match pred xs 0)) s.
Proof.
  intros Hrepr. pose proof Hrepr as (a & Ha & _).
  unfold findIndex.
  rewrite (bind_run _ _ _ _ _ (get_obj_run _ _ _ Ha)).
  rewrite (bind_run _ _ _ _ _
             (search_repr (fun _ j => j) pred s this xs cap a Hrepr Ha)).
  unfold ret. destruct (first_match pred xs 0); reflexivity.
Qed.

Lemma find_run pred s this xs cap a :
  repr s this xs cap -> objs s !! this = Some a ->
  find this pred s = Ret (pair (data a) <$> first_match pred xs 0) s.
Proof.
  intros Hrepr Ha. unfold find.
  rewrite (bind_run _ _ _ _ _ (get_obj_run _ _ _ Ha)).
  apply (search_repr (fun p j => (p, j)) pred s this xs cap a Hrepr Ha).
Qed.

(** Writing the element [n] of a container through its buffer. *)
Lemma store_owns s this xs cap F a (n : nat) v :
  owns s this xs cap F -> objs s !! this = Some a -> (n < length xs)%nat ->
  exists s',
    store (data a) (Z.of_nat n) v s = Ret tt s' /\
    owns s' this (<[n := v]> xs) cap F /\
    objs s' = objs s /\ out s' = out s.
Proof.
  intros (a' & Ha' & Hsize & Hcap & Hmax & Hbuf) Ha Hn.
  assert (a' = a) as -> by congruence.
  destruct Hbuf as [(l & buf & Hd & HF & Hs & Hlen & Htake)|(_ & _ & _ & ->)];
    [|simpl in Hn; lia].
  pose proof (length_of_take _ _ Htake) as Hle.
  rewrite Hd. erewrite store_run;
    [|rewrite Hs; apply lookup_insert_eq|lia].
  eexists. split; [reflexivity|]. simpl.
  split; [|split; reflexivity].
  exists a. split; [assumption|].
  split; [rewrite length_insert; assumption|].
  split; [assumption|]. split; [assumption|].
  left. exists l, (<[n := v]> buf). split; [assumption|].
  split; [assumption|].
  split; [unfold set_buf; simpl; rewrite Hs, insert_insert_eq; reflexivity|].
  split; [rewrite length_insert; assumption|].
  rewrite length_insert, take_insert_lt by assumption.
  rewrite Htake. reflexivity.
Qed.

(** X9: [findIndex] scans from the front: it returns the position of
    the first element that satisfies the predicate, or -1 when no
    element does; the state stays as it is. *)
Theorem X9_findIndex_first pred s this xs cap :
  repr s this xs cap ->
  exists r,
    findIndex this pred s = Ret r s /\
    ((r = -1 /\ forall x, x ∈ xs -> pred x = false)
     \/ (exists (n : nat) x,
           r = Z.of_nat n /\ xs !! n = Some x /\ pred x = true /\
           forall (m : nat) y,
             (m < n)%nat -> xs !! m = Some y -> pred y = false)).
Proof.
  intros Hrepr. rewrite (findIndex_run pred s this xs cap Hrepr).
  destruct (first_match pred xs 0) as [j|] eqn:E.
  - exists j. split; [reflexivity|]. right.
    destruct (first_match_Some _ _ _ _ E) as (n & x & -> & Hx & Hp & Hmin).
    exists n, x. split; [lia|]. auto.
  - exists (-1). split; [reflexivity|]. left.
    split; [reflexivity|]. eapply first_match_None; eassumption.
Qed.

(** X10: [find] returns [nullptr] when no element satisfies the
    predicate; otherwise a pointer to the first element that does, at
    the position [findIndex] returns: reading through the pointer
    gives that element, and writing through it replaces that element
    of the container and no other.  [find] leaves the state as it
    is. *)
Theorem X10_find_first pred s this xs cap :
  repr s this xs cap ->
  (find this pred s = Ret None s /\ forall x, x ∈ xs -> pred x = false)
  \/ (exists p (n : nat) x,
        find this pred s = Ret (Some p) s /\
        findIndex this pred s = Ret (Z.of_nat n) s /\
        xs !! n = Some x /\ pred x = true /\
        (forall (m : nat) y,
           (m < n)%nat -> xs !! m = Some y -> pred y = false) /\
        deref p s = Ret x s /\
        forall v, exists s',
          assign p v s = Ret tt s' /\
          repr s' this (<[n := v]> xs) cap).
Proof.
  intros Hrepr. pose proof Hrepr as (a & Ha & _).
  rewrite (find_run pred s this xs cap a Hrepr Ha).
  rewrite (findIndex_run pred s this xs cap Hrepr).
  destruct (first_match pred xs 0) as [j|] eqn:E.
  - right.
    destruct (first_match_Some _ _ _ _ E) as (n & x & -> & Hx & Hp & Hmin).
    exists (data a, Z.of_nat n), n, x. simpl.
    split; [reflexivity|]. split; [reflexivity|].
    split; [assumption|]. split; [assumption|]. split; [assumption|].
    pose proof (lookup_lt_Some _ _ _ Hx) as Hn.
    split.
    + destruct Hrepr as (a' & Ha' & _ & _ & _ & Hbuf).
      assert (a' = a) as -> by congruence.
      destruct Hbuf as [(l & buf & Hd & Hl & _ & Htake)|(_ & _ & ->)];
        [|discriminate].
      unfold deref. simpl. rewrite Hd.
      apply (load_run _ _ buf); [assumption|].
      rewrite (lookup_of_take xs buf); assumption.
    + intros v.
      destruct (store_owns s this xs cap _ a n v
                  (repr_owns _ _ _ _ Hrepr) Ha Hn)
        as (s' & Hrun & Howns & _).
      exists s'. split; [exact Hrun|]. eapply owns_repr; eassumption.
  - left. split; [reflexivity|]. eapply first_match_None; eassumption.
Qed.

Lemma subscript_in s this a index :
  objs s !! this = Some a -> 0 <= index < size a ->
  subscript this index s = Ret (data a, index) s.
Proof.
  intros Ha Hin. unfold subscript.
  rewrite (bind_run _ _ _ _ _ (get_obj_run _ _ _ Ha)).
  destruct (Z.ltb_spec index 0); [lia|].
  destruct (Z.geb_spec index (size a)); [lia|reflexivity].
Qed.

Lemma subscript_out s this a index :
  objs s !! this = Some a -> index < 0 \/ size a <= index ->
  subscript this index s = Throw IndexOutOfBounds s.
Proof.
  intros Ha Hout. unfold subscript.
  rewrite (bind_run _ _ _ _ _ (get_obj_run _ _ _ Ha)).
  destruct (Z.ltb_spec index 0); [reflexivity|].
  destruct (Z.geb_spec index (size a)); [reflexivity|lia].
Qed.

(** X11: [arr[index] = value] with [0 <= index < size] replaces the
    element at [index] and nothing else: the other elements, the
    capacity and every container with a buffer of its own stay as they
    are.  With any other [index] it throws [std::out_of_range] and
    changes nothing. *)
Theorem X11_subscript_assign s this xs cap index v :
  repr s this xs cap ->
  (0 <= index < Z.of_nat (length xs) ->
   exists s',
     subscript_assign this index v s = Ret tt s' /\
     repr s' this (<[Z.to_nat index := v]> xs) cap /\
     forall other ys c2,
       repr s other ys c2 -> separate s this other ->
       repr s' other ys c2) /\
  (index < 0 \/ Z.of_nat (length xs) <= index ->
   subscript_assign this index v s = Throw IndexOutOfBounds s).
Proof.
  intros Hrepr. pose proof Hrepr as (a & Ha & Hsize & _).
  unfold subscript_assign. split.
  - intros Hin.
    rewrite (bind_run _ _ _ _ _ (subscript_in s this a index Ha ltac:(lia))).
    destruct (store_owns s this xs cap _ a (Z.to_nat index) v
                (repr_owns _ _ _ _ Hrepr) Ha)
      as (s' & Hrun & Howns & Hobjs & _); [lia|].
    rewrite Z2Nat.id in Hrun by lia.
    exists s'. split; [exact Hrun|].
    split; [eapply owns_repr; eassumption|].
    intros other ys c2 Hother Hsep.
    apply (owns_isolated s s' this (<[Z.to_nat index := v]> xs) cap other ys c2);
      try assumption.
    + intros o _. rewrite Hobjs. reflexivity.
    + exists a. assumption.
  - intros Hout. apply bind_throw.
    apply (subscript_out s this a index Ha). lia.
Qed.

(** The scan of [operator==] over two buffers. *)
Lemma equal_loop (T_ne : T -> T -> bool) s l1 l2 b1 b2 :
  (forall x y, T_ne x y = false <-> x = y) ->
  bufs s !! l1 = Some b1 -> bufs s !! l2 = Some b2 ->
  forall (k i : nat), (i + k <= length b1)%nat -> (i + k <= length b2)%nat ->
    exists r,
      search_from k (Z.of_nat i)
        (fun j => x <- load (Some l1) j ;; y <- load (Some l2) j ;;
                  ret (if T_ne x y then Some false else None)) s
      = Ret r s /\
      ((r = None /\ take k (drop i b1) = take k (drop i b2))
       \/ (r = Some false /\ take k (drop i b1) <> take k (drop i b2))).
Proof.
  intros Hne H1 H2 k. induction k as [|k IH]; intros i Hk1 Hk2.
  - exists None. split; [reflexivity|]. left. split; reflexivity.
  - destruct (lookup_lt_is_Some_2 b1 i) as [x Hx]; [lia|].
    destruct (lookup_lt_is_Some_2 b2 i) as [y Hy]; [lia|].
    simpl search_from.
    rewrite (bind_run _ _ s (if T_ne x y then Some false else None) s).
    2:{ rewrite (bind_run _ _ _ _ _ (load_run _ _ _ _ _ H1 Hx)).
        rewrite (bind_run _ _ _ _ _ (load_run _ _ _ _ _ H2 Hy)).
        reflexivity. }
    rewrite (drop_S _ _ _ Hx), (drop_S _ _ _ Hy). simpl take.
    destruct (T_ne x y) eqn:E.
    + exists (Some false). split; [reflexivity|]. right.
      split; [reflexivity|]. intros Heq. injection Heq as Hxy _.
      apply Hne in Hxy. congruence.
    + apply Hne in E. subst y.
      replace (Z.of_nat i + 1) with (Z.of_nat (S i)) by lia.
      destruct (IH (S i)) as (r & Hrun & Hr); [lia|lia|].
      exists r. split; [assumption|].
      destruct Hr as [(-> & Heq)|(-> & Hneq)].
      * left. split; [reflexivity|]. rewrite Heq. reflexivity.
      * right. split; [reflexivity|]. congruence.
Qed.

(** X12: [a == b] is true exactly when the two containers have the
    same elements in the same order, whatever their capacities, and
    [a != b] is the opposite; neither changes the state.  The element
    type's [!=] is taken to be false exactly on equal values. *)
Theorem X12_equality (T_ne : T -> T -> bool) s this other xs ys c1 c2 :
  (forall x y, T_ne x y = false <-> x = y) ->
  repr s this xs c1 -> repr s other ys c2 ->
  exists b,
    equal T_ne this other s = Ret b s /\
    (b = true <-> xs = ys) /\
    not_equal T_ne this other s = Ret (negb b) s.
Proof.
  intros Hne Hthis Hother.
  assert (Heq : exists b, equal T_ne this other s = Ret b s /\
                          (b = true <-> xs = ys)).
  { destruct Hthis as (a & Ha & Hsa & _ & _ & Hba).
    destruct Hother as (o & Ho & Hso & _ & _ & Hbo).
    unfold equal.
    rewrite (bind_run _ _ _ _ _ (get_obj_run _ _ _ Ha)).
    rewrite (bind_run _ _ _ _ _ (get_obj_run _ _ _ Ho)).
    rewrite Hsa, Hso.
    destruct (Z.eqb_spec (Z.of_nat (length xs)) (Z.of_nat (length ys)))
      as [Hlen|Hlen]; cbn [negb].
    - unfold search. rewrite Nat2Z.id.
      destruct xs as [|x xs'].
      + destruct ys; [|simpl in Hlen; lia].
        exists true. split; [reflexivity|]. split; reflexivity.
      + destruct Hba as [(l1 & b1 & Hd1 & Hl1 & _ & Ht1)|(_ & _ & Hnil)];
          [|discriminate].
        destruct Hbo as [(l2 & b2 & Hd2 & Hl2 & _ & Ht2)|(_ & _ & Hnil)];
          [|subst ys; simpl in Hlen; lia].
        rewrite Hd1, Hd2. change 0 with (Z.of_nat 0).
        pose proof (length_of_take _ _ Ht1) as Hle1.
        pose proof (length_of_take _ _ Ht2) as Hle2.
        destruct (equal_loop T_ne s l1 l2 b1 b2 Hne Hl1 Hl2
                    (length (x :: xs')) 0%nat)
          as (r & Hrun & Hr); [lia|lia|].
        rewrite (bind_run _ _ _ _ _ Hrun). unfold ret.
        assert (Hn : length (x :: xs') = length ys) by lia.
        rewrite !drop_0, Ht1 in Hr. rewrite Hn, Ht2 in Hr.
        destruct Hr as [(-> & Hxy)|(-> & Hxy)].
        * exists true. split; [reflexivity|]. split; auto.
        * exists false. split; [reflexivity|]. split; [discriminate|].
          intros E. contradiction.
    - exists false. split; [reflexivity|]. split; [discriminate|].
      intros ->. lia. }
  destruct Heq as (b & Hrun & Hb).
  exists b. split; [assumption|]. split; [assumption|].
  unfold not_equal. rewrite (bind_run _ _ _ _ _ Hrun). reflexivity.
Qed.

End Elements.

(** ** Copying and moving *)

Section Transfers.

Context {T : Type}.
Variable value_init : T.
Variable default_init : T.

Implicit Types (s : state T) (a : Array) (this other l : positive)
  (xs ys buf : list T) (cap : Z).

Lemma copy_ctor_owns s this other xs cap :
  repr s other xs cap -> this <> other ->
  exists s',
    Array_copy_ctor value_init this other s = Ret tt s' /\
    owns s' this xs cap (bufs s) /\
    (forall l buf, bufs s !! l = Some buf -> bufs s' !! l = Some buf) /\
    (forall o', o' <> this -> objs s' !! o' = objs s !! o') /\
    out s' = out s.
Proof.
  intros Hrepr Hne.
  pose proof (repr_bounds _ _ _ _ Hrepr) as Hb.
  destruct Hrepr as (o & Ho & Hsize & Hcap & Hmax & Hbuf).
  unfold Array_copy_ctor.
  rewrite (bind_run _ _ _ _ _ (get_obj_run _ _ _ Ho)).
  destruct (new_array_run s (capacity o) value_init)
    as (l' & Hfresh & Hnew); [lia|].
  rewrite (bind_run _ _ _ _ _ Hnew).
  set (rep := replicate (Z.to_nat (capacity o)) value_init).
  set (A := mkArray (Some l') (size o) (capacity o)).
  rewrite (bind_run _ _ _ tt (set_obj (set_buf s l' rep) this A))
    by reflexivity.
  unfold for_up. rewrite Hsize, Z.sub_0_r, Nat2Z.id.
  destruct Hbuf as [(l & buf & Hd & Hl & Hlen & Htake)|(Hd & Hc0 & ->)].
  - assert (Hll : l <> l') by congruence.
    destruct (copy_loop_run (length xs) 0%nat
                (set_obj (set_buf s l' rep) this A) l l' buf rep)
      as (d' & Hrun & Hlen' & Hd'); [assumption| | | | |].
    { simpl. rewrite lookup_insert_ne by congruence. assumption. }
    { simpl. apply lookup_insert_eq. }
    { pose proof (length_of_take _ _ Htake). lia. }
    { unfold rep. rewrite length_replicate. lia. }
    change (Z.of_nat 0) with 0 in Hrun. rewrite Hd, Hrun.
    eexists. split; [reflexivity|]. unfold set_buf, set_obj. simpl.
    split; [|split; [|split; [|reflexivity]]].
    + exists A. split; [apply lookup_insert_eq|].
      split; [assumption|]. split; [assumption|]. split; [assumption|].
      left. exists l', d'. split; [reflexivity|]. split; [assumption|].
      split; [apply insert_insert_eq|].
      split; [rewrite Hlen'; unfold rep; rewrite length_replicate; lia|].
      apply take_eq_lookup.
      * rewrite Hlen'. unfold rep. rewrite length_replicate. lia.
      * intros j Hj. rewrite Hd'.
        destruct (decide (0 <= j < 0 + length xs)%nat); [|lia].
        apply lookup_of_take; assumption.
    + intros l0 buf0 Hl0. rewrite !lookup_insert_ne by congruence.
      assumption.
    + intros o' Ho'. apply lookup_insert_ne. congruence.
  - simpl for_up_from. unfold ret.
    eexists. split; [reflexivity|]. unfold set_buf, set_obj. simpl.
    split; [|split; [|split; [|reflexivity]]].
    + exists A. split; [apply lookup_insert_eq|].
      split; [assumption|]. split; [assumption|]. split; [assumption|].
      left. exists l', rep. split; [reflexivity|]. split; [assumption|].
      split; [reflexivity|].
      split; [unfold rep; rewrite length_replicate; lia|reflexivity].
    + intros l0 buf0 Hl0. rewrite lookup_insert_ne by congruence.
      assumption.
    + intros o' Ho'. apply lookup_insert_ne. congruence.
Qed.

(** X13: the copy constructor makes a deep copy: the new container
    has the elements and the capacity of the source in a buffer of its
    own, the source and every buffer that existed stay as they are, and
    the two containers are independent: calls of [push], [unshift],
    [pop] and [shift] on either, with arguments that are not elements
    of the container called and with no [push] or [unshift] that takes
    its length beyond [2^30], leave the other as it is. *)
Theorem X13_copy_constructor s this other xs cap :
  repr s other xs cap -> this <> other ->
  exists s',
    Array_copy_ctor value_init this other s = Ret tt s' /\
    repr s' this xs cap /\
    repr s' other xs cap /\
    separate s' this other /\
    (forall l buf, bufs s !! l = Some buf -> bufs s' !! l = Some buf) /\
    (forall os,
       args_in (cref_in (others s' this)) os = true ->
       fits (cref_in (others s' this)) (2 ^ 30) xs os = true ->
       exists s'',
         (run_ops default_init this os s' = Ret tt s'' \/
          exists e, run_ops default_init this os s' = Throw e s'') /\
         repr s'' other xs cap) /\
    (forall os,
       args_in (cref_in (others s' other)) os = true ->
       fits (cref_in (others s' other)) (2 ^ 30) xs os = true ->
       exists s'',
         (run_ops default_init other os s' = Ret tt s'' \/
          exists e, run_ops default_init other os s' = Throw e s'') /\
         repr s'' this xs cap).
Proof.
  intros Hrepr Hne.
  destruct (copy_ctor_owns s this other xs cap Hrepr Hne)
    as (s' & Hrun & Howns & Hbufs & Hobjs & _).
  assert (Hthis : repr s' this xs cap) by (eapply owns_repr; eassumption).
  assert (Hother : repr s' other xs cap).
  { apply (repr_frame s); [assumption|apply Hobjs; congruence|].
    intros o l Ho Hd.
    destruct Hrepr as (o' & Ho' & _ & _ & _ & Hbuf).
    assert (o' = o) as -> by congruence.
    destruct Hbuf as [(l0 & buf & Hd0 & Hl0 & _)|(Hd0 & _)]; [|congruence].
    assert (l0 = l) as -> by congruence.
    rewrite Hl0. apply Hbufs. assumption. }
  assert (Hsep : separate s' this other).
  { split; [assumption|]. intros a o l Ha Ho Hda Hdo.
    rewrite Hobjs in Ho by congruence.
    destruct Howns as (a' & Ha' & _ & _ & _ & Hbuf).
    assert (a' = a) as -> by congruence.
    destruct Hbuf as [(l' & _ & Hd' & HF & _)|(Hd' & _)]; [|congruence].
    assert (l' = l) as -> by congruence.
    destruct Hrepr as (o' & Ho' & _ & _ & _ & Hbuf).
    assert (o' = o) as -> by congruence.
    destruct Hbuf as [(l0 & buf & Hd0 & Hl0 & _)|(Hd0 & _)]; congruence. }
  assert (Hsep' : separate s' other this).
  { destruct Hsep as [Hne' Hsep]. split; [congruence|].
    intros a o l Ha Ho Hda Hdo. exact (Hsep o a l Ho Ha Hdo Hda). }
  exists s'. repeat (split; [assumption|]).
  split.
  - intros os Hargs Hfits.
    destruct (run_ops_owns default_init os s' this xs cap _
                (repr_owns _ _ _ _ Hthis) Hargs Hfits)
      as (s'' & zs & cap' & Howns' & _ & Hobjs' & _ & Hres).
    exists s''. split.
    + destruct Hres as [(Hr & _)|(e & os1 & o & os2 & Hr & _)];
        [left|right; exists e]; assumption.
    + apply (owns_isolated s' s'' this zs cap' other xs cap); try assumption.
      destruct Hthis as (a & Ha & _). exists a. assumption.
  - intros os Hargs Hfits.
    destruct (run_ops_owns default_init os s' other xs cap _
                (repr_owns _ _ _ _ Hother) Hargs Hfits)
      as (s'' & zs & cap' & Howns' & _ & Hobjs' & _ & Hres).
    exists s''. split.
    + destruct Hres as [(Hr & _)|(e & os1 & o & os2 & Hr & _)];
        [left|right; exists e]; assumption.
    + apply (owns_isolated s' s'' other zs cap' this xs cap); try assumption.
      destruct Hother as (a & Ha & _). exists a. assumption.
Qed.

Lemma move_ctor_run s this other o :
  objs s !! other = Some o -> this <> other ->
  Array_move_ctor this other s =
  Ret tt (mkState
            (<[other := mkArray None 0 0]>
               (<[this := mkArray (data o) (size o) (capacity o)]> (objs s)))
            (bufs s) (out s)).
Proof.
  intros Ho Hne.
  unfold Array_move_ctor, wr_data, wr_size, wr_capacity, put_obj, get_obj,
    bind, set_obj.
  rewrite Ho. simpl.
  rewrite lookup_insert_ne by congruence. rewrite Ho. simpl.
  rewrite lookup_insert_eq. simpl.
  rewrite lookup_insert_eq. simpl.
  rewrite !insert_insert_eq. reflexivity.
Qed.

(** X14: the move constructor hands the buffer over without copying:
    the new container has the elements and the capacity of the source,
    the source is left empty with capacity 0 and no buffer, and the
    free store is the same.  Destroying the source afterwards releases
    nothing, and the source can be used again: [push] on it, with an
    argument that designates a value, gives a container of one element
    and leaves the new container alone. *)
Theorem X14_move_constructor s this other xs cap v :
  repr s other xs cap -> this <> other ->
  exists s',
    Array_move_ctor this other s = Ret tt s' /\
    repr s' this xs cap /\
    repr s' other [] 0 /\
    bufs s' = bufs s /\
    (forall o', o' <> this -> o' <> other -> objs s' !! o' = objs s !! o') /\
    (exists s'',
       Array_dtor other s' = Ret tt s'' /\
       repr s'' this xs cap /\ bufs s'' = bufs s) /\
    (forall c, cref_value s' c = Some v ->
     exists s'',
       push default_init other c s' = Ret tt s'' /\
       repr s'' other [v] 1 /\ repr s'' this xs cap).
Proof.
  intros Hrepr Hne.
  destruct Hrepr as (o & Ho & Hsize & Hcap & Hmax & Hbuf).
  rewrite (move_ctor_run s this other o Ho Hne).
  set (s' := mkState _ _ _).
  assert (Hthis : repr s' this xs cap).
  { exists (mkArray (data o) (size o) (capacity o)). unfold s'. simpl.
    split; [rewrite lookup_insert_ne by congruence; apply lookup_insert_eq|].
    repeat (split; [assumption|]). assumption. }
  assert (Hother : owns s' other [] 0 (bufs s)).
  { exists (mkArray None 0 0). unfold s'. simpl.
    split; [apply lookup_insert_eq|].
    split; [reflexivity|]. split; [reflexivity|].
    split; [unfold Int.max_int; lia|].
    right. repeat split. }
  assert (Hsep : separate s' other this).
  { split; [congruence|]. intros a o' l Ha _ Hd _.
    unfold s' in Ha. simpl in Ha. rewrite lookup_insert_eq in Ha.
    injection Ha as <-. discriminate. }
  exists s'. split; [reflexivity|]. split; [assumption|].
  split; [eapply owns_repr; eassumption|]. split; [reflexivity|].
  split; [intros o' H1 H2; unfold s'; simpl;
          rewrite !lookup_insert_ne by congruence; reflexivity|].
  split.
  - rewrite (Array_dtor_owns s' other [] 0 (bufs s) Hother).
    eexists. split; [reflexivity|]. split; [|reflexivity].
    apply (repr_frame s'); [assumption| |reflexivity].
    simpl. apply lookup_delete_ne. congruence.
  - intros c Hc.
    destruct (push_owns default_init s' other [] 0 (bufs s) c v Hother)
      as (s'' & Hpush & Howns & Hobjs & _); [right; lia|exact Hc|].
    exists s''. split; [assumption|].
    split; [apply (owns_repr _ _ _ _ _ Howns)|].
    apply (owns_isolated s' s'' other [v] 1 this xs cap); try assumption.
    + replace (others s' other) with (bufs s); [exact Howns|].
      unfold others, s'. simpl. rewrite lookup_insert_eq. reflexivity.
    + exists (mkArray None 0 0). unfold s'. simpl. apply lookup_insert_eq.
Qed.

Lemma move_assign_run s this other a o xs cap :
  repr s this xs cap ->
  objs s !! this = Some a -> objs s !! other = Some o -> this <> other ->
  move_assign this other s =
  Ret this
      (mkState
         (<[other := mkArray None 0 0]>
            (<[this := mkArray (data o) (size o) (capacity o)]> (objs s)))
         (others s this) (out s)).
Proof.
  intros (a' & Ha' & _ & _ & _ & Hbuf) Ha Ho Hne.
  assert (a' = a) as -> by congruence.
  unfold move_assign. destruct (decide (this <> other)); [|contradiction].
  unfold others. rewrite Ha.
  assert (Hdel : exists s1,
            delete_array (data a) s = Ret tt s1 /\ objs s1 = objs s /\
            out s1 = out s /\
            bufs s1 = match data a with
                      | Some l => delete l (bufs s)
                      | None => bufs s
                      end).
  { destruct Hbuf as [(l & buf & Hd & Hl & _)|(Hd & _)]; rewrite Hd.
    - eexists. split; [apply (delete_array_run _ _ buf Hl)|].
      repeat split.
    - exists s. repeat split. }
  destruct Hdel as ([o1 b1 w1] & Hdel & Ho1 & Hw1 & Hb1).
  simpl in Ho1, Hw1, Hb1. subst o1 w1. rewrite <- Hb1.
  unfold bind at 1.
  rewrite (bind_run _ _ _ _ _ (get_obj_run _ _ _ Ha)).
  rewrite (bind_run _ _ _ _ _ Hdel).
  unfold wr_data, wr_size, wr_capacity, put_obj, get_obj, bind, set_obj, ret.
  simpl.
  repeat (first [rewrite Ho | rewrite Ha | rewrite lookup_insert_eq
                | rewrite lookup_insert_ne by congruence]; simpl).
  rewrite !insert_insert_eq. reflexivity.
Qed.

(** X15: move assignment between two containers that share no buffer
    releases the buffer of the target and hands the one of the source
    over: the target has the elements and the capacity of the source,
    the source is left empty with capacity 0, a reference to the target
    is returned, and the rest of the free store is as it was. *)
Theorem X15_move_assign_other s this other xs c1 ys c2 :
  repr s this xs c1 -> repr s other ys c2 -> separate s this other ->
  exists s',
    move_assign this other s = Ret this s' /\
    repr s' this ys c2 /\
    repr s' other [] 0 /\
    bufs s' = others s this /\
    (forall o', o' <> this -> o' <> other -> objs s' !! o' = objs s !! o') /\
    out s' = out s.
Proof.
  intros Hthis Hother [Hne Hsep].
  pose proof Hthis as (a & Ha & _).
  destruct Hother as (o & Ho & Hsize & Hcap & Hmax & Hbuf).
  rewrite (move_assign_run s this other a o xs c1 Hthis Ha Ho Hne).
  eexists. split; [reflexivity|]. simpl.
  split; [|split; [|split; [reflexivity|split; [|reflexivity]]]].
  - exists (mkArray (data o) (size o) (capacity o)). simpl.
    split; [rewrite lookup_insert_ne by congruence; apply lookup_insert_eq|].
    repeat (split; [assumption|]).
    destruct Hbuf as [(l & buf & Hd & Hl & Hrest)|Hnone]; [|right; assumption].
    left. exists l, buf. split; [assumption|]. split; [|assumption].
    apply (others_lookup s this a other o); try assumption.
    intros Hda. exact (Hsep a o l Ha Ho Hda Hd).
  - exists (mkArray None 0 0). simpl.
    split; [apply lookup_insert_eq|].
    split; [reflexivity|]. split; [reflexivity|].
    split; [unfold Int.max_int; lia|]. right. repeat split.
  - intros o' H1 H2. rewrite !lookup_insert_ne by congruence. reflexivity.
Qed.

(** X16: between two containers that share no buffer the statements
    of the copy assignment do their work: the buffer of the target is
    released, and the target gets the elements and the capacity of the
    source in a new buffer, the source staying as it is.  But the
    function then reaches its end without a [return]: the call as a
    whole is undefined behaviour. *)
Theorem X16_copy_assign_other s this other xs c1 ys c2 :
  repr s this xs c1 -> repr s other ys c2 -> separate s this other ->
  (exists s',
     copy_assign_statements value_init this other s = Ret tt s' /\
     repr s' this ys c2 /\
     repr s' other ys c2 /\
     owns s' this ys c2 (others s this) /\
     out s' = out s) /\
  copy_assign value_init this other s = Undef.
Proof.
  intros Hthis Hother [Hne Hsep].
  assert (Hbody : exists s',
     copy_assign_statements value_init this other s = Ret tt s' /\
     repr s' this ys c2 /\ repr s' other ys c2 /\
     owns s' this ys c2 (others s this) /\ out s' = out s).
  { pose proof (repr_bounds _ _ _ _ Hother) as Hb.
    pose proof Hthis as (a & Ha & _ & _ & _ & Hbufa).
    pose proof Hother as (o & Ho & Hsize & Hcap & Hmax & Hbufo).
    set (F := others s this).
    set (s1 := mkState (objs s) F (out s)).
    assert (Hdel : delete_array (data a) s = Ret tt s1).
    { unfold s1, F, others. rewrite Ha.
      destruct Hbufa as [(l & buf & Hd & Hl & _)|(Hd & _)]; rewrite Hd.
      - apply (delete_array_run _ _ buf Hl).
      - destruct s. reflexivity. }
    assert (HoF : forall l, data o = Some l ->
                    exists buf, F !! l = Some buf /\
                                Z.of_nat (length buf) = c2 /\
                                take (length ys) buf = ys).
    { intros l Hd.
      destruct Hbufo as [(l' & buf & Hd' & Hl & Hlen & Htake)|(Hd' & _)];
        [|congruence].
      assert (l' = l) as -> by congruence.
      exists buf. split; [|split; assumption].
      apply (others_lookup s this a other o); try assumption.
      intros Hda. exact (Hsep a o l Ha Ho Hda Hd). }
    unfold copy_assign_statements.
    rewrite (bind_run _ _ _ _ _ (get_obj_run _ _ _ Ha)).
    rewrite (bind_run _ _ _ _ _ Hdel).
    rewrite (bind_run _ _ s1 o s1) by (apply get_obj_run; exact Ho).
    destruct (new_array_run s1 (capacity o) value_init)
      as (p & Hfresh & Hnew); [lia|].
    change (F !! p = None) in Hfresh.
    rewrite (bind_run _ _ _ _ _ Hnew).
    set (rep := replicate (Z.to_nat (capacity o)) value_init).
    set (A := mkArray (Some p) (size o) (capacity o)).
    set (s2 := mkState (<[this := A]> (objs s)) (<[p := rep]> F) (out s)).
    assert (Hwr : (wr_data this (Some p) ;;;
                   wr_size this (size o) ;;;
                   wr_capacity this (capacity o))
                    (set_buf s1 p rep) = Ret tt s2).
    { unfold wr_data, wr_size, wr_capacity, put_obj, get_obj, bind, set_obj,
        set_buf, s1, s2, A.
      simpl.
      repeat (first [rewrite Ha | rewrite lookup_insert_eq]; simpl).
      rewrite !insert_insert_eq. reflexivity. }
    assert (Hseq : forall (k : unit -> M T unit),
              (wr_data this (Some p) ;;;
               wr_size this (size o) ;;;
               wr_capacity this (capacity o) ;;; k tt)
                (set_buf s1 p rep) = k tt s2).
    { intros k. unfold bind in Hwr |- *.
      destruct (wr_data this (Some p) (set_buf s1 p rep)) as [[] t1| | |];
        try discriminate.
      destruct (wr_size this (size o) t1) as [[] t2| | |]; try discriminate.
      destruct (wr_capacity this (capacity o) t2) as [[] t3| | |];
        try discriminate.
      injection Hwr as ->. reflexivity. }
    rewrite (Hseq (fun _ => for_up 0 (size o) _)).
    unfold for_up. rewrite Hsize, Z.sub_0_r, Nat2Z.id.
    assert (Hfin : forall d',
              length d' = length rep ->
              take (length ys) d' = ys ->
              let s' := set_buf s2 p d' in
              repr s' this ys c2 /\ repr s' other ys c2 /\
              owns s' this ys c2 F /\ out s' = out s).
    { intros d' Hlen' Htake' s'.
      assert (Howns : owns s' this ys c2 F).
      { exists A. unfold s', s2, set_buf. simpl.
        split; [apply lookup_insert_eq|].
        split; [assumption|]. split; [assumption|]. split; [assumption|].
        left. exists p, d'. split; [reflexivity|]. split; [exact Hfresh|].
        split; [apply insert_insert_eq|].
        split; [rewrite Hlen'; unfold rep; rewrite length_replicate; lia|].
        assumption. }
      split; [eapply owns_repr; eassumption|].
      split; [|split; [assumption|reflexivity]].
      exists o. unfold s', s2, set_buf. simpl.
      split; [rewrite lookup_insert_ne by congruence; assumption|].
      split; [assumption|]. split; [assumption|]. split; [assumption|].
      destruct Hbufo as [(l & buf & Hd & _)|Hnone]; [|right; assumption].
      destruct (HoF l Hd) as (buf' & HF & Hlen & Htake).
      left. exists l, buf'. split; [assumption|].
      split; [|split; assumption].
      rewrite insert_insert_eq, lookup_insert_ne by congruence. assumption. }
    destruct Hbufo as [(l & buf & Hd & _)|(Hd & Hc0 & Hnil)].
    - destruct (HoF l Hd) as (buf' & HF & Hlen & Htake).
      assert (Hlp : l <> p) by congruence.
      destruct (copy_loop_run (length ys) 0%nat s2 l p buf' rep)
        as (d' & Hrun & Hlen' & Hd'); [assumption| | | | |].
      { unfold s2. simpl. rewrite lookup_insert_ne by congruence. assumption. }
      { unfold s2. simpl. apply lookup_insert_eq. }
      { pose proof (length_of_take _ _ Htake). lia. }
      { unfold rep. rewrite length_replicate. lia. }
      change (Z.of_nat 0) with 0 in Hrun. rewrite Hd, Hrun.
      eexists. split; [reflexivity|]. apply Hfin; [assumption|].
      apply take_eq_lookup.
      + rewrite Hlen'. unfold rep. rewrite length_replicate. lia.
      + intros j Hj. rewrite Hd'.
        destruct (decide (0 <= j < 0 + length ys)%nat); [|lia].
        apply lookup_of_take; assumption.
    - subst ys. simpl for_up_from. unfold ret.
      exists s2. split; [reflexivity|].
      replace s2 with (set_buf s2 p rep).
      + apply Hfin; reflexivity.
      + unfold set_buf, s2. simpl. rewrite insert_insert_eq. reflexivity. }
  split; [exact Hbody|].
  destruct Hbody as (s' & Hrun & _).
  unfold copy_assign. destruct (decide (this = other)); [contradiction|].
  unfold copy_assign_statements in Hrun.
  unfold bind in Hrun |- *.
  repeat match goal with
         | H : match ?m with _ => _ end = Ret _ _ |- _ =>
             destruct m; try discriminate
         end.
  rewrite Hrun. reflexivity.
Qed.

End Transfers.

(** ** The driver's [printArray], and the properties at an
    [Array<int>] *)

Section DriverRuns.

Implicit Types (s : state Z) (xs : list Z).

Lemma print_loop s this xs cap :
  repr s this xs cap ->
  forall (k i : nat) w, (i + k <= length xs)%nat ->
    for_up_from k (Z.of_nat i)
      (fun j => r <- subscript_const this j ;; x <- deref r ;;
                print [Num x; Str tab])
      (mkState (objs s) (bufs s) w)
    = Ret tt (mkState (objs s) (bufs s)
                (w ++ flat_map (fun x => [Num x; Str tab])
                        (take k (drop i xs)))).
Proof.
  intros (a & Ha & Hsize & _ & _ & Hbuf) k.
  induction k as [|k IH]; intros i w Hk.
  - simpl. rewrite app_nil_r. reflexivity.
  - destruct (lookup_lt_is_Some_2 xs i) as [x Hx]; [lia|].
    destruct Hbuf as [(l & buf & Hd & Hl & _ & Htake)|(_ & _ & ->)];
      [|discriminate].
    simpl for_up_from.
    rewrite (bind_run _ _ _ tt
               (mkState (objs s) (bufs s) (w ++ [Num x; Str tab]))).
    2:{ unfold subscript_const.
        rewrite (bind_run _ _ _ (data a, Z.of_nat i)
                   (mkState (objs s) (bufs s) w)).
        2:{ rewrite (bind_run _ _ _ a (mkState (objs s) (bufs s) w))
              by (apply get_obj_run; exact Ha).
            destruct (Z.ltb_spec (Z.of_nat i) 0); [lia|].
            destruct (Z.geb_spec (Z.of_nat i) (size a)); [lia|reflexivity]. }
        rewrite (bind_run _ _ _ x (mkState (objs s) (bufs s) w)).
        2:{ unfold deref. simpl. rewrite Hd.
            apply (load_run _ _ buf); [exact Hl|].
            rewrite (lookup_of_take xs buf); [assumption|assumption|lia]. }
        reflexivity. }
    replace (Z.of_nat i + 1) with (Z.of_nat (S i)) by lia.
    rewrite IH by lia.
    rewrite (drop_S _ _ _ Hx). simpl. rewrite <- app_assoc. reflexivity.
Qed.

(** X17: [printArray] writes every element, first to last, each
    followed by a tab, then a newline, and changes nothing else. *)
Theorem X17_printArray s this xs cap :
  repr s this xs cap ->
  printArray this s = Ret tt (mkState (objs s) (bufs s) (out s ++ row xs)).
Proof.
  intros Hrepr. pose proof Hrepr as (a & Ha & Hsize & _).
  unfold printArray, getSize.
  rewrite (bind_run _ _ s (size a) s)
    by (rewrite (bind_run _ _ _ _ _ (get_obj_run _ _ _ Ha)); reflexivity).
  unfold for_up. rewrite Hsize, Z.sub_0_r, Nat2Z.id.
  pose proof (print_loop s this xs cap Hrepr (length xs) 0%nat (out s)) as H.
  change (Z.of_nat 0) with 0 in H.
  replace (mkState (objs s) (bufs s) (out s)) with s in H
    by (destruct s; reflexivity).
  rewrite (bind_run _ _ _ _ _ (H ltac:(lia))).
  rewrite drop_0, firstn_all. unfold print, row. simpl.
  rewrite <- app_assoc. reflexivity.
Qed.

End DriverRuns.

(** ** The further properties at an [Array<int>] *)

Lemma X1_constructor_witness :
  (exists s',
     Array_ctor 0 arr 5 start = Ret tt s' /\
     repr s' arr [] 5 /\
     owns s' arr [] 5 (bufs start) /\
     (forall o, o <> arr -> objs s' !! o = objs start !! o) /\
     out s' = out start) /\
  Array_ctor 0 arr (-1) start = Throw bad_array_new_length start.
Proof.
  split.
  - apply (proj1 (X1_constructor 0 start arr 5)). unfold Int.max_int. lia.
  - apply (proj2 (X1_constructor 0 start arr (-1))). lia.
Defined.

Lemma X2_pop_last_witness :
  exists v s',
    last [7; 8] = Some v /\
    pop arr2 two = Ret v s' /\
    repr s' arr2 (removelast [7; 8]) 3 /\
    bufs s' = bufs two /\
    (forall o, o <> arr2 -> objs s' !! o = objs two !! o).
Proof.
  apply (X2_pop_last two arr2 [7; 8] 3).
  - repr_at (mkArray (Some 2%positive) 2 3) 2%positive [7; 8; 0].
  - discriminate.
Defined.

Lemma X3_shift_first_witness :
  exists v s',
    head [7; 8] = Some v /\
    shift arr2 two = Ret v s' /\
    repr s' arr2 (tail [7; 8]) 3 /\
    (forall o, o <> arr2 -> objs s' !! o = objs two !! o).
Proof.
  apply (X3_shift_first two arr2 [7; 8] 3).
  - repr_at (mkArray (Some 2%positive) 2 3) 2%positive [7; 8; 0].
  - discriminate.
Defined.

Lemma X4_calls_keep_container_witness :
  exists s' ys cap',
    repr s' arr ys cap' /\ 1 <= cap' /\ out s' = out two /\
    ((run_ops 0 arr [Push (Elem (Some 2%positive, 0)); Pop; Pop; Pop] two
      = Ret tt s' /\
      apply_ops (cref_in (others two arr)) [5]
        [Push (Elem (Some 2%positive, 0)); Pop; Pop; Pop] = Some ys)
     \/ (exists e os1 o os2,
           run_ops 0 arr [Push (Elem (Some 2%positive, 0)); Pop; Pop; Pop] two
           = Throw e s' /\
           [Push (Elem (Some 2%positive, 0)); Pop; Pop; Pop]
           = os1 ++ o :: os2 /\
           apply_ops (cref_in (others two arr)) [5] os1 = Some ys /\
           ys = [] /\
           ((o = Pop /\ e = PopFromEmpty) \/
            (o = Shift /\ e = ShiftFromEmpty)))).
Proof.
  apply (X4_calls_keep_container 0 two arr [5] 1
           [Push (Elem (Some 2%positive, 0)); Pop; Pop; Pop]).
  - repr_at (mkArray (Some 1%positive) 1 1) 1%positive [5].
  - vm_compute. reflexivity.
  - vm_compute. reflexivity.
Defined.

Lemma X5_calls_leave_others_witness :
  exists s',
    (run_ops 0 arr [Push (Elem (Some 2%positive, 1)); Shift] two = Ret tt s' \/
     exists e,
       run_ops 0 arr [Push (Elem (Some 2%positive, 1)); Shift] two
       = Throw e s') /\
    repr s' arr2 [7; 8] 3 /\ separate s' arr arr2.
Proof.
  apply (X5_calls_leave_others 0 two arr arr2 [5] 1 [7; 8] 3
           [Push (Elem (Some 2%positive, 1)); Shift]).
  - repr_at (mkArray (Some 1%positive) 1 1) 1%positive [5].
  - repr_at (mkArray (Some 2%positive) 2 3) 2%positive [7; 8; 0].
  - separate_at.
  - vm_compute. reflexivity.
  - vm_compute. reflexivity.
Defined.

Lemma X6_lifetime_no_leak_witness :
  exists s1 s2 s3,
    Array_ctor 0 arr2 0 small = Ret tt s1 /\
    (run_ops 0 arr2 [Push (Temp 1); Unshift (Elem (Some 1%positive, 0)); Pop]
       s1 = Ret tt s2 \/
     exists e,
       run_ops 0 arr2 [Push (Temp 1); Unshift (Elem (Some 1%positive, 0)); Pop]
         s1 = Throw e s2) /\
    Array_dtor arr2 s2 = Ret tt s3 /\
    bufs s3 = bufs small /\
    objs s3 !! arr2 = None /\
    (forall o, o <> arr2 -> objs s3 !! o = objs small !! o) /\
    out s3 = out small.
Proof.
  apply (X6_lifetime_no_leak 0 0 small arr2 0
           [Push (Temp 1); Unshift (Elem (Some 1%positive, 0)); Pop]).
  - unfold Int.max_int. lia.
  - vm_compute. reflexivity.
  - vm_compute. reflexivity.
Defined.

Lemma X7_push_pop_lifo_witness :
  exists s1 s2 cap',
    push_all 0 arr [Temp 1; Elem (Some 2%positive, 0); Temp 3] two
    = Ret tt s1 /\
    pop_n arr (length [1; 7; 3]) s1 = Ret (reverse [1; 7; 3]) s2 /\
    repr s2 arr [5] cap' /\ 1 <= cap'.
Proof.
  apply (X7_push_pop_lifo 0 two arr [5] 1
           [Temp 1; Elem (Some 2%positive, 0); Temp 3] [1; 7; 3]).
  - repr_at (mkArray (Some 1%positive) 1 1) 1%positive [5].
  - repeat constructor.
  - simpl. lia.
Defined.

Lemma X8_push_shift_fifo_witness :
  exists s1 s2 cap',
    push_all 0 arr [Temp 1; Elem (Some 2%positive, 0); Temp 3] two
    = Ret tt s1 /\
    shift_n arr (length ([5] ++ [1; 7; 3])) s1 = Ret ([5] ++ [1; 7; 3]) s2 /\
    repr s2 arr [] cap' /\ 1 <= cap'.
Proof.
  apply (X8_push_shift_fifo 0 two arr [5] 1
           [Temp 1; Elem (Some 2%positive, 0); Temp 3] [1; 7; 3]).
  - repr_at (mkArray (Some 1%positive) 1 1) 1%positive [5].
  - repeat constructor.
  - simpl. lia.
Defined.

Lemma X9_findIndex_first_witness :
  exists r,
    findIndex arr2 (fun x => x >? 7) two = Ret r two /\
    ((r = -1 /\ forall x, x ∈ [7; 8] -> (x >? 7) = false)
     \/ (exists (n : nat) x,
           r = Z.of_nat n /\ [7; 8] !! n = Some x /\ (x >? 7) = true /\
           forall (m : nat) y,
             (m < n)%nat -> [7; 8] !! m = Some y -> (y >? 7) = false)).
Proof.
  apply (X9_findIndex_first (fun x => x >? 7) two arr2 [7; 8] 3).
  repr_at (mkArray (Some 2%positive) 2 3) 2%positive [7; 8; 0].
Defined.

Lemma X10_find_first_witness :
  (find arr2 (fun x => x >? 7) two = Ret None two /\
   forall x, x ∈ [7; 8] -> (x >? 7) = false)
  \/ (exists p (n : nat) x,
        find arr2 (fun x => x >? 7) two = Ret (Some p) two /\
        findIndex arr2 (fun x => x >? 7) two = Ret (Z.of_nat n) two /\
        [7; 8] !! n = Some x /\ (x >? 7) = true /\
        (forall (m : nat) y,
           (m < n)%nat -> [7; 8] !! m = Some y -> (y >? 7) = false) /\
        deref p two = Ret x two /\
        forall v, exists s',
          assign p v two = Ret tt s' /\
          repr s' arr2 (<[n := v]> [7; 8]) 3).
Proof.
  apply (X10_find_first (fun x => x >? 7) two arr2 [7; 8] 3).
  repr_at (mkArray (Some 2%positive) 2 3) 2%positive [7; 8; 0].
Defined.

Lemma X11_subscript_assign_witness :
  (exists s',
     subscript_assign arr2 1 9 two = Ret tt s' /\
     repr s' arr2 (<[Z.to_nat 1 := 9]> [7; 8]) 3 /\
     forall other ys c2,
       repr two other ys c2 -> separate two arr2 other ->
       repr s' other ys c2) /\
  subscript_assign arr2 2 9 two = Throw IndexOutOfBounds two.
Proof.
  assert (H : repr two arr2 [7; 8] 3)
    by (repr_at (mkArray (Some 2%positive) 2 3) 2%positive [7; 8; 0]).
  split.
  - apply (proj1 (X11_subscript_assign two arr2 [7; 8] 3 1 9 H)). simpl. lia.
  - apply (proj2 (X11_subscript_assign two arr2 [7; 8] 3 2 9 H)). simpl. lia.
Defined.

Lemma X12_equality_witness :
  exists b,
    equal int_ne arr arr2 two = Ret b two /\
    (b = true <-> [5] = [7; 8]) /\
    not_equal int_ne arr arr2 two = Ret (negb b) two.
Proof.
  apply (X12_equality int_ne two arr arr2 [5] [7; 8] 1 3).
  - intros x y. unfold int_ne. rewrite negb_false_iff. apply Z.eqb_eq.
  - repr_at (mkArray (Some 1%positive) 1 1) 1%positive [5].
  - repr_at (mkArray (Some 2%positive) 2 3) 2%positive [7; 8; 0].
Defined.

Lemma X13_copy_constructor_witness :
  exists s',
    Array_copy_ctor 0 arr2 arr small = Ret tt s' /\
    repr s' arr2 [5] 1 /\
    repr s' arr [5] 1 /\
    separate s' arr2 arr /\
    (exists s'',
       (run_ops 0 arr2 [Push (Temp 9); Shift] s' = Ret tt s'' \/
        exists e, run_ops 0 arr2 [Push (Temp 9); Shift] s' = Throw e s'') /\
       repr s'' arr [5] 1) /\
    (exists s'',
       (run_ops 0 arr [Push (Temp 9); Shift] s' = Ret tt s'' \/
        exists e, run_ops 0 arr [Push (Temp 9); Shift] s' = Throw e s'') /\
       repr s'' arr2 [5] 1).
Proof.
  destruct (X13_copy_constructor 0 0 small arr2 arr [5] 1)
    as (s' & Hrun & Hthis & Hother & Hsep & _ & Hcalls & Hcalls').
  - repr_at (mkArray (Some 1%positive) 1 1) 1%positive [5].
  - discriminate.
  - exists s'. repeat (split; [assumption|]). split.
    + apply (Hcalls [Push (Temp 9); Shift]); reflexivity.
    + apply (Hcalls' [Push (Temp 9); Shift]); reflexivity.
Defined.

Lemma X14_move_constructor_witness :
  exists s',
    Array_move_ctor arr2 arr small = Ret tt s' /\
    repr s' arr2 [5] 1 /\
    repr s' arr [] 0 /\
    bufs s' = bufs small.
Proof.
  destruct (X14_move_constructor 0 small arr2 arr [5] 1 9)
    as (s' & Hrun & Hthis & Hother & Hbufs & _).
  - repr_at (mkArray (Some 1%positive) 1 1) 1%positive [5].
  - discriminate.
  - exists s'. auto.
Defined.

Lemma X15_move_assign_other_witness :
  exists s',
    move_assign arr arr2 two = Ret arr s' /\
    repr s' arr [7; 8] 3 /\
    repr s' arr2 [] 0 /\
    bufs s' = others two arr /\
    (forall o', o' <> arr -> o' <> arr2 -> objs s' !! o' = objs two !! o') /\
    out s' = out two.
Proof.
  apply (X15_move_assign_other two arr arr2 [5] 1 [7; 8] 3).
  - repr_at (mkArray (Some 1%positive) 1 1) 1%positive [5].
  - repr_at (mkArray (Some 2%positive) 2 3) 2%positive [7; 8; 0].
  - separate_at.
Defined.

Lemma X16_copy_assign_other_witness :
  (exists s',
     copy_assign_statements 0 arr arr2 two = Ret tt s' /\
     repr s' arr [7; 8] 3 /\
     repr s' arr2 [7; 8] 3 /\
     owns s' arr [7; 8] 3 (others two arr) /\
     out s' = out two) /\
  copy_assign 0 arr arr2 two = Undef.
Proof.
  apply (X16_copy_assign_other 0 two arr arr2 [5] 1 [7; 8] 3).
  - repr_at (mkArray (Some 1%positive) 1 1) 1%positive [5].
  - repr_at (mkArray (Some 2%positive) 2 3) 2%positive [7; 8; 0].
  - separate_at.
Defined.

Lemma X17_printArray_witness :
  printArray arr2 two
  = Ret tt (mkState (objs two) (bufs two) (out two ++ row [7; 8])).
Proof.
  apply (X17_printArray two arr2 [7; 8] 3).
  repr_at (mkArray (Some 2%positive) 2 3) 2%positive [7; 8; 0].
Defined.
